(** * PSMoveService: the controller device manager

    A shallow embedding of [src/psmoveservice/ControllerManager.cpp]: the
    fixed pool of controller objects, the poll pass, the hot-plug pass
    [update_connected_controllers], the frame publisher and the scheduler
    [update], followed by the properties of the specification that concern
    them. *)

From Stdlib Require Import ZArith Lia.
From stdpp Require Import base tactics option strings functions list.

Open Scope Z_scope.

(** ** Machine integers *)

(** [int] is a 32-bit two's complement integer; values are carried in [Z]
    and brought back into range after each operation that can leave it. *)
Definition int_wrap (z : Z) : Z := (z + 2 ^ 31) mod 2 ^ 32 - 2 ^ 31.

(** [unsigned int]. *)
Definition uint_wrap (z : Z) : Z := z mod 2 ^ 32.

(** [static_cast<int>(size_t)]. *)
Definition static_cast_int (n : nat) : Z := int_wrap (Z.of_nat n).

(** ** Controller objects *)

(** The device path reported by the enumerator. *)
Definition DeviceIdentity := string.

(** A [float], carried as its IEEE-754 bit pattern; the manager only copies
    these values. *)
Definition float := Z.

Record psmovePosef := mkPose {
  qw : float; qx : float; qy : float; qz : float;
  px : float; py : float; pz : float }.

(** Modelled from the spec: the button-state enumeration is declared in
    PSMoveController.h, which is not part of the sources at hand. The macro
    [SET_BUTTON_BIT] names [Button_DOWN] and [Button_PRESSED]; the spec
    speaks of two raw states collapsing to one bit. *)
Inductive ButtonState := Button_UP | Button_PRESSED | Button_DOWN | Button_RELEASED.

Global Instance ButtonState_eq_dec : EqDecision ButtonState.
Proof. solve_decision. Defined.

Record PSMoveState := mkState {
  Triangle : ButtonState; Circle : ButtonState; Cross : ButtonState;
  Square : ButtonState; Select : ButtonState; Start : ButtonState;
  PS : ButtonState; Move : ButtonState;
  Trigger : Z }.

(** Modelled from the spec: class PSMoveController (PSMoveController.h/.cpp)
    is not part of the sources at hand. A session carries its slot id, its
    open/closed state, the identity it is bound to, and the last decoded
    pose and state. *)
Record PSMoveController := mkController {
  PSMoveID : Z;
  IsOpen : bool;
  bound_identity : option DeviceIdentity;
  Pose : psmovePosef;
  State : PSMoveState }.

Definition getPSMoveID (c : PSMoveController) : Z := PSMoveID c.
Definition getIsOpen (c : PSMoveController) : bool := IsOpen c.
Definition getPose (c : PSMoveController) : psmovePosef := Pose c.
Definition getState (c : PSMoveController) : PSMoveState := State c.

Definition setPSMoveID (id : Z) (c : PSMoveController) : PSMoveController :=
  mkController id (IsOpen c) (bound_identity c) (Pose c) (State c).

(** Modelled from the spec: [open] binds a session to an identity through
    the transport; on success the session is Open and bound, on failure it
    is left as it was. The transport's answer is the argument [ok]. *)
Definition open (ok : bool) (e : DeviceIdentity) (c : PSMoveController)
  : PSMoveController * bool :=
  if ok then (mkController (PSMoveID c) true (Some e) (Pose c) (State c), true)
  else (c, false).

(** Modelled from the spec: [close] sets the session Closed and clears the
    bound identity; closing a closed session changes nothing else. *)
Definition close (c : PSMoveController) : PSMoveController :=
  mkController (PSMoveID c) false None (Pose c) (State c).

(** Modelled from the spec: [matches(session, identity)]. *)
Definition matchesDeviceEnumerator (c : PSMoveController) (e : DeviceIdentity) : bool :=
  bool_decide (bound_identity c = Some e).

(** What the transport delivers to one [readDataIn] call. *)
Inductive ReadInput :=
  | InNoData
  | InNewData (pose : psmovePosef) (st : PSMoveState)
  | InFailure.

Inductive ReadDataResult :=
  | _ReadDataResultSuccessNoData
  | _ReadDataResultSuccessNewData
  | _ReadDataResultFailure.

(** Modelled from the spec: [read] yields one of three outcomes; on new data
    it updates the last pose, buttons and trigger; on failure the session
    does not close itself. *)
Definition readDataIn (inp : ReadInput) (c : PSMoveController)
  : PSMoveController * ReadDataResult :=
  match inp with
  | InNoData => (c, _ReadDataResultSuccessNoData)
  | InNewData pose st =>
      (mkController (PSMoveID c) (IsOpen c) (bound_identity c) pose st,
       _ReadDataResultSuccessNewData)
  | InFailure => (c, _ReadDataResultFailure)
  end.

(** ** Published frames and log lines *)

(** The button enumeration of the protocol's ControllerDataFrame. *)
Inductive ButtonType := TRIANGLE | CIRCLE | CROSS | SQUARE | SELECT | START | PS_BUTTON | MOVE.

Global Instance ButtonType_eq_dec : EqDecision ButtonType.
Proof. solve_decision. Defined.

Record ControllerDataFrame := mkFrame {
  psmove_id : Z;
  sequence_num : Z;
  isconnected : bool;
  iscurrentlytracking : bool;
  istrackingenabled : bool;
  orientation : float * float * float * float;
  position : float * float * float;
  button_down_bitmask : Z;
  trigger_value : Z }.

(** What the manager hands to its collaborators: the server log lines it
    writes and the frames it gives to the request handler. *)
Inductive Event :=
  | LogInfo_moved (controller_index new_controller_index : nat)
  | LogInfo_connected (controller_index : nat)
  | LogError_too_many
  | LogError_hid_init
  | LogWarning_closing (existing_controller_index : nat)
  | LogInfo_failed_read (controller_index : nat)
  | Publish (data_frame : ControllerDataFrame).

(** ** The manager *)

(** A [PSMoveControllerPtr] that is not null points to one of the pooled
    objects; the objects themselves live in [objects]. *)
Definition ptr := nat.

Record ControllerManagerConfig := mkConfig {
  controller_poll_interval : Z;
  controller_reconnect_interval : Z }.

Definition k_default_controller_reconnect_interval : Z := 1000.
Definition k_default_controller_poll_interval : Z := 2.

(** [boost::posix_time::ptime] of the microsecond clock, as a count of
    microseconds. *)
Definition ptime := Z.

Definition total_milliseconds (d : Z) : Z := Z.quot d 1000.

Record ControllerManagerImpl := mkManager {
  m_config : option ControllerManagerConfig;
  m_controllers : list (option ptr);
  m_sequence_number : Z;
  m_last_reconnect_time : ptime;
  m_last_poll_time : ptime;
  objects : ptr → PSMoveController }.

Definition set_controllers (l : list (option ptr)) (s : ControllerManagerImpl) :=
  mkManager (m_config s) l (m_sequence_number s) (m_last_reconnect_time s)
    (m_last_poll_time s) (objects s).
Definition set_sequence_number (n : Z) (s : ControllerManagerImpl) :=
  mkManager (m_config s) (m_controllers s) n (m_last_reconnect_time s)
    (m_last_poll_time s) (objects s).
Definition set_last_reconnect_time (t : ptime) (s : ControllerManagerImpl) :=
  mkManager (m_config s) (m_controllers s) (m_sequence_number s) t
    (m_last_poll_time s) (objects s).
Definition set_last_poll_time (t : ptime) (s : ControllerManagerImpl) :=
  mkManager (m_config s) (m_controllers s) (m_sequence_number s)
    (m_last_reconnect_time s) t (objects s).
Definition set_objects (h : ptr → PSMoveController) (s : ControllerManagerImpl) :=
  mkManager (m_config s) (m_controllers s) (m_sequence_number s)
    (m_last_reconnect_time s) (m_last_poll_time s) h.

(** [p->f()] for a mutating member function [f]. *)
Definition on_object (p : ptr) (f : PSMoveController → PSMoveController)
  (h : ptr → PSMoveController) : ptr → PSMoveController :=
  <[p := f (h p)]> h.

(** Reading and writing a C array of fixed size: an index past the end
    has no defined result. *)
Definition array_read {A} (l : list A) (i : nat) : option A := l !! i.
Definition array_write {A} (l : list A) (i : nat) (v : A) : option (list A) :=
  if decide (i < length l)%nat then Some (<[i := v]> l) else None.

(** A [for] loop over the given indices, with the log lines of the bodies
    in order. *)
Fixpoint for_each {St} (body : nat → St → option (St * list Event))
  (idxs : list nat) (s : St) : option (St * list Event) :=
  match idxs with
  | [] => Some (s, [])
  | i :: rest =>
      '(s1, ev1) ← body i s;
      '(s2, ev2) ← for_each body rest s1;
      Some (s2, ev1 ++ ev2)
  end.

Section Manager.

(** The size of the pool, from ControllerManager.h. *)
Variable k_max_psmove_controllers : nat.

(** The bit of each button, from the protocol's enumeration. *)
Variable bit_index : ButtonType → Z.

Definition initial_objects : ptr → PSMoveController :=
  λ p, mkController (static_cast_int p) false None
         (mkPose 0 0 0 0 0 0 0)
         (mkState Button_UP Button_UP Button_UP Button_UP Button_UP Button_UP
            Button_UP Button_UP 0).

(** The constructor: controller [i] is allocated with id [i] in slot [i]. *)
Definition ControllerManagerImpl_new : ControllerManagerImpl :=
  mkManager None (Some <$> seq 0 k_max_psmove_controllers) 0 0 0 initial_objects.

(** ** Frame publisher *)

Definition SET_BUTTON_BIT (bitmask : Z) (b : ButtonType) (button_state : ButtonState) : Z :=
  uint_wrap (Z.lor bitmask
    (if bool_decide (button_state = Button_DOWN ∨ button_state = Button_PRESSED)
     then Z.shiftl 1 (bit_index b) else 0)).

(** The local [button_bitmask] after the eight macro lines. *)
Definition button_bitmask_of (controller_state : PSMoveState) : Z :=
  let button_bitmask := 0 in
  let button_bitmask := SET_BUTTON_BIT button_bitmask TRIANGLE (Triangle controller_state) in
  let button_bitmask := SET_BUTTON_BIT button_bitmask CIRCLE (Circle controller_state) in
  let button_bitmask := SET_BUTTON_BIT button_bitmask CROSS (Cross controller_state) in
  let button_bitmask := SET_BUTTON_BIT button_bitmask SQUARE (Square controller_state) in
  let button_bitmask := SET_BUTTON_BIT button_bitmask SELECT (Select controller_state) in
  let button_bitmask := SET_BUTTON_BIT button_bitmask START (Start controller_state) in
  let button_bitmask := SET_BUTTON_BIT button_bitmask PS_BUTTON (PS controller_state) in
  let button_bitmask := SET_BUTTON_BIT button_bitmask MOVE (Move controller_state) in
  button_bitmask.

Definition publish_controller_data_frame (controller : ptr) (s : ControllerManagerImpl)
  : ControllerManagerImpl * list Event :=
  let controller_pose := getPose (objects s controller) in
  let controller_state := getState (objects s controller) in
  let seq_num := m_sequence_number s in
  let s' := set_sequence_number (int_wrap (m_sequence_number s + 1)) s in
  let button_bitmask := button_bitmask_of controller_state in
  let data_frame :=
    mkFrame (getPSMoveID (objects s controller)) seq_num
      true false true
      (qw controller_pose, qx controller_pose, qy controller_pose, qz controller_pose)
      (px controller_pose, py controller_pose, pz controller_pose)
      0
      (Trigger controller_state) in
  (s', [Publish data_frame]).

(** ** Poll pass *)

(** The body of the loop of [poll_open_controllers]; [reads i] is what the
    transport delivers to the controller in slot [i]. *)
Definition poll_controller (reads : nat → ReadInput) (controller_index : nat)
  (s : ControllerManagerImpl) : option (ControllerManagerImpl * list Event) :=
  slot ← array_read (m_controllers s) controller_index;
  controller ← slot;
  if getIsOpen (objects s controller) then
    let '(c', result) := readDataIn (reads controller_index) (objects s controller) in
    let s1 := set_objects (<[controller := c']> (objects s)) s in
    match result with
    | _ReadDataResultSuccessNoData => Some (s1, [])
    | _ReadDataResultSuccessNewData => Some (publish_controller_data_frame controller s1)
    | _ReadDataResultFailure =>
        Some (set_objects (on_object controller close (objects s1)) s1,
              [LogInfo_failed_read controller_index])
    end
  else Some (s, []).

Definition poll_open_controllers (reads : nat → ReadInput) (s : ControllerManagerImpl)
  : option (ControllerManagerImpl * list Event) :=
  for_each (poll_controller reads) (seq 0 k_max_psmove_controllers) s.

(** ** Hot-plug pass *)

Definition is_open_match (h : ptr → PSMoveController) (e : DeviceIdentity)
  (controller : option ptr) : bool :=
  match controller with
  | Some p => getIsOpen (h p) && matchesDeviceEnumerator (h p) e
  | None => false
  end.

Definition is_closed (h : ptr → PSMoveController) (controller : option ptr) : bool :=
  match controller with
  | Some p => negb (getIsOpen (h p))
  | None => false
  end.

(** The two searches scan the slots in ascending order and stop at the first
    hit; [None] stands for the result [-1]. *)
Definition find_open_controller_index (h : ptr → PSMoveController)
  (controllers : list (option ptr)) (e : DeviceIdentity) : option nat :=
  fst <$> list_find (λ c, is_open_match h e c = true) controllers.

Definition find_first_closed_controller_index (h : ptr → PSMoveController)
  (controllers : list (option ptr)) : option nat :=
  fst <$> list_find (λ c, is_closed h c = true) controllers.

(** The variables of [update_connected_controllers] while it runs. *)
Record PassState := mkPass {
  ps_controllers : list (option ptr);
  ps_temp : list (option ptr);
  ps_new_index : nat;
  ps_objects : ptr → PSMoveController }.

(** One iteration of the loop over the enumerator (Step 1). The boolean
    tells whether the loop goes on ([false] after [break]); [open_ok n] is
    the transport's answer to the [open] attempted at enumeration position
    [n]. *)
Definition connect_enumerated (open_ok : nat → bool) (e : DeviceIdentity)
  (st : PassState) : option (PassState * list Event * bool) :=
  let new_controller_index := ps_new_index st in
  match find_open_controller_index (ps_objects st) (ps_controllers st) e with
  | Some controller_index =>
      existingController ← array_read (ps_controllers st) controller_index;
      '(h1, ev) ←
        (if decide (new_controller_index ≠ controller_index) then
           p ← existingController;
           Some (on_object p (setPSMoveID (static_cast_int new_controller_index))
                   (ps_objects st),
                 [LogInfo_moved controller_index new_controller_index])
         else Some (ps_objects st, []));
      temp' ← array_write (ps_temp st) new_controller_index existingController;
      controllers' ← array_write (ps_controllers st) controller_index None;
      Some (mkPass controllers' temp' (S new_controller_index) h1, ev, true)
  | None =>
      match find_first_closed_controller_index (ps_objects st) (ps_controllers st) with
      | Some controller_index =>
          existingController ← array_read (ps_controllers st) controller_index;
          p ← existingController;
          let h1 := on_object p (setPSMoveID (static_cast_int new_controller_index))
                      (ps_objects st) in
          temp' ← array_write (ps_temp st) new_controller_index existingController;
          controllers' ← array_write (ps_controllers st) controller_index None;
          let '(c', opened) := open (open_ok new_controller_index) e (h1 p) in
          let h2 := <[p := c']> h1 in
          Some (mkPass controllers' temp' (S new_controller_index) h2,
                if opened then [LogInfo_connected controller_index] else [],
                true)
      | None => Some (st, [LogError_too_many], false)
      end
  end.

Fixpoint connect_all (open_ok : nat → bool) (enumerator : list DeviceIdentity)
  (st : PassState) : option (PassState * list Event) :=
  match enumerator with
  | [] => Some (st, [])
  | e :: rest =>
      '(st1, ev1, go_on) ← connect_enumerated open_ok e st;
      if go_on : bool then
        '(st2, ev2) ← connect_all open_ok rest st1;
        Some (st2, ev1 ++ ev2)
      else Some (st1, ev1)
  end.

(** One iteration of the loop over the old list (Step 2). *)
Definition retire_existing (existing_controller_index : nat) (st : PassState)
  : option (PassState * list Event) :=
  existingController ← array_read (ps_controllers st) existing_controller_index;
  match existingController with
  | Some p =>
      let '(h1, ev) :=
        if getIsOpen (ps_objects st p)
        then (on_object p close (ps_objects st),
              [LogWarning_closing existing_controller_index])
        else (ps_objects st, []) in
      let h2 := on_object p (setPSMoveID (static_cast_int (ps_new_index st))) h1 in
      temp' ← array_write (ps_temp st) (ps_new_index st) existingController;
      controllers' ← array_write (ps_controllers st) existing_controller_index None;
      Some (mkPass controllers' temp' (S (ps_new_index st)) h2, ev)
  | None => Some (st, [])
  end.

(** [update_connected_controllers]; [enumerator] is the snapshot the device
    enumerator walks through. Step 3 copies the temporary array, which has
    the size of [m_controllers], over it. *)
Definition update_connected_controllers (enumerator : list DeviceIdentity)
  (open_ok : nat → bool) (s : ControllerManagerImpl)
  : option (ControllerManagerImpl * list Event) :=
  let st0 := mkPass (m_controllers s) (replicate k_max_psmove_controllers None) 0
               (objects s) in
  '(st1, ev1) ← connect_all open_ok enumerator st0;
  '(st2, ev2) ← for_each retire_existing (seq 0 k_max_psmove_controllers) st1;
  Some (set_objects (ps_objects st2) (set_controllers (ps_temp st2) s), ev1 ++ ev2).

(** ** Scheduler *)

(** What one call of [update] receives from outside: the clock, the reads of
    the poll pass, the enumerator snapshot and the answers to [open]. *)
Record TickInput := mkTick {
  tick_now : ptime;
  tick_reads : nat → ReadInput;
  tick_enumerator : list DeviceIdentity;
  tick_open_ok : nat → bool }.

Definition poll_due (cfg : ControllerManagerConfig) (now : ptime) (s : ControllerManagerImpl) : Prop :=
  total_milliseconds (now - m_last_poll_time s) >= controller_poll_interval cfg.

Definition reconnect_due (cfg : ControllerManagerConfig) (now : ptime) (s : ControllerManagerImpl) : Prop :=
  total_milliseconds (now - m_last_reconnect_time s) >= controller_reconnect_interval cfg.

Definition update (inp : TickInput) (s : ControllerManagerImpl)
  : option (ControllerManagerImpl * list Event) :=
  cfg ← m_config s;
  let now := tick_now inp in
  '(s1, ev1) ←
    (if decide (poll_due cfg now s) then
       '(s', ev) ← poll_open_controllers (tick_reads inp) s;
       Some (set_last_poll_time now s', ev)
     else Some (s, []));
  '(s2, ev2) ←
    (if decide (reconnect_due cfg now s1) then
       '(s', ev) ← update_connected_controllers (tick_enumerator inp) (tick_open_ok inp) s1;
       Some (set_last_reconnect_time now s', ev)
     else Some (s1, []));
  Some (s2, ev1 ++ ev2).

(** [startup]: [cfg] is the configuration that [load] leaves in the new
    configuration object, and [hid_init_ok] tells whether [hid_init]
    answered something else than -1. *)
Definition startup (hid_init_ok : bool) (cfg : ControllerManagerConfig)
  (s : ControllerManagerImpl) : ControllerManagerImpl * list Event * bool :=
  let success := true in
  let s := mkManager (Some cfg) (m_controllers s) (m_sequence_number s)
             (m_last_reconnect_time s) (m_last_poll_time s) (objects s) in
  if hid_init_ok then (s, [], success)
  else (s, [LogError_hid_init], false).

Definition setControllerRumble (psmove_id rumble_amount : Z) (s : ControllerManagerImpl)
  : ControllerManagerImpl * bool := (s, false).

Definition resetPose (psmove_id : Z) (s : ControllerManagerImpl)
  : ControllerManagerImpl * bool := (s, false).

End Manager.

(** ** Shutdown *)

(** The body of the loop of [shutdown]: a session that is open is closed. *)
Definition close_if_open (controller_index : nat) (s : ControllerManagerImpl)
  : option (ControllerManagerImpl * list Event) :=
  slot ← array_read (m_controllers s) controller_index;
  controller ← slot;
  if getIsOpen (objects s controller)
  then Some (set_objects (on_object controller close (objects s)) s, [])
  else Some (s, []).

(** [shutdown]: the configuration is saved (which needs it to be there),
    the open controllers are closed, the transport is shut down. *)
Definition shutdown (k_max_psmove_controllers : nat) (s : ControllerManagerImpl)
  : option ControllerManagerImpl :=
  _ ← m_config s;
  fst <$> for_each close_if_open (seq 0 k_max_psmove_controllers) s.

(** ** The configuration and its property tree *)

(** A property tree as far as the configuration uses it: a list of keys,
    each with a leaf that is the text of an integer or some other text.
    [put] replaces the leaf of the first entry with the key or appends a
    new entry; [get<int>] with a default reads the first entry with the key
    and falls back on the default when there is none or its text is not an
    [int]. *)
Inductive ptree_leaf :=
  | LeafInt (z : Z)
  | LeafText (t : string).

Definition ptree := list (string * ptree_leaf).

Fixpoint ptree_put (key : string) (z : Z) (pt : ptree) : ptree :=
  match pt with
  | [] => [(key, LeafInt z)]
  | (k, v) :: rest =>
      if decide (k = key) then (k, LeafInt z) :: rest
      else (k, v) :: ptree_put key z rest
  end.

Fixpoint ptree_find (key : string) (pt : ptree) : option ptree_leaf :=
  match pt with
  | [] => None
  | (k, v) :: rest => if decide (k = key) then Some v else ptree_find key rest
  end.

Definition ptree_get_int (key : string) (default_value : Z) (pt : ptree) : Z :=
  match ptree_find key pt with
  | Some (LeafInt z) =>
      if decide (- 2 ^ 31 <= z < 2 ^ 31) then z else default_value
  | _ => default_value
  end.

(** The constructor of ControllerManagerConfig. *)
Definition ControllerManagerConfig_new : ControllerManagerConfig :=
  mkConfig k_default_controller_poll_interval k_default_controller_reconnect_interval.

Definition config2ptree (c : ControllerManagerConfig) : ptree :=
  let pt := [] in
  let pt := ptree_put "controller_poll_interval" (controller_poll_interval c) pt in
  let pt := ptree_put "controller_reconnect_interval" (controller_reconnect_interval c) pt in
  pt.

Definition ptree2config (pt : ptree) : ControllerManagerConfig :=
  mkConfig
    (ptree_get_int "controller_poll_interval" k_default_controller_poll_interval pt)
    (ptree_get_int "controller_reconnect_interval" k_default_controller_reconnect_interval pt).

(** ** The service that owns the manager *)

(** The three parts of PSMoveService, and what its [startup] does with
    them: the calls it makes and the failure lines it writes. *)
Inductive ServicePart := NetworkManager | RequestHandler | ControllerManagerPart.

Inductive ServiceEvent :=
  | Startup_called (part : ServicePart)
  | Cerr_failed (part : ServicePart).

(** One [if (success) { if (!part.startup()) {...} }] block; [starts part]
    is what the part's [startup] returns. *)
Definition startup_part (starts : ServicePart → bool) (part : ServicePart)
  (acc : bool * list ServiceEvent) : bool * list ServiceEvent :=
  let '(success, log) := acc in
  if success then
    if starts part then (true, log ++ [Startup_called part])
    else (false, log ++ [Startup_called part; Cerr_failed part])
  else (success, log).

Definition PSMoveService_startup (starts : ServicePart → bool) : bool * list ServiceEvent :=
  let acc := (true, []) in
  let acc := startup_part starts NetworkManager acc in
  let acc := startup_part starts RequestHandler acc in
  let acc := startup_part starts ControllerManagerPart acc in
  acc.

(** ** Notions used to state the properties *)

(** The objects a table points to, in slot order. *)
Definition pointers (l : list (option ptr)) : list ptr := omap id l.

(** The slot table as the constructor leaves it and every pass keeps it:
    [N] slots, none of them null, no object in two slots. *)
Definition pool_ok (N : nat) (s : ControllerManagerImpl) : Prop :=
  length (m_controllers s) = N ∧
  (∀ i, (i < N)%nat → ∃ p, m_controllers s !! i = Some (Some p)) ∧
  NoDup (m_controllers s).

(** Two manager states that cannot be told apart. *)
Definition state_eq (s1 s2 : ControllerManagerImpl) : Prop :=
  m_config s1 = m_config s2 ∧
  m_controllers s1 = m_controllers s2 ∧
  m_sequence_number s1 = m_sequence_number s2 ∧
  m_last_reconnect_time s1 = m_last_reconnect_time s2 ∧
  m_last_poll_time s1 = m_last_poll_time s2 ∧
  ∀ p, objects s1 p = objects s2 p.

(** The frames among the events, in publish order. *)
Definition frame_of (ev : Event) : option ControllerDataFrame :=
  match ev with Publish f => Some f | _ => None end.
Definition frames_of (evs : list Event) : list ControllerDataFrame := omap frame_of evs.

(** The life of the process: the host calls [update] again and again. *)
Fixpoint run (N : nat) (bits : ButtonType → Z) (inps : list TickInput)
  (s : ControllerManagerImpl) : option (ControllerManagerImpl * list Event) :=
  match inps with
  | [] => Some (s, [])
  | inp :: rest =>
      '(s1, ev1) ← update N bits inp s;
      '(s2, ev2) ← run N bits rest s1;
      Some (s2, ev1 ++ ev2)
  end.

(** [operator()] of PSMoveService, as far as the controller manager goes:
    after [startup], which reaches the manager's [startup] when the two
    parts before it have started, [update] is called once for each turn of
    the loop if the start succeeded, and [shutdown] is called in either
    case. [cfg] is the configuration the manager loads and [inps] holds
    what each turn of the loop receives. *)
Definition PSMoveService_call (N : nat) (bits : ButtonType → Z)
  (starts : ServicePart → bool) (cfg : ControllerManagerConfig)
  (inps : list TickInput) (s : ControllerManagerImpl) : option ControllerManagerImpl :=
  let s1 := if starts NetworkManager && starts RequestHandler
            then (startup (starts ControllerManagerPart) cfg s).1.1 else s in
  s2 ← (if (PSMoveService_startup starts).1
        then fst <$> run N bits inps s1
        else Some s1);
  shutdown N s2.

(** The variables of the hot-plug pass when it starts on [s]. *)
Definition pass_start (N : nat) (s : ControllerManagerImpl) : PassState :=
  mkPass (m_controllers s) (replicate N None) 0 (objects s).

(** What the hot-plug pass keeps true of its variables: [moved] lists the
    objects already placed in the temporary array, which fill its first
    positions in that order; together with those still in the old list they
    are the objects [pool] the pass started with. *)
Definition pass_inv (N : nat) (pool moved : list ptr) (st : PassState) : Prop :=
  length (ps_controllers st) = N ∧
  ps_temp st = (Some <$> moved) ++ replicate (N - length moved) None ∧
  ps_new_index st = length moved ∧
  moved ++ pointers (ps_controllers st) ≡ₚ pool ∧
  (length pool ≤ N)%nat.

(** A session is open and bound to [e]. *)
Definition bound_to (c : PSMoveController) (e : DeviceIdentity) : Prop :=
  IsOpen c = true ∧ bound_identity c = Some e.

(** Slot [i] of [s] holds an open session bound to [e]. *)
Definition open_at (s : ControllerManagerImpl) (i : nat) (p : ptr) (e : DeviceIdentity) : Prop :=
  m_controllers s !! i = Some (Some p) ∧ bound_to (objects s p) e.

(** What a slot looks like once the table agrees with the snapshot [es]:
    the session at an enumerated position is open on the identity at that
    position, a session past the snapshot is closed and carries its
    position as id. *)
Definition settled_slot (es : list DeviceIdentity) (j : nat) (c : PSMoveController) : Prop :=
  match es !! j with
  | Some e => bound_to c e
  | None => IsOpen c = false ∧ PSMoveID c = static_cast_int j
  end.

Definition settled (N : nat) (es : list DeviceIdentity) (s : ControllerManagerImpl) : Prop :=
  length (m_controllers s) = N ∧ (length es ≤ N)%nat ∧
  ∀ j, (j < N)%nat → ∃ p, m_controllers s !! j = Some (Some p) ∧ settled_slot es j (objects s p).

(** The reassignment lines that concern the session that was in slot [i]. *)
Definition is_moved_from (i : nat) (ev : Event) : bool :=
  match ev with LogInfo_moved i' _ => bool_decide (i' = i) | _ => false end.

(** The hot-plug pass may change a session's id and its open/closed
    binding; the decoded pose and state are not its business. *)
Definition same_readings (h h' : ptr → PSMoveController) : Prop :=
  ∀ p, Pose (h' p) = Pose (h p) ∧ State (h' p) = State (h p).

(** On a table [m] with objects [h] that agrees with the snapshot: Step 1
    [k] identities, when the first [k] slots have gone over to the
    temporary array, position for position, and nothing else has moved. *)
Definition settled_step1 (N : nat) (m : list (option ptr)) (h : ptr → PSMoveController)
  (k : nat) (st : PassState) : Prop :=
  ps_new_index st = k ∧ ps_objects st = h ∧
  length (ps_controllers st) = N ∧ length (ps_temp st) = N ∧
  (∀ j, (j < k)%nat → ps_controllers st !! j = Some None ∧ ps_temp st !! j = m !! j) ∧
  (∀ j, (k ≤ j)%nat → ps_controllers st !! j = m !! j).

(** On the same table: Step 2 before slot [i], where the closed sessions past the snapshot are
    copied to their own positions and keep the id they had. *)
Definition settled_step2 (N : nat) (es : list DeviceIdentity) (m : list (option ptr))
  (h : ptr → PSMoveController) (i : nat) (st : PassState) (evs : list Event) : Prop :=
  evs = [] ∧ (∀ q, ps_objects st q = h q) ∧
  length (ps_controllers st) = N ∧ length (ps_temp st) = N ∧
  ps_new_index st = (length es `max` i)%nat ∧
  (∀ j, (j < length es `max` i)%nat → ps_temp st !! j = m !! j) ∧
  (∀ j, (j < length es)%nat → ps_controllers st !! j = Some None) ∧
  (∀ j, (length es ≤ j)%nat → (i ≤ j)%nat → ps_controllers st !! j = m !! j).

(** Every session carries the position of its slot as id. *)
Definition ids_ok (s : ControllerManagerImpl) : Prop :=
  ∀ i p, m_controllers s !! i = Some (Some p) → PSMoveID (objects s p) = Z.of_nat i.

(** An open session is bound to an identity. *)
Definition sessions_ok (s : ControllerManagerImpl) : Prop :=
  ∀ i p, m_controllers s !! i = Some (Some p) → IsOpen (objects s p) = true →
         is_Some (bound_identity (objects s p)).

(** At most one session is open on a given identity. *)
Definition identities_unique (s : ControllerManagerImpl) : Prop :=
  ∀ i i' p p' e, open_at s i p e → open_at s i' p' e → i = i'.

(** The snapshot lists, each once and in any order, exactly the identities
    the open sessions are bound to. *)
Definition reordering (s : ControllerManagerImpl) (es : list DeviceIdentity) : Prop :=
  NoDup es ∧ ∀ e, e ∈ es ↔ ∃ i p, open_at s i p e.

(** Step 1 of a pass over a reordering, after [k] identities: the sessions
    of those identities have been placed, each at the position of its
    identity and with that position as id; every session is as open and as
    bound as before; the others are still in the old list; and the lines
    written are the reassignments of the sessions that changed position. *)
Definition reorder_step1 (s : ControllerManagerImpl) (es : list DeviceIdentity)
  (k : nat) (moved : list ptr) (st : PassState) (evs : list Event) : Prop :=
  length moved = k ∧
  (∀ q, IsOpen (ps_objects st q) = IsOpen (objects s q) ∧
        bound_identity (ps_objects st q) = bound_identity (objects s q)) ∧
  (∀ q, q ∉ moved → ps_objects st q = objects s q) ∧
  (∀ j q, ps_controllers st !! j = Some (Some q) → m_controllers s !! j = Some (Some q)) ∧
  (∀ i p e, open_at s i p e → (∀ j, (j < k)%nat → es !! j ≠ Some e) →
            ps_controllers st !! i = Some (Some p)) ∧
  (∀ j q, moved !! j = Some q →
          ∃ i e, es !! j = Some e ∧ open_at s i q e ∧
                 PSMoveID (ps_objects st q) = Z.of_nat j) ∧
  (∀ i p e j, open_at s i p e → es !! j = Some e →
     filter (λ ev, is_moved_from i ev = true) evs =
     if decide (j < k)%nat
     then (if decide (i = j) then [] else [LogInfo_moved i j])
     else []) ∧
  Forall (λ ev, ∃ i j, ev = LogInfo_moved i j) evs.

(** What a pure reordering assumes of the table it meets. *)
Definition reorder_hyps (N : nat) (s : ControllerManagerImpl) (es : list DeviceIdentity) : Prop :=
  pool_ok N s ∧ Z.of_nat N <= 2 ^ 31 ∧ ids_ok s ∧ sessions_ok s ∧
  identities_unique s ∧ reordering s es.

(** The sequence numbers of the frames among the events, and the numbers
    a counter of type [int] that starts at [n] hands out. *)
Definition stamps (evs : list Event) : list Z := sequence_num <$> frames_of evs.
Definition counting (n : Z) (len : nat) : list Z :=
  (λ k, int_wrap (n + Z.of_nat k)) <$> seq 0 len.

(** The frames among [evs] are numbered from [n] on and the counter of
    [s'] stands right after them. *)
Definition counts (n : Z) (evs : list Event) (s' : ControllerManagerImpl) : Prop :=
  stamps evs = counting n (length (frames_of evs)) ∧
  m_sequence_number s' = int_wrap (n + Z.of_nat (length (frames_of evs))).

(** The poll pass leaves the table, the configuration and the timestamps
    alone. *)
Definition same_table (s s' : ControllerManagerImpl) : Prop :=
  m_controllers s' = m_controllers s ∧ m_config s' = m_config s ∧
  m_last_reconnect_time s' = m_last_reconnect_time s ∧
  m_last_poll_time s' = m_last_poll_time s.

(** ** Concrete tables and runs *)

(** Bits for the buttons, in the order of the enumeration. *)
Definition example_bits (b : ButtonType) : Z :=
  match b with
  | TRIANGLE => 0 | CIRCLE => 1 | CROSS => 2 | SQUARE => 3
  | SELECT => 4 | START => 5 | PS_BUTTON => 6 | MOVE => 7
  end.

Definition default_config : ControllerManagerConfig :=
  mkConfig k_default_controller_poll_interval k_default_controller_reconnect_interval.

(** A manager of [N] controllers after [startup] with the default
    configuration. *)
Definition started (N : nat) : ControllerManagerImpl :=
  (startup true default_config (ControllerManagerImpl_new N)).1.1.

Definition triangle_down : PSMoveState :=
  mkState Button_DOWN Button_UP Button_UP Button_UP Button_UP Button_UP Button_UP
    Button_UP 0.

Definition some_pose : psmovePosef := mkPose 1 0 0 0 0 0 0.

Definition always (b : bool) : nat → bool := λ _, b.

(** A session with id [id], open on [e]. *)
Definition session_on (id : Z) (e : DeviceIdentity) : PSMoveController :=
  mkController id true (Some e) (mkPose 0 0 0 0 0 0 0)
    (mkState Button_UP Button_UP Button_UP Button_UP Button_UP Button_UP Button_UP
       Button_UP 0).

(** Two controllers, open on A in slot 0 and on B in slot 1. *)
Definition two_open : ControllerManagerImpl :=
  mkManager (Some default_config) [Some 0%nat; Some 1%nat] 0 0 0
    (λ p, match p with
          | O => session_on 0 "A"
          | S O => session_on 1 "B"
          | _ => initial_objects p
          end).

(** The first call of [update], one second after the zero timestamps: both
    passes are due and the device A is attached. *)
Definition first_tick : TickInput :=
  mkTick 1000000 (λ _, InNoData) ["A"] (always true).

(** A call of [update] at time [t] that finds A attached and new data to
    read. *)
Definition poll_tick (t : ptime) : TickInput :=
  mkTick t (λ _, InNewData some_pose triangle_down) ["A"] (always true).

(** [n] such calls, two milliseconds apart, after time [t]. *)
Fixpoint poll_ticks (t : ptime) (n : nat) : list TickInput :=
  match n with
  | O => []
  | S n' => poll_tick (t + 2000) :: poll_ticks (t + 2000) n'
  end.

(** A manager of one controller that polls A: the session in slot 0 is
    open on A and the last poll pass was at [t]. *)
Definition polling (t : ptime) (s : ControllerManagerImpl) : Prop :=
  m_config s = Some default_config ∧ m_controllers s = [Some 0%nat] ∧
  m_last_poll_time s = t ∧ bound_to (objects s 0%nat) "A".

(** The transport opens the device at position 0 and no other. *)
Definition only_first : nat → bool := λ n, bool_decide (n = 0%nat).

(** Step 1 on two fresh controllers after the identity A. *)
Definition after_A : PassState :=
  match connect_all only_first ["A"] (pass_start 2 (ControllerManagerImpl_new 2)) with
  | Some (st, _) => st
  | None => pass_start 2 (ControllerManagerImpl_new 2)
  end.





(** ** Notions for the further properties *)

(** The state of one button. *)
Definition button_state (st : PSMoveState) (b : ButtonType) : ButtonState :=
  match b with
  | TRIANGLE => Triangle st | CIRCLE => Circle st | CROSS => Cross st
  | SQUARE => Square st | SELECT => Select st | START => Start st
  | PS_BUTTON => PS st | MOVE => Move st
  end.

(** The two raw states that count as the button being held down. *)
Definition is_down (b : ButtonState) : bool :=
  match b with Button_DOWN | Button_PRESSED => true | _ => false end.

Definition all_buttons : list ButtonType :=
  [TRIANGLE; CIRCLE; CROSS; SQUARE; SELECT; START; PS_BUTTON; MOVE].

(** What a poll pass does to the session of a slot whose read brings
    [inp]. *)
Definition polled (inp : ReadInput) (c : PSMoveController) : PSMoveController :=
  if IsOpen c then
    match inp with
    | InNoData => c
    | InNewData pose st => mkController (PSMoveID c) true (bound_identity c) pose st
    | InFailure => close c
    end
  else c.

(** What a frame carries besides its sequence number. *)
Definition frame_payload (f : ControllerDataFrame) :=
  (psmove_id f, isconnected f, iscurrentlytracking f, istrackingenabled f,
   orientation f, position f, button_down_bitmask f, trigger_value f).

(** What the poll pass publishes for slot [i]: nothing unless the session
    is open and its read brings new data. *)
Definition slot_payload (s : ControllerManagerImpl) (reads : nat → ReadInput) (i : nat) :=
  match m_controllers s !! i with
  | Some (Some p) =>
      if IsOpen (objects s p) then
        match reads i with
        | InNewData pose st =>
            Some (PSMoveID (objects s p), true, false, true,
                  (qw pose, qx pose, qy pose, qz pose), (px pose, py pose, pz pose),
                  0, Trigger st)
        | _ => None
        end
      else None
  | _ => None
  end.

(** Every session carries the position of its slot, as an [int], as id. *)
Definition ids_cast_ok (s : ControllerManagerImpl) : Prop :=
  ∀ i p, m_controllers s !! i = Some (Some p) → PSMoveID (objects s p) = static_cast_int i.

(** Every open session sits at the position of the identity it is bound
    to in [es]. *)
Definition open_in_place (es : list DeviceIdentity) (s : ControllerManagerImpl) : Prop :=
  ∀ j p, m_controllers s !! j = Some (Some p) → IsOpen (objects s p) = true →
         ∃ e, es !! j = Some e ∧ bound_identity (objects s p) = Some e.

(** The line the hot-plug pass writes when it closes the session of slot
    [i], if that session is open. *)
Definition closing_line (s : ControllerManagerImpl) (i : nat) : option Event :=
  match m_controllers s !! i with
  | Some (Some p) => if IsOpen (objects s p) then Some (LogWarning_closing i) else None
  | _ => None
  end.

(** The line the hot-plug pass writes when it opens a session for
    position [j]. *)
Definition connected_line (open_ok : nat → bool) (j : nat) : option Event :=
  if open_ok j then Some (LogInfo_connected j) else None.

(** What a session looks like in the slot [j] a pass has given it: it
    carries [j] as id and, if it is open, it is bound to the identity at
    position [j] of the snapshot. *)
Definition in_place (es : list DeviceIdentity) (j : nat) (c : PSMoveController) : Prop :=
  PSMoveID c = static_cast_int j ∧
  (IsOpen c = true → ∃ e, es !! j = Some e ∧ bound_identity c = Some e).

(** During a pass on [s]: the placed sessions are in place, the objects
    not placed yet are as the pass found them, and what is left in the old
    list is where it was. *)
Definition placed (es : list DeviceIdentity) (s : ControllerManagerImpl)
  (moved : list ptr) (st : PassState) : Prop :=
  (∀ j q, moved !! j = Some q → in_place es j (ps_objects st q)) ∧
  (∀ q, q ∉ moved → ps_objects st q = objects s q) ∧
  (∀ j q, ps_controllers st !! j = Some (Some q) → m_controllers s !! j = Some (Some q)).

(** No session of the table is open: the table after the constructor, or
    after every device was unplugged. *)
Definition all_closed (s : ControllerManagerImpl) : Prop :=
  ∀ i p, m_controllers s !! i = Some (Some p) → IsOpen (objects s p) = false.

(** What a pass on a table of closed sessions makes of the session [c] of
    slot [j]: it gets [j] as id, and the device at position [j] of the
    snapshot, if there is one, is opened on it. *)
Definition first_session (es : list DeviceIdentity) (open_ok : nat → bool) (j : nat)
  (c : PSMoveController) : PSMoveController :=
  match es !! j with
  | Some e => (open (open_ok j) e (setPSMoveID (static_cast_int j) c)).1
  | None => setPSMoveID (static_cast_int j) c
  end.

(** During a pass on [s] that takes the sessions in slot order: the first
    [i] slots have been moved to the same positions of the temporary array,
    their sessions changed by [F], and the rest is as the pass found it. *)
Definition in_order (N : nat) (s : ControllerManagerImpl) (ps : list ptr)
  (F : nat → PSMoveController → PSMoveController) (i : nat) (st : PassState) : Prop :=
  pass_inv N ps (take i ps) st ∧
  ps_controllers st = replicate i None ++ drop i (m_controllers s) ∧
  (∀ j p, (j < i)%nat → ps !! j = Some p → ps_objects st p = F j (objects s p)) ∧
  (∀ q, q ∉ take i ps → ps_objects st q = objects s q).

(** * Properties *)

(** ** Machine integers *)

Lemma int_wrap_small z : - 2 ^ 31 <= z < 2 ^ 31 → int_wrap z = z.
Proof. intros H. unfold int_wrap. rewrite Z.mod_small; lia. Qed.

Lemma int_wrap_range z : - 2 ^ 31 <= int_wrap z < 2 ^ 31.
Proof. unfold int_wrap. pose proof (Z.mod_pos_bound (z + 2 ^ 31) (2 ^ 32)). lia. Qed.

Lemma int_wrap_succ z : int_wrap (int_wrap z + 1) = int_wrap (z + 1).
Proof.
  unfold int_wrap.
  replace ((z + 2 ^ 31) mod 2 ^ 32 - 2 ^ 31 + 1 + 2 ^ 31)
    with ((z + 2 ^ 31) mod 2 ^ 32 + 1) by lia.
  replace (z + 1 + 2 ^ 31) with ((z + 2 ^ 31) + 1) by lia.
  by rewrite Zplus_mod_idemp_l.
Qed.

Lemma static_cast_int_small (n : nat) : Z.of_nat n < 2 ^ 31 → static_cast_int n = Z.of_nat n.
Proof. intros H. apply int_wrap_small. lia. Qed.

(** ** Loops *)

Lemma for_each_app {St} (body : nat → St → option (St * list Event)) l1 l2 s :
  for_each body (l1 ++ l2) s =
  '(s1, ev1) ← for_each body l1 s;
  '(s2, ev2) ← for_each body l2 s1;
  Some (s2, ev1 ++ ev2).
Proof.
  revert s. induction l1 as [|i l1 IH]; intros s; simpl.
  - destruct (for_each body l2 s) as [[??]|]; done.
  - destruct (body i s) as [[s1 ev1]|]; [simpl|done].
    rewrite IH. destruct (for_each body l1 s1) as [[s2 ev2]|]; [simpl|done].
    destruct (for_each body l2 s2) as [[s3 ev3]|]; [simpl|done].
    by rewrite (assoc (++)).
Qed.

(** A loop over [a, a+n) whose body never fails while [I] holds runs to its
    end and establishes [I] there; [I] sees the loop variable, the state and
    the lines written so far. *)
Lemma for_each_seq_inv {St} (body : nat → St → option (St * list Event))
  (I : nat → St → list Event → Prop) n a s :
  I a s [] →
  (∀ i s evs, (a ≤ i < a + n)%nat → I i s evs →
     ∃ s' ev, body i s = Some (s', ev) ∧ I (S i) s' (evs ++ ev)) →
  ∃ s' evs, for_each body (seq a n) s = Some (s', evs) ∧ I (a + n)%nat s' evs.
Proof.
  intros HI Hstep.
  assert (∀ n a s evs0, I a s evs0 →
    (∀ i s evs, (a ≤ i < a + n)%nat → I i s evs →
       ∃ s' ev, body i s = Some (s', ev) ∧ I (S i) s' (evs ++ ev)) →
    ∃ s' evs, for_each body (seq a n) s = Some (s', evs) ∧ I (a + n)%nat s' (evs0 ++ evs))
    as Hgen.
  { clear. induction n as [|n IH]; intros a s evs0 HI Hstep; simpl.
    - exists s, []. rewrite Nat.add_0_r, app_nil_r. done.
    - destruct (Hstep a s evs0) as (s1 & ev1 & Hb & HI1); [lia|done|].
      rewrite Hb. simpl.
      destruct (IH (S a) s1 (evs0 ++ ev1)) as (s2 & ev2 & Hl & HI2); [done| |].
      { intros i s' evs Hi. apply Hstep. lia. }
      rewrite Hl. simpl. exists s2, (ev1 ++ ev2). split; [done|].
      rewrite (assoc (++)). replace (a + S n)%nat with (S a + n)%nat by lia.
      done. }
  destruct (Hgen n a s [] HI Hstep) as (s' & evs & ? & ?). eauto.
Qed.

(** ** Pointers in the two arrays *)

Lemma pointers_fmap_Some (ps : list ptr) : pointers (Some <$> ps) = ps.
Proof. unfold pointers. induction ps as [|p ps IH]; [done|]. rewrite fmap_cons. simpl. by f_equal. Qed.

Lemma pointers_replicate_None n : pointers (replicate n None) = [].
Proof. unfold pointers. induction n; simpl; done. Qed.

Lemma pointers_app l1 l2 : pointers (l1 ++ l2) = pointers l1 ++ pointers l2.
Proof. apply omap_app. Qed.

Lemma pointers_length_le (l : list (option ptr)) : (length (pointers l) ≤ length l)%nat.
Proof. unfold pointers. induction l as [|[p|] l IH]; cbn; lia. Qed.

Lemma elem_of_pointers (l : list (option ptr)) p : p ∈ pointers l ↔ Some p ∈ l.
Proof.
  unfold pointers. rewrite list_elem_of_omap. split.
  - intros ([q|] & Hin & Heq); simplify_eq/=. done.
  - intros Hin. exists (Some p). done.
Qed.

(** Taking an object out of a slot removes it, and only it, from the
    objects of the array. *)
Lemma pointers_take_out (l : list (option ptr)) ci p :
  l !! ci = Some (Some p) → pointers l ≡ₚ p :: pointers (<[ci := None]> l).
Proof.
  intros Hl. pose proof (lookup_lt_Some _ _ _ Hl) as Hlt.
  rewrite <- (take_drop_middle l ci (Some p)) at 1 by done.
  rewrite insert_take_drop by done.
  rewrite !pointers_app. unfold pointers at 2 4. simpl.
  by rewrite <- Permutation_middle.
Qed.

Lemma temp_write_next N (moved : list ptr) p :
  (length moved < N)%nat →
  <[length moved := Some p]> ((Some <$> moved) ++ replicate (N - length moved) None)
  = (Some <$> (moved ++ [p])) ++ replicate (N - length (moved ++ [p])) None.
Proof.
  intros Hlt.
  rewrite insert_app_r_alt by (rewrite length_fmap; lia).
  rewrite length_fmap, Nat.sub_diag.
  destruct (N - length moved)%nat as [|k] eqn:Hk; [lia|]. simpl.
  rewrite fmap_app, <- (assoc (++)). simpl.
  rewrite length_app. simpl. do 3 f_equal. lia.
Qed.

Lemma array_write_Some {A} (l : list A) i v :
  (i < length l)%nat → array_write l i v = Some (<[i := v]> l).
Proof. intros H. unfold array_write. by rewrite decide_True. Qed.

Lemma pass_inv_start N s :
  length (m_controllers s) = N →
  pass_inv N (pointers (m_controllers s)) [] (pass_start N s).
Proof.
  intros Hlen. unfold pass_inv, pass_start. simpl.
  repeat split; [done|by rewrite Nat.sub_0_r|done|].
  rewrite <- Hlen. apply pointers_length_le.
Qed.

(** While an object is left in the old list, the temporary array has room. *)
Lemma pass_inv_room N pool moved st ci p :
  pass_inv N pool moved st →
  ps_controllers st !! ci = Some (Some p) →
  (length moved < N)%nat.
Proof.
  intros (Hlen & Htemp & Hnew & Hperm & Hpool) Hci.
  apply Permutation_length in Hperm.
  pose proof (Permutation_length (pointers_take_out _ _ _ Hci)) as Hone.
  rewrite length_app in Hperm. simpl in Hone. lia.
Qed.

(** Moving the object of slot [ci] to the next free position. *)
Lemma pass_inv_move N pool moved st ci p h' :
  pass_inv N pool moved st →
  ps_controllers st !! ci = Some (Some p) →
  pass_inv N pool (moved ++ [p])
    (mkPass (<[ci := None]> (ps_controllers st))
            (<[ps_new_index st := Some p]> (ps_temp st))
            (S (ps_new_index st)) h').
Proof.
  intros Hinv Hci. pose proof (pass_inv_room _ _ _ _ _ _ Hinv Hci) as Hroom.
  destruct Hinv as (Hlen & Htemp & Hnew & Hperm & Hpool).
  unfold pass_inv. simpl. repeat split.
  - by rewrite length_insert.
  - rewrite Htemp, Hnew. by apply temp_write_next.
  - rewrite length_app, Hnew. simpl. lia.
  - rewrite <- Hperm, (pointers_take_out _ _ _ Hci), <- (assoc (++)). done.
  - done.
Qed.

Lemma pass_inv_temp_length N pool moved st :
  pass_inv N pool moved st → (length moved ≤ N)%nat → length (ps_temp st) = N.
Proof.
  intros (Hlen & Htemp & Hnew & Hperm & Hpool) Hle.
  rewrite Htemp, length_app, length_fmap, length_replicate. lia.
Qed.

Lemma pass_inv_moved_le N pool moved st :
  pass_inv N pool moved st → (length moved ≤ N)%nat.
Proof.
  intros (Hlen & Htemp & Hnew & Hperm & Hpool).
  apply Permutation_length in Hperm. rewrite length_app in Hperm. lia.
Qed.

(** ** The searches *)

Lemma find_open_controller_index_Some h l e ci :
  find_open_controller_index h l e = Some ci ↔
  ∃ p, l !! ci = Some (Some p) ∧ bound_to (h p) e ∧
       ∀ j q, (j < ci)%nat → l !! j = Some (Some q) → ¬ bound_to (h q) e.
Proof.
  unfold find_open_controller_index, bound_to.
  assert (∀ c, is_open_match h e c = true ↔
               ∃ p, c = Some p ∧ IsOpen (h p) = true ∧ bound_identity (h p) = Some e) as Hm.
  { intros [p|]; simpl.
    - unfold getIsOpen, matchesDeviceEnumerator.
      rewrite andb_true_iff, bool_decide_eq_true.
      split; [intros [??]; eauto|intros (q & [= <-] & ? & ?); done].
    - split; [done|intros (? & ? & _); done]. }
  split.
  - intros Hf. destruct (list_find _ l) as [[i c]|] eqn:Hlf; simplify_eq/=.
    apply list_find_Some in Hlf as (Hl & Hc & Hfirst).
    apply Hm in Hc as (p & -> & Ho & Hb). exists p. split; [done|]. split; [done|].
    intros j q Hj Hq Hbq. apply (Hfirst j (Some q)); [done..|].
    apply Hm. exists q. by destruct Hbq.
  - intros (p & Hl & Hb & Hfirst).
    assert (list_find (λ c, is_open_match h e c = true) l = Some (ci, Some p)) as ->; [|done].
    apply list_find_Some. split; [done|]. split; [apply Hm; exists p; by destruct Hb|].
    intros j [q|] Hq Hj Hc; apply Hm in Hc as (q' & ? & ?); simplify_eq.
    by apply (Hfirst j q').
Qed.

Lemma find_open_controller_index_None h l e :
  find_open_controller_index h l e = None ↔
  ∀ j q, l !! j = Some (Some q) → ¬ bound_to (h q) e.
Proof.
  unfold find_open_controller_index, bound_to. rewrite fmap_None, list_find_None, Forall_lookup.
  split.
  - intros H j q Hq [Ho Hb]. apply (H j _ Hq). simpl.
    unfold getIsOpen, matchesDeviceEnumerator. rewrite Ho. simpl. by apply bool_decide_eq_true.
  - intros H j [q|] Hq; simpl; [|done].
    unfold getIsOpen, matchesDeviceEnumerator.
    rewrite andb_true_iff, bool_decide_eq_true. intros [??]. by apply (H j q).
Qed.

Lemma find_first_closed_controller_index_Some h l ci :
  find_first_closed_controller_index h l = Some ci ↔
  ∃ p, l !! ci = Some (Some p) ∧ IsOpen (h p) = false ∧
       ∀ j q, (j < ci)%nat → l !! j = Some (Some q) → IsOpen (h q) = true.
Proof.
  unfold find_first_closed_controller_index.
  split.
  - intros Hf. destruct (list_find _ l) as [[i c]|] eqn:Hlf; simplify_eq/=.
    apply list_find_Some in Hlf as (Hl & Hc & Hfirst).
    destruct c as [p|]; simpl in Hc; [|done]. exists p. split; [done|].
    unfold getIsOpen in Hc. split; [by destruct (IsOpen (h p))|].
    intros j q Hj Hq. specialize (Hfirst j (Some q) Hq Hj). simpl in Hfirst.
    unfold getIsOpen in Hfirst. by destruct (IsOpen (h q)).
  - intros (p & Hl & Hb & Hfirst).
    assert (list_find (λ c, is_closed h c = true) l = Some (ci, Some p)) as ->; [|done].
    apply list_find_Some. split; [done|]. split; [simpl; unfold getIsOpen; by rewrite Hb|].
    intros j [q|] Hq Hj; simpl; [|done]. unfold getIsOpen. by rewrite (Hfirst j q).
Qed.

Lemma find_first_closed_controller_index_None h l :
  find_first_closed_controller_index h l = None ↔
  ∀ j q, l !! j = Some (Some q) → IsOpen (h q) = true.
Proof.
  unfold find_first_closed_controller_index. rewrite fmap_None, list_find_None, Forall_lookup.
  split.
  - intros H j q Hq. specialize (H j _ Hq). simpl in H. unfold getIsOpen in H.
    by destruct (IsOpen (h q)).
  - intros H j [q|] Hq; simpl; [|done]. unfold getIsOpen. by rewrite (H j q).
Qed.

(** ** One step of the hot-plug pass *)

Lemma open_eq ok e c :
  open ok e c =
  (if ok then mkController (PSMoveID c) true (Some e) (Pose c) (State c) else c, ok).
Proof. unfold open. by destruct ok. Qed.

(** The enumerated identity belongs to an open session. *)
Lemma connect_enumerated_existing N pool moved st open_ok e ci :
  pass_inv N pool moved st →
  find_open_controller_index (ps_objects st) (ps_controllers st) e = Some ci →
  ∃ p, ps_controllers st !! ci = Some (Some p) ∧ bound_to (ps_objects st p) e ∧
    connect_enumerated open_ok e st =
    Some (mkPass (<[ci := None]> (ps_controllers st))
            (<[ps_new_index st := Some p]> (ps_temp st))
            (S (ps_new_index st))
            (if decide (ps_new_index st ≠ ci)
             then on_object p (setPSMoveID (static_cast_int (ps_new_index st))) (ps_objects st)
             else ps_objects st),
          if decide (ps_new_index st ≠ ci) then [LogInfo_moved ci (ps_new_index st)] else [],
          true).
Proof.
  intros Hinv Hfind.
  pose proof Hfind as Hf. apply find_open_controller_index_Some in Hf as (p & Hci & Hb & _).
  exists p. split; [done|]. split; [done|].
  pose proof (pass_inv_room _ _ _ _ _ _ Hinv Hci) as Hroom.
  pose proof (pass_inv_temp_length _ _ _ _ Hinv (pass_inv_moved_le _ _ _ _ Hinv)) as Htl.
  pose proof (lookup_lt_Some _ _ _ Hci) as Hlt.
  destruct Hinv as (Hlen & Htemp & Hnew & Hperm & Hpool).
  unfold connect_enumerated. rewrite Hfind. unfold array_read. rewrite Hci. simpl.
  rewrite !array_write_Some by lia.
  destruct (decide (ps_new_index st ≠ ci)); simpl; done.
Qed.

(** The enumerated identity is new and a closed session is left. *)
Lemma connect_enumerated_new N pool moved st open_ok e ci :
  pass_inv N pool moved st →
  find_open_controller_index (ps_objects st) (ps_controllers st) e = None →
  find_first_closed_controller_index (ps_objects st) (ps_controllers st) = Some ci →
  ∃ p, ps_controllers st !! ci = Some (Some p) ∧ IsOpen (ps_objects st p) = false ∧
    let h1 := on_object p (setPSMoveID (static_cast_int (ps_new_index st))) (ps_objects st) in
    connect_enumerated open_ok e st =
    Some (mkPass (<[ci := None]> (ps_controllers st))
            (<[ps_new_index st := Some p]> (ps_temp st))
            (S (ps_new_index st))
            (<[p := (open (open_ok (ps_new_index st)) e (h1 p)).1]> h1),
          if open_ok (ps_new_index st) then [LogInfo_connected ci] else [],
          true).
Proof.
  intros Hinv Hnone Hfind.
  pose proof Hfind as Hf.
  apply find_first_closed_controller_index_Some in Hf as (p & Hci & Hb & _).
  exists p. split; [done|]. split; [done|].
  pose proof (pass_inv_room _ _ _ _ _ _ Hinv Hci) as Hroom.
  pose proof (pass_inv_temp_length _ _ _ _ Hinv (pass_inv_moved_le _ _ _ _ Hinv)) as Htl.
  pose proof (lookup_lt_Some _ _ _ Hci) as Hlt.
  destruct Hinv as (Hlen & Htemp & Hnew & Hperm & Hpool).
  unfold connect_enumerated. rewrite Hnone, Hfind. unfold array_read. rewrite Hci. simpl.
  rewrite !array_write_Some by lia. simpl.
  rewrite open_eq. done.
Qed.

(** The enumerated identity is new and no closed session is left. *)
Lemma connect_enumerated_full st open_ok e :
  find_open_controller_index (ps_objects st) (ps_controllers st) e = None →
  find_first_closed_controller_index (ps_objects st) (ps_controllers st) = None →
  connect_enumerated open_ok e st = Some (st, [LogError_too_many], false).
Proof. intros H1 H2. unfold connect_enumerated. by rewrite H1, H2. Qed.

Lemma retire_existing_Some N pool moved st i p :
  pass_inv N pool moved st →
  ps_controllers st !! i = Some (Some p) →
  retire_existing i st =
  Some (mkPass (<[i := None]> (ps_controllers st))
          (<[ps_new_index st := Some p]> (ps_temp st))
          (S (ps_new_index st))
          (on_object p (setPSMoveID (static_cast_int (ps_new_index st)))
             (if IsOpen (ps_objects st p) then on_object p close (ps_objects st)
              else ps_objects st)),
        if IsOpen (ps_objects st p) then [LogWarning_closing i] else []).
Proof.
  intros Hinv Hci.
  pose proof (pass_inv_room _ _ _ _ _ _ Hinv Hci) as Hroom.
  pose proof (pass_inv_temp_length _ _ _ _ Hinv (pass_inv_moved_le _ _ _ _ Hinv)) as Htl.
  pose proof (lookup_lt_Some _ _ _ Hci) as Hlt.
  destruct Hinv as (Hlen & Htemp & Hnew & Hperm & Hpool).
  unfold retire_existing, array_read. rewrite Hci. simpl. unfold getIsOpen.
  destruct (IsOpen (ps_objects st p)); rewrite !array_write_Some by lia; done.
Qed.

Lemma retire_existing_None st i :
  ps_controllers st !! i = Some None → retire_existing i st = Some (st, []).
Proof. intros Hci. unfold retire_existing, array_read. by rewrite Hci. Qed.

(** ** What the pass does to the objects *)

Lemma on_object_eq p f h : on_object p f h p = f (h p).
Proof. unfold on_object. apply fn_lookup_insert. Qed.

Lemma on_object_ne p q f h : p ≠ q → on_object p f h q = h q.
Proof. intros Hne. unfold on_object. by apply fn_lookup_insert_ne. Qed.

Lemma same_readings_refl h : same_readings h h.
Proof. by intros p. Qed.

Lemma same_readings_trans h1 h2 h3 :
  same_readings h1 h2 → same_readings h2 h3 → same_readings h1 h3.
Proof.
  intros H12 H23 p. destruct (H12 p) as [? ?], (H23 p) as [? ?]. split; congruence.
Qed.

Lemma same_readings_insert h p c :
  Pose c = Pose (h p) → State c = State (h p) → same_readings h (<[p := c]> h).
Proof.
  intros HP HS q. destruct (decide (p = q)) as [->|Hne].
  - by rewrite fn_lookup_insert.
  - by rewrite fn_lookup_insert_ne.
Qed.

Lemma same_readings_setPSMoveID h p id : same_readings h (on_object p (setPSMoveID id) h).
Proof. by apply same_readings_insert. Qed.

Lemma same_readings_close h p : same_readings h (on_object p close h).
Proof. by apply same_readings_insert. Qed.

Lemma same_readings_open h p ok e : same_readings h (<[p := (open ok e (h p)).1]> h).
Proof. rewrite open_eq. apply same_readings_insert; by destruct ok. Qed.

(** ** Step 1 and Step 2 as a whole *)

(** Step 1 never fails; it extends the list of moved objects and leaves
    the readings alone. *)
Lemma connect_all_structure N pool open_ok es moved st :
  pass_inv N pool moved st →
  ∃ st' evs extra,
    connect_all open_ok es st = Some (st', evs) ∧
    pass_inv N pool (moved ++ extra) st' ∧
    same_readings (ps_objects st) (ps_objects st').
Proof.
  revert moved st. induction es as [|e es IH]; intros moved st Hinv; simpl.
  - exists st, [], []. rewrite app_nil_r. eauto using same_readings_refl.
  - destruct (find_open_controller_index (ps_objects st) (ps_controllers st) e)
      as [ci|] eqn:Hopen.
    + destruct (connect_enumerated_existing _ _ _ _ open_ok _ _ Hinv Hopen)
        as (p & Hci & Hb & ->). simpl.
      pose proof (pass_inv_move _ _ _ _ _ _
        (if decide (ps_new_index st ≠ ci)
         then on_object p (setPSMoveID (static_cast_int (ps_new_index st))) (ps_objects st)
         else ps_objects st) Hinv Hci) as Hinv'.
      destruct (IH _ _ Hinv') as (st' & evs & extra & -> & Hinv'' & Hsame). simpl.
      eexists _, _, ([p] ++ extra). split; [done|]. rewrite (assoc (++)). split; [done|].
      eapply same_readings_trans; [|exact Hsame]. simpl.
      destruct (decide _); [apply same_readings_setPSMoveID|apply same_readings_refl].
    + destruct (find_first_closed_controller_index (ps_objects st) (ps_controllers st))
        as [ci|] eqn:Hclosed.
      * destruct (connect_enumerated_new _ _ _ _ open_ok _ _ Hinv Hopen Hclosed)
          as (p & Hci & Hb & Heq). simpl in Heq. rewrite Heq. simpl.
        match type of Heq with _ = Some (mkPass _ _ _ ?h, _, _) =>
          pose proof (pass_inv_move _ _ _ _ _ _ h Hinv Hci) as Hinv' end.
        destruct (IH _ _ Hinv') as (st' & evs & extra & -> & Hinv'' & Hsame). simpl.
        eexists _, _, ([p] ++ extra). split; [done|]. rewrite (assoc (++)). split; [done|].
        eapply same_readings_trans; [|exact Hsame]. simpl.
        eapply same_readings_trans; [apply same_readings_setPSMoveID|apply same_readings_open].
      * rewrite (connect_enumerated_full _ _ _ Hopen Hclosed). simpl.
        exists st, [LogError_too_many], []. rewrite app_nil_r. eauto using same_readings_refl.
Qed.

Lemma all_null_pointers N (l : list (option ptr)) :
  length l = N → (∀ i, (i < N)%nat → l !! i = Some None) → pointers l = [].
Proof.
  intros Hlen Hall. assert (l = replicate N None) as ->; [|apply pointers_replicate_None].
  apply list_eq_same_length with N; [by rewrite length_replicate|done|].
  intros i x y Hi Hx Hy. rewrite Hall in Hx by done.
  rewrite lookup_replicate_2 in Hy by done. congruence.
Qed.

(** Step 2 never fails; it empties the old list into the temporary array. *)
Lemma retire_all_structure N pool moved st :
  pass_inv N pool moved st →
  ∃ st' evs extra,
    for_each retire_existing (seq 0 N) st = Some (st', evs) ∧
    pass_inv N pool (moved ++ extra) st' ∧
    (∀ i, (i < N)%nat → ps_controllers st' !! i = Some None) ∧
    same_readings (ps_objects st) (ps_objects st').
Proof.
  intros Hinv.
  destruct (for_each_seq_inv retire_existing
    (λ i st' _, ∃ extra, pass_inv N pool (moved ++ extra) st' ∧
       (∀ j, (j < i)%nat → ps_controllers st' !! j = Some None) ∧
       same_readings (ps_objects st) (ps_objects st')) N 0 st)
    as (st' & evs & Hrun & extra & Hinv' & Hnull & Hsame).
  - exists []. rewrite app_nil_r. split; [done|]. split; [lia|apply same_readings_refl].
  - intros i st1 _ Hi (extra & Hinv1 & Hnull & Hsame).
    assert (i < length (ps_controllers st1))%nat as Hlt by (destruct Hinv1 as (-> & _); lia).
    destruct (lookup_lt_is_Some_2 _ _ Hlt) as [[p|] Hci].
    + rewrite (retire_existing_Some _ _ _ _ _ _ Hinv1 Hci).
      eexists _, _. split; [done|]. exists (extra ++ [p]). rewrite (assoc (++)).
      split; [by apply pass_inv_move|]. simpl. split.
      * intros j Hj. destruct (decide (j = i)) as [->|Hne].
        -- by rewrite list_lookup_insert_eq.
        -- rewrite list_lookup_insert_ne by done. apply Hnull. lia.
      * eapply same_readings_trans; [exact Hsame|].
        eapply same_readings_trans; [|apply same_readings_setPSMoveID].
        destruct (IsOpen _); [apply same_readings_close|apply same_readings_refl].
    + rewrite (retire_existing_None _ _ Hci).
      eexists _, _. split; [done|]. exists extra. split; [done|]. split; [|done].
      intros j Hj. destruct (decide (j = i)) as [->|Hne]; [done|]. apply Hnull. lia.
  - exists st', evs, extra. done.
Qed.

(** ** The slot table *)

Lemma full_table_pointers (l : list (option ptr)) :
  (∀ i, (i < length l)%nat → ∃ p, l !! i = Some (Some p)) → l = Some <$> pointers l.
Proof.
  intros Hfull.
  assert (Forall (λ c, is_Some c) l) as HF.
  { apply Forall_lookup. intros i c Hc.
    destruct (Hfull i (lookup_lt_Some _ _ _ Hc)) as [p Hp]. rewrite Hp in Hc.
    simplify_eq. eauto. }
  clear Hfull. unfold pointers.
  induction HF as [|c l [p ->] _ IH]; [done|]. cbn. by f_equal.
Qed.

Lemma pool_ok_pointers N s :
  pool_ok N s →
  m_controllers s = Some <$> pointers (m_controllers s) ∧
  length (pointers (m_controllers s)) = N ∧
  NoDup (pointers (m_controllers s)).
Proof.
  intros (Hlen & Hfull & Hnd).
  assert (m_controllers s = Some <$> pointers (m_controllers s)) as Heq.
  { apply full_table_pointers. by rewrite Hlen. }
  split; [done|]. split.
  - rewrite Heq, length_fmap in Hlen. done.
  - rewrite Heq in Hnd. by apply NoDup_fmap_1 in Hnd.
Qed.

Lemma pool_ok_of_pointers N s (ps : list ptr) :
  m_controllers s = Some <$> ps → length ps = N → NoDup ps → pool_ok N s.
Proof.
  intros Heq Hlen Hnd. unfold pool_ok. rewrite Heq. split; [by rewrite length_fmap|]. split.
  - intros i Hi. destruct (lookup_lt_is_Some_2 ps i) as [p Hp]; [lia|].
    exists p. by rewrite list_lookup_fmap, Hp.
  - apply NoDup_fmap_2; [|done]. intros ?? [=]. done.
Qed.

Lemma pool_ok_new N : pool_ok N (ControllerManagerImpl_new N).
Proof.
  apply pool_ok_of_pointers with (seq 0 N); [done|apply length_seq|apply NoDup_seq].
Qed.

(** The whole pass: it never fails, and when it is over the temporary
    array holds, in its first positions, the objects the table held. *)
Lemma pass_structure N es open_ok s :
  length (m_controllers s) = N →
  ∃ st1 ev1 st2 ev2 moved1 moved2,
    connect_all open_ok es (pass_start N s) = Some (st1, ev1) ∧
    for_each retire_existing (seq 0 N) st1 = Some (st2, ev2) ∧
    update_connected_controllers N es open_ok s =
      Some (set_objects (ps_objects st2) (set_controllers (ps_temp st2) s), ev1 ++ ev2) ∧
    pass_inv N (pointers (m_controllers s)) moved1 st1 ∧
    pass_inv N (pointers (m_controllers s)) (moved1 ++ moved2) st2 ∧
    moved1 ++ moved2 ≡ₚ pointers (m_controllers s) ∧
    same_readings (objects s) (ps_objects st2).
Proof.
  intros Hlen. pose proof (pass_inv_start N s Hlen) as Hinv0.
  destruct (connect_all_structure _ _ open_ok es _ _ Hinv0)
    as (st1 & ev1 & moved1 & Hrun1 & Hinv1 & Hsame1). simpl in Hinv1.
  destruct (retire_all_structure _ _ _ _ Hinv1)
    as (st2 & ev2 & moved2 & Hrun2 & Hinv2 & Hnull & Hsame2).
  exists st1, ev1, st2, ev2, moved1, moved2.
  split; [done|]. split; [done|]. split.
  { unfold update_connected_controllers. fold (pass_start N s). rewrite Hrun1. simpl.
    rewrite Hrun2. done. }
  split; [done|]. split; [done|]. split.
  - destruct Hinv2 as (Hl2 & _ & _ & Hperm & _).
    rewrite (all_null_pointers N _ Hl2 Hnull), app_nil_r in Hperm. done.
  - eapply same_readings_trans; [exact Hsame1|exact Hsame2].
Qed.

(** A pass on a full table permutes it and touches nothing else. *)
Lemma pass_permutes N es open_ok s :
  pool_ok N s →
  ∃ s' evs,
    update_connected_controllers N es open_ok s = Some (s', evs) ∧
    m_controllers s' ≡ₚ m_controllers s ∧
    pool_ok N s' ∧
    same_readings (objects s) (objects s') ∧
    m_config s' = m_config s ∧
    m_sequence_number s' = m_sequence_number s ∧
    m_last_reconnect_time s' = m_last_reconnect_time s ∧
    m_last_poll_time s' = m_last_poll_time s.
Proof.
  intros Hok. pose proof Hok as (Hlen & _ & _).
  destruct (pool_ok_pointers _ _ Hok) as (Heq & Hplen & Hnd).
  destruct (pass_structure N es open_ok s Hlen)
    as (st1 & ev1 & st2 & ev2 & moved1 & moved2 & _ & _ & -> & _ & Hinv2 & Hperm & Hsame).
  eexists _, _. split; [done|]. simpl.
  destruct Hinv2 as (_ & Htemp & _ & _ & _).
  assert (length (moved1 ++ moved2) = N) as Hml.
  { by rewrite (Permutation_length Hperm). }
  rewrite Hml, Nat.sub_diag in Htemp. simpl in Htemp. rewrite app_nil_r in Htemp.
  split; [|split; [|done]].
  - rewrite Htemp, Heq at 1. by apply fmap_Permutation.
  - eapply pool_ok_of_pointers; [exact Htemp|done|]. by rewrite Hperm.
Qed.

(** C5. A hot-plug pass on a full table only permutes it: afterwards the
    table holds the same objects, one in each of its N positions, and no
    object has had its pose or state touched; the counter, the
    configuration and the two timestamps are as before. *)
Theorem update_connected_controllers_permutes N es open_ok s :
  pool_ok N s →
  ∃ s' evs,
    update_connected_controllers N es open_ok s = Some (s', evs) ∧
    m_controllers s' ≡ₚ m_controllers s ∧
    pool_ok N s' ∧
    same_readings (objects s) (objects s') ∧
    m_config s' = m_config s ∧
    m_sequence_number s' = m_sequence_number s ∧
    m_last_reconnect_time s' = m_last_reconnect_time s ∧
    m_last_poll_time s' = m_last_poll_time s.
Proof. apply pass_permutes. Qed.

(** ** Running out of sessions *)

(** An iteration of Step 1 leaves the loop only by writing the error
    line, and then it has changed nothing. *)
Lemma connect_enumerated_flag open_ok e st st' ev go_on :
  connect_enumerated open_ok e st = Some (st', ev, go_on) →
  (go_on = false ∧ ev = [LogError_too_many] ∧ st' = st ∧
   find_open_controller_index (ps_objects st) (ps_controllers st) e = None ∧
   find_first_closed_controller_index (ps_objects st) (ps_controllers st) = None)
  ∨ (go_on = true ∧ (LogError_too_many ∉ ev) ∧ ps_new_index st' = S (ps_new_index st)).
Proof.
  unfold connect_enumerated. intros H.
  destruct (find_open_controller_index _ _ e) as [ci|] eqn:Hopen.
  - right. destruct (array_read _ ci) as [c|]; simpl in H; [|done].
    destruct (decide (ps_new_index st ≠ ci)).
    + destruct c as [p|]; simpl in H; [|done].
      destruct (array_write (ps_temp st) _ _); simpl in H; [|done].
      destruct (array_write (ps_controllers st) _ _); simpl in H; [|done].
      simplify_eq. split; [done|]. split; [|done].
      by intros ?%list_elem_of_singleton.
    + simpl in H.
      destruct (array_write (ps_temp st) _ _); simpl in H; [|done].
      destruct (array_write (ps_controllers st) _ _); simpl in H; [|done].
      simplify_eq. split; [done|]. split; [|done]. apply not_elem_of_nil.
  - destruct (find_first_closed_controller_index _ _) as [ci|] eqn:Hclosed.
    + right. destruct (array_read _ ci) as [[p|]|]; simpl in H; [|done..].
      destruct (array_write (ps_temp st) _ _); simpl in H; [|done].
      destruct (array_write (ps_controllers st) _ _); simpl in H; [|done].
      rewrite open_eq in H. simplify_eq. split; [done|]. split; [|done].
      destruct (open_ok _); [|apply not_elem_of_nil].
      by intros ?%list_elem_of_singleton.
    + left. by simplify_eq.
Qed.

(** A prefix of the enumerator that went through without the error line
    leaves the loop running on the rest. *)
Lemma connect_all_app open_ok pre rest st0 st ev :
  connect_all open_ok pre st0 = Some (st, ev) →
  LogError_too_many ∉ ev →
  connect_all open_ok (pre ++ rest) st0 =
  '(st2, ev2) ← connect_all open_ok rest st; Some (st2, ev ++ ev2).
Proof.
  revert st0 ev. induction pre as [|e pre IH]; intros st0 ev Hrun Hno; simpl in *.
  - simplify_eq. by destruct (connect_all open_ok rest st) as [[??]|].
  - destruct (connect_enumerated open_ok e st0) as [[[st1 ev1] go_on]|] eqn:Hstep;
      simpl in *; [|done].
    destruct (connect_enumerated_flag _ _ _ _ _ _ Hstep) as [(-> & -> & _)|(-> & Hno1 & _)].
    { simplify_eq. exfalso. apply Hno. by left. }
    destruct (connect_all open_ok pre st1) as [[st2 ev2]|] eqn:Hrest; simpl in *; [|done].
    simplify_eq. rewrite (IH st1 ev2 Hrest).
    + destruct (connect_all open_ok rest st) as [[st3 ev3]|]; simpl; [|done].
      by rewrite (assoc (++)).
    + intros Hin. apply Hno. apply elem_of_app. by right.
Qed.



(** Without the error line, Step 1 has given one position to each
    identity it went through. *)
Lemma connect_all_new_index open_ok pre st0 st ev :
  connect_all open_ok pre st0 = Some (st, ev) →
  LogError_too_many ∉ ev →
  ps_new_index st = (ps_new_index st0 + length pre)%nat.
Proof.
  revert st0 ev. induction pre as [|e pre IH]; intros st0 ev Hrun Hno; simpl in *.
  - simplify_eq. lia.
  - destruct (connect_enumerated open_ok e st0) as [[[st1 ev1] go_on]|] eqn:Hstep;
      simpl in *; [|done].
    destruct (connect_enumerated_flag _ _ _ _ _ _ Hstep) as [(-> & -> & _)|(-> & Hno1 & Hidx)].
    { simplify_eq. exfalso. apply Hno. by left. }
    destruct (connect_all open_ok pre st1) as [[st2 ev2]|] eqn:Hrest; simpl in *; [|done].
    simplify_eq. rewrite (IH st1 ev2 Hrest), Hidx; [lia|].
    intros Hin. apply Hno. apply elem_of_app. by right.
Qed.

Lemma connect_all_pass_inv N pool open_ok es moved st st' evs :
  pass_inv N pool moved st →
  connect_all open_ok es st = Some (st', evs) →
  ∃ extra, pass_inv N pool (moved ++ extra) st'.
Proof.
  intros Hinv Hrun.
  destruct (connect_all_structure _ _ open_ok es _ _ Hinv) as (st1 & ev1 & extra & Hrun1 & Hinv1 & _).
  rewrite Hrun in Hrun1. simplify_eq. eauto.
Qed.

(** ** A failed open *)

(** C7, as the code has it. When Step 1, at enumeration position [p],
    meets an identity that matches no open session, finds a closed session
    and fails to open it, the session stays closed and unbound, it sits at
    position [p] of the temporary array with [p] as its id, the next
    identity gets position [p+1], and the manager writes no line at all
    for the failure. *)
Theorem failed_open_consumes_position N s open_ok pre e st ev ci :
  length (m_controllers s) = N →
  connect_all open_ok pre (pass_start N s) = Some (st, ev) →
  LogError_too_many ∉ ev →
  find_open_controller_index (ps_objects st) (ps_controllers st) e = None →
  find_first_closed_controller_index (ps_objects st) (ps_controllers st) = Some ci →
  open_ok (length pre) = false →
  ∃ p st',
    ps_controllers st !! ci = Some (Some p) ∧
    IsOpen (ps_objects st p) = false ∧
    connect_enumerated open_ok e st = Some (st', [], true) ∧
    ps_temp st' !! length pre = Some (Some p) ∧
    ps_new_index st' = S (length pre) ∧
    IsOpen (ps_objects st' p) = false ∧
    bound_identity (ps_objects st' p) = bound_identity (ps_objects st p) ∧
    PSMoveID (ps_objects st' p) = static_cast_int (length pre) ∧
    ∀ rest, connect_all open_ok (pre ++ e :: rest) (pass_start N s) =
            '(st2, ev2) ← connect_all open_ok rest st'; Some (st2, ev ++ ev2).
Proof.
  intros Hlen Hpre Hno Hopen Hclosed Hfail.
  destruct (connect_all_pass_inv _ _ _ _ _ _ _ _ (pass_inv_start N s Hlen) Hpre)
    as (moved & Hinv). simpl in Hinv.
  pose proof (connect_all_new_index _ _ _ _ _ Hpre Hno) as Hidx. simpl in Hidx.
  destruct (connect_enumerated_new _ _ _ _ open_ok _ _ Hinv Hopen Hclosed)
    as (p & Hci & Hp & Hstep). simpl in Hstep.
  rewrite Hidx, Hfail in Hstep.
  pose proof (pass_inv_room _ _ _ _ _ _ Hinv Hci) as Hroom.
  pose proof (pass_inv_temp_length _ _ _ _ Hinv (pass_inv_moved_le _ _ _ _ Hinv)) as Htl.
  assert (length moved = length pre) as Hml by (destruct Hinv as (_ & _ & <- & _); done).
  eexists p, _. split; [done|]. split; [done|]. split; [exact Hstep|]. simpl.
  split; [apply list_lookup_insert_eq; lia|]. split; [done|].
  rewrite fn_lookup_insert, on_object_eq. simpl.
  split; [done|]. split; [done|]. split; [done|].
  intros rest. rewrite (connect_all_app _ _ _ _ _ _ Hpre Hno). simpl.
  rewrite Hstep. simpl. rewrite !on_object_eq.
  by destruct (connect_all open_ok rest _) as [[??]|].
Qed.

(** ** A table that already agrees with the snapshot *)

Lemma setPSMoveID_same c : setPSMoveID (PSMoveID c) c = c.
Proof. by destruct c. Qed.

Section Settled.

Variables (N : nat) (es : list DeviceIdentity) (open_ok : nat → bool).
Variables (m : list (option ptr)) (h : ptr → PSMoveController).

Lemma connect_all_settled post pre st :
  (length es ≤ N)%nat →
  (∀ j, (j < N)%nat → ∃ p, m !! j = Some (Some p) ∧ settled_slot es j (h p)) →
  es = pre ++ post →
  settled_step1 N m h (length pre) st →
  ∃ st', connect_all open_ok post st = Some (st', []) ∧ settled_step1 N m h (length es) st'.
Proof.
  intros Hes Hslots.
  revert pre st. induction post as [|e post IH]; intros pre st Hsplit HJ.
  { exists st. split; [done|]. rewrite Hsplit, app_nil_r. done. }
  destruct HJ as (Hidx & Hobj & Hcl & Htl & Hdone & Htodo).
  set (k := length pre) in *.
  assert (es !! k = Some e) as Hek.
  { rewrite Hsplit. by rewrite list_lookup_middle. }
  assert (k < N)%nat as HkN.
  { apply lookup_lt_Some in Hek. lia. }
  destruct (Hslots k HkN) as (p & Hmk & Hset).
  unfold settled_slot in Hset. rewrite Hek in Hset.
  assert (find_open_controller_index (ps_objects st) (ps_controllers st) e = Some k) as Hfind.
  { apply find_open_controller_index_Some. exists p. rewrite Hobj.
    split; [by rewrite Htodo|]. split; [done|].
    intros j q Hj Hq. destruct (Hdone j Hj) as [Hnull _]. congruence. }
  assert (connect_enumerated open_ok e st =
          Some (mkPass (<[k := None]> (ps_controllers st))
                  (<[k := Some p]> (ps_temp st)) (S k) h, [], true)) as Hstep.
  { unfold connect_enumerated. rewrite Hfind. unfold array_read.
    rewrite Htodo by done. rewrite Hmk. simpl. rewrite Hidx.
    rewrite decide_False by (intros Hne; by apply Hne). simpl.
    rewrite !array_write_Some by lia. simpl. by rewrite Hobj. }
  simpl. rewrite Hstep. simpl.
  destruct (IH (pre ++ [e]) (mkPass (<[k := None]> (ps_controllers st))
              (<[k := Some p]> (ps_temp st)) (S k) h)) as (st' & -> & HJ').
  - by rewrite <- (assoc (++)).
  - rewrite length_app. simpl. fold k. replace (k + 1)%nat with (S k) by lia.
    unfold settled_step1. simpl. rewrite !length_insert.
    split; [done|]. split; [done|]. split; [done|]. split; [done|]. split.
    + intros j Hj. destruct (decide (j = k)) as [->|Hne].
      * rewrite !list_lookup_insert_eq by lia. by rewrite Hmk.
      * rewrite !list_lookup_insert_ne by done. apply Hdone. lia.
    + intros j Hj. rewrite list_lookup_insert_ne by lia. apply Htodo. lia.
  - exists st'. done.
Qed.

Lemma retire_settled i st evs :
  (∀ j, (j < N)%nat → ∃ p, m !! j = Some (Some p) ∧ settled_slot es j (h p)) →
  (i < N)%nat → settled_step2 N es m h i st evs →
  ∃ st' ev, retire_existing i st = Some (st', ev) ∧
            settled_step2 N es m h (S i) st' (evs ++ ev).
Proof.
  intros Hslots HiN (-> & Hobj & Hcl & Htl & Hidx & Htemp & Hdone & Htodo).
  destruct (decide (i < length es)%nat) as [Hlt|Hge].
  - rewrite (retire_existing_None st i) by (by apply Hdone).
    exists st, []. split; [done|]. unfold settled_step2.
    replace (length es `max` S i)%nat with (length es `max` i)%nat by lia.
    repeat split; try done. intros j Hj1 Hj2. apply Htodo; lia.
  - destruct (Hslots i HiN) as (q & Hmi & Hset).
    unfold settled_slot in Hset. rewrite lookup_ge_None_2 in Hset by lia.
    destruct Hset as [Hclosed Hid].
    assert (ps_new_index st = i) as Hidx' by lia.
    assert (retire_existing i st =
            Some (mkPass (<[i := None]> (ps_controllers st)) (<[i := Some q]> (ps_temp st))
                    (S i) (on_object q (setPSMoveID (static_cast_int i)) (ps_objects st)), []))
      as ->.
    { unfold retire_existing, array_read. rewrite Htodo by lia. rewrite Hmi. simpl.
      unfold getIsOpen. rewrite Hobj, Hclosed, Hidx'.
      rewrite !array_write_Some by lia. done. }
    eexists _, _. split; [done|]. unfold settled_step2. simpl. rewrite !length_insert.
    split; [done|]. split.
    { intros q'. destruct (decide (q = q')) as [<-|Hne].
      - rewrite on_object_eq, Hobj, <- Hid. apply setPSMoveID_same.
      - rewrite on_object_ne by done. apply Hobj. }
    split; [done|]. split; [done|]. split; [lia|]. split; [|split].
    + intros j Hj. destruct (decide (j = i)) as [->|Hne].
      * rewrite list_lookup_insert_eq by lia. done.
      * rewrite list_lookup_insert_ne by done. apply Htemp. lia.
    + intros j Hj. rewrite list_lookup_insert_ne by lia. by apply Hdone.
    + intros j Hj1 Hj2. rewrite list_lookup_insert_ne by lia. apply Htodo; lia.
Qed.

End Settled.

(** On a table that agrees with the snapshot the pass does nothing. *)
Lemma settled_pass_noop N es open_ok s :
  settled N es s →
  ∃ s', update_connected_controllers N es open_ok s = Some (s', []) ∧ state_eq s' s.
Proof.
  intros (Hlen & Hes & Hslots).
  destruct (connect_all_settled N es open_ok (m_controllers s) (objects s)
              es [] (pass_start N s) Hes Hslots) as (st1 & Hrun1 & HJ); [done| |].
  { unfold settled_step1, pass_start. simpl. rewrite length_replicate.
    repeat split; try done; lia. }
  destruct (for_each_seq_inv retire_existing
              (settled_step2 N es (m_controllers s) (objects s)) N 0 st1)
    as (st2 & ev2 & Hrun2 & HK).
  - destruct HJ as (Hidx & Hobj & Hcl & Htl & Hdone & Htodo).
    unfold settled_step2. rewrite Hobj, Nat.max_0_r.
    repeat split; try done.
    + intros j Hj. by apply Hdone.
    + intros j Hj. by apply Hdone.
    + intros j Hj _. by apply Htodo.
  - intros i st evs Hi HK. apply retire_settled; [done|lia|done].
  - destruct HK as (-> & Hobj & Hcl & Htl & Hidx & Htemp & _).
    unfold update_connected_controllers. fold (pass_start N s).
    rewrite Hrun1. simpl. rewrite Hrun2. simpl.
    eexists. split; [done|]. unfold state_eq. simpl.
    repeat split; try done.
    apply list_eq_same_length with N; [done..|].
    intros j x y Hj Hx Hy. rewrite Htemp in Hx by lia. congruence.
Qed.

(** ** A first pass on any table *)

(** An object still in the old list has not been moved yet. *)
Lemma pass_inv_fresh N pool moved st ci p :
  pass_inv N pool moved st → NoDup pool →
  ps_controllers st !! ci = Some (Some p) → p ∉ moved.
Proof.
  intros (_ & _ & _ & Hperm & _) Hnd Hci Hin.
  rewrite <- Hperm in Hnd. apply list.NoDup_app in Hnd as (_ & Hdisj & _).
  apply (Hdisj p Hin). apply elem_of_pointers. by eapply list_elem_of_lookup_2.
Qed.

Lemma pass_inv_moved_unique N pool moved moved' st :
  pass_inv N pool moved st → pass_inv N pool moved' st → moved = moved'.
Proof.
  intros (_ & Ht & Hn & _ & _) (_ & Ht' & Hn' & _ & _).
  rewrite Ht in Ht'. apply app_inj_1 in Ht' as [Heq _].
  - by apply (inj (fmap Some)) in Heq.
  - rewrite !length_fmap. congruence.
Qed.

(** A property of the placed sessions, slot by slot, survives placing one
    more object when only that object is touched. *)
Lemma slots_extend (Q : nat → ptr → PSMoveController → Prop) (moved : list ptr) h h' p :
  (∀ j q, moved !! j = Some q → Q j q (h q)) →
  p ∉ moved →
  (∀ q, q ≠ p → h' q = h q) →
  Q (length moved) p (h' p) →
  ∀ j q, (moved ++ [p]) !! j = Some q → Q j q (h' q).
Proof.
  intros Hold Hfresh Hframe Hnew j q Hq.
  apply lookup_app_Some in Hq as [Hq|[Hj Hq]].
  - rewrite Hframe; [by apply Hold|]. intros ->. apply Hfresh.
    by eapply list_elem_of_lookup_2.
  - apply list_lookup_singleton_Some in Hq as [Hj' <-].
    replace j with (length moved) by lia. done.
Qed.

Lemma bound_to_setPSMoveID c e id : bound_to c e → bound_to (setPSMoveID id c) e.
Proof. by intros [??]. Qed.

Section FirstPass.

Variables (N : nat) (pool : list ptr) (es : list DeviceIdentity) (open_ok : nat → bool).

Lemma connect_all_settles post pre moved st st' evs :
  NoDup pool →
  (∀ j, open_ok j = true) →
  es = pre ++ post →
  pass_inv N pool moved st →
  length moved = length pre →
  (∀ j q, moved !! j = Some q → settled_slot es j (ps_objects st q)) →
  connect_all open_ok post st = Some (st', evs) →
  LogError_too_many ∉ evs →
  ∃ moved', pass_inv N pool moved' st' ∧ length moved' = length es ∧
            ∀ j q, moved' !! j = Some q → settled_slot es j (ps_objects st' q).
Proof.
  intros Hnd Hok.
  revert pre moved st evs.
  induction post as [|e post IH]; intros pre moved st evs Hsplit Hinv Hlen Hslots Hrun Hno.
  { simpl in Hrun. simplify_eq. exists moved. rewrite app_nil_r in *. done. }
  assert (es !! length moved = Some e) as Hek.
  { rewrite Hsplit, Hlen. by rewrite list_lookup_middle. }
  assert (ps_new_index st = length moved) as Hidx by (by destruct Hinv as (_ & _ & -> & _)).
  simpl in Hrun.
  destruct (find_open_controller_index (ps_objects st) (ps_controllers st) e)
    as [ci|] eqn:Hopen.
  - destruct (connect_enumerated_existing _ _ _ _ open_ok _ _ Hinv Hopen)
      as (p & Hci & Hb & Hstep).
    rewrite Hstep in Hrun. simpl in Hrun.
    match type of Hstep with _ = Some (?st1, _, _) => set (st1' := st1) in * end.
    destruct (connect_all open_ok post st1') as [[st2 ev2]|] eqn:Hrest; simpl in Hrun; [|done].
    simplify_eq.
    apply (IH (pre ++ [e]) (moved ++ [p]) st1' ev2); try done.
    + by rewrite <- (assoc (++)).
    + by apply pass_inv_move.
    + rewrite !length_app. simpl. lia.
    + subst st1'. simpl.
      apply (slots_extend (λ j _ c, settled_slot _ j c)) with (h := ps_objects st);
          [done|by eapply pass_inv_fresh| |].
      * intros q Hne. destruct (decide _); [|done]. by rewrite on_object_ne.
      * unfold settled_slot. rewrite Hek.
        destruct (decide _); [|done]. rewrite on_object_eq. by apply bound_to_setPSMoveID.
    + intros Hin. apply Hno. apply elem_of_app. by right.
  - destruct (find_first_closed_controller_index (ps_objects st) (ps_controllers st))
      as [ci|] eqn:Hclosed.
    + destruct (connect_enumerated_new _ _ _ _ open_ok _ _ Hinv Hopen Hclosed)
        as (p & Hci & Hb & Hstep). simpl in Hstep.
      rewrite Hstep in Hrun. simpl in Hrun.
      match type of Hstep with _ = Some (?st1, _, _) => set (st1' := st1) in * end.
      destruct (connect_all open_ok post st1') as [[st2 ev2]|] eqn:Hrest; simpl in Hrun; [|done].
      simplify_eq.
      apply (IH (pre ++ [e]) (moved ++ [p]) st1' ev2); try done.
      * by rewrite <- (assoc (++)).
      * by apply pass_inv_move.
      * rewrite !length_app. simpl. lia.
      * subst st1'. simpl.
        apply (slots_extend (λ j _ c, settled_slot _ j c)) with (h := ps_objects st);
          [done|by eapply pass_inv_fresh| |].
        -- intros q Hne. rewrite fn_lookup_insert_ne by done. by rewrite on_object_ne.
        -- unfold settled_slot. rewrite Hek.
           rewrite fn_lookup_insert, Hok, open_eq. done.
      * intros Hin. apply Hno. apply elem_of_app. by right.
    + rewrite (connect_enumerated_full _ _ _ Hopen Hclosed) in Hrun. simpl in Hrun.
      simplify_eq. exfalso. apply Hno. by left.
Qed.

Lemma retire_all_settles moved st :
  NoDup pool →
  pass_inv N pool moved st →
  (length es ≤ length moved)%nat →
  (∀ j q, moved !! j = Some q → settled_slot es j (ps_objects st q)) →
  ∃ st' evs moved',
    for_each retire_existing (seq 0 N) st = Some (st', evs) ∧
    pass_inv N pool moved' st' ∧
    ∀ j q, moved' !! j = Some q → settled_slot es j (ps_objects st' q).
Proof.
  intros Hnd Hinv Hlen Hslots.
  destruct (for_each_seq_inv retire_existing
    (λ _ st' _, ∃ moved', pass_inv N pool moved' st' ∧ (length es ≤ length moved')%nat ∧
       ∀ j q, moved' !! j = Some q → settled_slot es j (ps_objects st' q)) N 0 st)
    as (st' & evs & Hrun & moved' & Hinv' & _ & Hslots'); [by eauto| |by eauto 10].
  intros i st1 _ Hi (moved1 & Hinv1 & Hlen1 & Hslots1).
  assert (i < length (ps_controllers st1))%nat as Hlt by (destruct Hinv1 as (-> & _); lia).
  assert (ps_new_index st1 = length moved1) as Hidx by (by destruct Hinv1 as (_ & _ & -> & _)).
  destruct (lookup_lt_is_Some_2 _ _ Hlt) as [[p|] Hci].
  - rewrite (retire_existing_Some _ _ _ _ _ _ Hinv1 Hci).
    eexists _, _. split; [done|]. exists (moved1 ++ [p]).
    split; [by apply pass_inv_move|]. split; [rewrite length_app; lia|]. simpl.
    apply (slots_extend (λ j _ c, settled_slot es j c)) with (h := ps_objects st1);
      [done|by eapply pass_inv_fresh| |].
    + intros q Hne. rewrite on_object_ne by done.
      destruct (IsOpen _); [|done]. by rewrite on_object_ne.
    + unfold settled_slot. rewrite lookup_ge_None_2 by lia.
      rewrite on_object_eq, Hidx. simpl. split; [|done].
      destruct (IsOpen (ps_objects st1 p)) eqn:Ho; [|done]. by rewrite on_object_eq.
  - rewrite (retire_existing_None _ _ Hci). eexists _, _. split; [done|]. eauto.
Qed.

End FirstPass.

(** A pass that does not run out of sessions and whose opens all succeed
    leaves a table that agrees with the snapshot. *)
Lemma first_pass_settles N es open_ok s s1 ev1 :
  pool_ok N s →
  (∀ j, open_ok j = true) →
  update_connected_controllers N es open_ok s = Some (s1, ev1) →
  LogError_too_many ∉ ev1 →
  settled N es s1.
Proof.
  intros Hok Hopen Hpass Hno. pose proof Hok as (Hlen & _ & _).
  destruct (pool_ok_pointers _ _ Hok) as (Heq & Hplen & Hnd).
  destruct (pass_structure N es open_ok s Hlen)
    as (st1 & e1 & st2 & e2 & moved1 & moved2 & Hrun1 & Hrun2 & Hpass' & Hinv1 & Hinv2 & Hperm & _).
  rewrite Hpass in Hpass'. injection Hpass' as -> ->.
  destruct (connect_all_settles N (pointers (m_controllers s)) es open_ok es [] []
              (pass_start N s) st1 e1)
    as (moved & Hinvm & Hlm & Hslots); try done.
  { by apply pass_inv_start. }
  { intros Hin. apply Hno. apply elem_of_app. by left. }
  destruct (retire_all_settles N (pointers (m_controllers s)) es moved st1 Hnd Hinvm) as
    (st2' & evs' & moved' & Hrun2' & Hinv2' & Hslots2); [lia|done|].
  rewrite Hrun2 in Hrun2'. injection Hrun2' as <- <-.
  pose proof (pass_inv_moved_unique _ _ _ _ _ Hinv2 Hinv2') as <-.
  assert (length (moved1 ++ moved2) = N) as Hml by (by rewrite (Permutation_length Hperm)).
  destruct Hinv2 as (_ & Htemp & _ & _ & _).
  rewrite Hml, Nat.sub_diag in Htemp. simpl in Htemp. rewrite app_nil_r in Htemp.
  unfold settled. simpl. rewrite Htemp, length_fmap.
  split; [done|]. split.
  { rewrite <- Hlm, <- Hml. rewrite (pass_inv_moved_unique _ _ _ _ _ Hinv1 Hinvm).
    rewrite length_app. lia. }
  intros j Hj. destruct (lookup_lt_is_Some_2 (moved1 ++ moved2) j) as [p Hp]; [lia|].
  exists p. rewrite list_lookup_fmap, Hp. split; [done|]. by apply Hslots2.
Qed.

(** C3, as the code has it. On a full table, when a first pass does not
    run out of sessions (it writes no capacity error) and every open it
    attempts succeeds, a second pass with the same snapshot, whatever the
    transport would answer, writes no line and leaves the manager exactly
    as the first pass left it. *)
Theorem update_connected_controllers_idempotent N es open_ok open_ok' s :
  pool_ok N s →
  (∀ j, open_ok j = true) →
  ∃ s1 ev1,
    update_connected_controllers N es open_ok s = Some (s1, ev1) ∧
    (LogError_too_many ∉ ev1 →
     ∃ s2, update_connected_controllers N es open_ok' s1 = Some (s2, []) ∧ state_eq s2 s1).
Proof.
  intros Hok Hopen. pose proof Hok as (Hlen & _ & _).
  destruct (pass_structure N es open_ok s Hlen)
    as (st1 & e1 & st2 & e2 & moved1 & moved2 & _ & _ & Hpass & _).
  eexists _, _. split; [exact Hpass|]. intros Hno.
  apply settled_pass_noop. by eapply first_pass_settles.
Qed.

(** ** A snapshot that only reorders the open sessions *)

Lemma open_at_same_slot s i p p' e e' :
  open_at s i p e → open_at s i p' e' → p = p' ∧ e = e'.
Proof.
  intros [Hl [_ Hb]] [Hl' [_ Hb']].
  assert (p = p') as <- by congruence. split; [done|congruence].
Qed.

Lemma reorder_origin N s es k moved st evs i p e j q :
  reorder_hyps N s es →
  reorder_step1 s es k moved st evs →
  open_at s i p e → es !! j = Some e → moved !! j = Some q → q = p.
Proof.
  intros (_ & _ & _ & _ & Huniq & _) (_ & _ & _ & _ & _ & Hplaced & _) Hat Hj Hq.
  destruct (Hplaced j q Hq) as (i' & e' & Hj' & Hat' & _).
  rewrite Hj in Hj'. simplify_eq.
  pose proof (Huniq _ _ _ _ _ Hat Hat') as ->.
  by destruct (open_at_same_slot _ _ _ _ _ _ Hat Hat') as [-> _].
Qed.

Lemma connect_all_reorder N s es open_ok post pre moved st evs0 :
  reorder_hyps N s es →
  es = pre ++ post →
  pass_inv N (pointers (m_controllers s)) moved st →
  reorder_step1 s es (length pre) moved st evs0 →
  ∃ st' evs moved',
    connect_all open_ok post st = Some (st', evs) ∧
    pass_inv N (pointers (m_controllers s)) moved' st' ∧
    reorder_step1 s es (length es) moved' st' (evs0 ++ evs).
Proof.
  intros Hhyps. pose proof Hhyps as (Hok & HN & Hids & Hsess & Huniq & Hnd & Hset).
  destruct (pool_ok_pointers _ _ Hok) as (_ & _ & Hndp).
  revert pre moved st evs0.
  induction post as [|e post IH]; intros pre moved st evs0 Hsplit Hinv Hstep1.
  { exists st, [], moved. assert (pre = es) as -> by (by rewrite Hsplit, app_nil_r).
    rewrite app_nil_r. done. }
  pose proof Hstep1 as (Hlen & Hsame & Hrest & Horig & Htodo & Hplaced & Hevs & Hmoves).
  set (k := length pre) in *.
  assert (es !! k = Some e) as Hek by (rewrite Hsplit; apply list_lookup_middle; done).
  assert (ps_new_index st = k) as Hidx by (destruct Hinv as (_ & _ & -> & _); done).
  assert (∀ j, (j < k)%nat → es !! j ≠ Some e) as Hnotyet.
  { intros j Hj Hje. pose proof (NoDup_lookup _ _ _ _ Hnd Hje Hek). lia. }
  destruct (proj1 (Hset e)) as (i & p & Hat); [by eapply list_elem_of_lookup_2|].
  pose proof (Htodo _ _ _ Hat Hnotyet) as Hci.
  assert (find_open_controller_index (ps_objects st) (ps_controllers st) e = Some i) as Hfind.
  { apply find_open_controller_index_Some. exists p. split; [done|].
    destruct Hat as [Hmi [Ho Hb]]. destruct (Hsame p) as [Ho' Hb'].
    split; [split; congruence|].
    intros j q Hj Hq [Hoq Hbq]. destruct (Hsame q) as [Hoq' Hbq'].
    assert (open_at s j q e) as Hat'.
    { split; [by apply Horig|]. split; congruence. }
    pose proof (Huniq _ _ _ _ _ Hat' (conj Hmi (conj Ho Hb))). lia. }
  destruct (connect_enumerated_existing _ _ _ _ open_ok _ _ Hinv Hfind)
    as (p' & Hci' & _ & Hstep).
  rewrite Hci in Hci'. injection Hci' as <-.
  pose proof (pass_inv_fresh _ _ _ _ _ _ Hinv Hndp Hci) as Hfresh.
  pose proof (pass_inv_room _ _ _ _ _ _ Hinv Hci) as Hroom.
  simpl. rewrite Hstep. simpl. rewrite Hidx in *.
  match type of Hstep with _ = Some (?st1, ?ev1, _) =>
    set (st1' := st1) in *; set (ev := ev1) in * end.
  destruct (IH (pre ++ [e]) (moved ++ [p]) st1' (evs0 ++ ev)) as (st' & evs & moved' & -> & Hinv' & Hfinal).
  - by rewrite <- (assoc (++)).
  - subst st1'. rewrite <- Hidx. by apply pass_inv_move.
  - rewrite length_app. simpl. fold k. replace (k + 1)%nat with (S k) by lia.
    subst st1' ev. unfold reorder_step1. simpl.
    split; [rewrite length_app; simpl; lia|]. split; [|split; [|split; [|split; [|split; [|split]]]]].
    + intros q. destruct (decide (k ≠ i)); [|done].
      destruct (decide (p = q)) as [<-|Hne].
      * rewrite on_object_eq. simpl. apply Hsame.
      * rewrite on_object_ne by done. apply Hsame.
    + intros q Hq. apply not_elem_of_app in Hq as [Hq Hqp].
      rewrite list_elem_of_singleton in Hqp.
      destruct (decide (k ≠ i)); [|by apply Hrest].
      rewrite on_object_ne by done. by apply Hrest.
    + intros j q Hq. destruct (decide (j = i)) as [->|Hne].
      * rewrite list_lookup_insert_eq in Hq by (by eapply lookup_lt_Some). done.
      * rewrite list_lookup_insert_ne in Hq by done. by apply Horig.
    + intros i' p'' e' Hat' Hnot. destruct (decide (i' = i)) as [->|Hne].
      * destruct (open_at_same_slot _ _ _ _ _ _ Hat Hat') as [-> ->].
        exfalso. apply (Hnot k); [lia|done].
      * rewrite list_lookup_insert_ne by done. apply (Htodo _ _ _ Hat').
        intros j Hj. apply Hnot. lia.
    + apply (slots_extend (λ j q c, ∃ i e, es !! j = Some e ∧ open_at s i q e ∧
                                     PSMoveID c = Z.of_nat j)) with (h := ps_objects st);
        [done|done| |].
      * intros q Hne. destruct (decide (k ≠ i)); [|done]. by rewrite on_object_ne.
      * rewrite Hlen. exists i, e. split; [done|]. split; [done|].
        destruct (decide (k ≠ i)) as [Hki|Hki].
        -- rewrite on_object_eq. simpl. apply static_cast_int_small. lia.
        -- rewrite (Hrest p Hfresh). destruct Hat as [Hmi _]. rewrite (Hids _ _ Hmi).
           f_equal. destruct (decide (k = i)); [done|]. by exfalso; apply Hki.
    + intros i' p'' e' j Hat' Hj. rewrite filter_app, (Hevs _ _ _ _ Hat' Hj).
      destruct (decide (j = k)) as [->|Hjk].
      * rewrite Hek in Hj. injection Hj as <-.
        pose proof (Huniq _ _ _ _ _ Hat Hat') as <-.
        destruct (decide (k < k)%nat); [lia|]. destruct (decide (k < S k)%nat); [|lia].
        simpl.
        destruct (decide (k ≠ i)) as [Hki|Hki]; destruct (decide (i = k)) as [Hik|Hik];
          try (exfalso; lia); [|done].
        rewrite filter_cons_True by (simpl; by apply bool_decide_eq_true). done.
      * assert (i' ≠ i) as Hne.
        { intros ->. destruct (open_at_same_slot _ _ _ _ _ _ Hat Hat') as [_ <-].
          apply Hjk. eapply (NoDup_lookup es); [exact Hnd|exact Hj|exact Hek]. }
        assert (filter (λ ev, is_moved_from i' ev = true)
                  (if decide (k ≠ i) then [LogInfo_moved i k] else []) = []) as ->.
        { destruct (decide (k ≠ i)); [|done].
          rewrite filter_cons_False; [done|]. simpl.
          rewrite bool_decide_eq_true. congruence. }
        rewrite app_nil_r.
        destruct (decide (j < k)%nat), (decide (j < S k)%nat); try lia; done.
    + apply Forall_app. split; [done|].
      destruct (decide (k ≠ i)); [|by apply Forall_nil].
      apply Forall_singleton. eauto.
  - exists st', (ev ++ evs), moved'. rewrite (assoc (++)). done.
Qed.

Lemma retire_all_reorder N s es moved1 st1 evs1 :
  reorder_hyps N s es →
  pass_inv N (pointers (m_controllers s)) moved1 st1 →
  reorder_step1 s es (length es) moved1 st1 evs1 →
  ∃ st2 extra,
    for_each retire_existing (seq 0 N) st1 = Some (st2, []) ∧
    pass_inv N (pointers (m_controllers s)) (moved1 ++ extra) st2 ∧
    ∀ q, q ∈ moved1 → ps_objects st2 q = ps_objects st1 q.
Proof.
  intros Hhyps Hinv1 Hstep1.
  pose proof Hhyps as (Hok & HN & Hids & Hsess & Huniq & Hnd & Hset).
  destruct (pool_ok_pointers _ _ Hok) as (_ & _ & Hndp).
  pose proof Hstep1 as (Hlen & Hsame & Hrest & Horig & Htodo & Hplaced & Hevs & Hmoves).
  destruct (for_each_seq_inv retire_existing
    (λ _ st evs, evs = [] ∧ ∃ extra,
       pass_inv N (pointers (m_controllers s)) (moved1 ++ extra) st ∧
       (∀ q, q ∈ moved1 → ps_objects st q = ps_objects st1 q) ∧
       (∀ q, q ∉ moved1 ++ extra → ps_objects st q = ps_objects st1 q) ∧
       (∀ j q, ps_controllers st !! j = Some (Some q) →
               ps_controllers st1 !! j = Some (Some q))) N 0 st1)
    as (st2 & evs & Hrun & -> & extra & Hinv2 & Hkeep & _).
  - split; [done|]. exists []. rewrite app_nil_r. done.
  - intros i st evs Hi (-> & extra & Hinv & Hkeep & Hother & Hctrl).
    assert (i < length (ps_controllers st))%nat as Hlt by (destruct Hinv as (-> & _); lia).
    destruct (lookup_lt_is_Some_2 _ _ Hlt) as [[q|] Hci].
    + pose proof (pass_inv_fresh _ _ _ _ _ _ Hinv Hndp Hci) as Hfresh.
      assert (IsOpen (ps_objects st q) = false) as Hclosed.
      { rewrite (Hother q Hfresh). destruct (Hsame q) as [Ho' Hbq]. rewrite Ho'.
        destruct (IsOpen (objects s q)) eqn:Ho; [exfalso|done].
        pose proof (Horig _ _ (Hctrl _ _ Hci)) as Hmi.
        destruct (Hsess _ _ Hmi Ho) as [e He].
        assert (open_at s i q e) as Hat by done.
        assert (e ∈ es) as Hin by (apply Hset; eauto).
        apply list_elem_of_lookup_1 in Hin as [j Hj].
        destruct (lookup_lt_is_Some_2 moved1 j) as [q' Hq'].
        { rewrite Hlen. by eapply lookup_lt_Some. }
        pose proof (reorder_origin _ _ _ _ _ _ _ _ _ _ _ _ Hhyps Hstep1 Hat Hj Hq') as ->.
        apply Hfresh. apply elem_of_app. left. by eapply list_elem_of_lookup_2. }
      rewrite (retire_existing_Some _ _ _ _ _ _ Hinv Hci), Hclosed.
      eexists _, _. split; [done|]. split; [done|]. exists (extra ++ [q]).
      rewrite (assoc (++)). split; [by apply pass_inv_move|]. simpl.
      split; [|split].
      * intros q' Hq'. rewrite on_object_ne; [by apply Hkeep|].
        intros ->. apply Hfresh. apply elem_of_app. by left.
      * intros q' Hq'.
        assert (q ≠ q') as Hne.
        { intros ->. apply Hq'. rewrite !elem_of_app, list_elem_of_singleton. tauto. }
        rewrite on_object_ne by done. apply Hother.
        intros Hin. apply Hq'. rewrite !elem_of_app in *. tauto.
      * intros j q' Hq'. destruct (decide (j = i)) as [->|Hne].
        -- rewrite list_lookup_insert_eq in Hq' by done. done.
        -- rewrite list_lookup_insert_ne in Hq' by done. by apply Hctrl.
    + rewrite (retire_existing_None _ _ Hci). eexists _, _. split; [done|].
      split; [done|]. exists extra. done.
  - exists st2, extra. done.
Qed.

(** C6. On a full table whose sessions carry their positions as ids, when
    the snapshot lists exactly the identities of the open sessions, in any
    order, the pass writes nothing but reassignment lines, and every
    session that was open on an identity [e] ends in the slot of the
    position [k] of [e] in the snapshot, still open on [e], with id [k];
    the pass writes one reassignment line for it when [k] differs from the
    slot it was in and none when it does not. *)
Theorem reordering_keeps_sessions N es open_ok s :
  pool_ok N s → Z.of_nat N <= 2 ^ 31 →
  ids_ok s → sessions_ok s → identities_unique s →
  reordering s es →
  ∃ s' evs,
    update_connected_controllers N es open_ok s = Some (s', evs) ∧
    Forall (λ ev, ∃ i k, ev = LogInfo_moved i k) evs ∧
    ∀ i p e, open_at s i p e →
      ∃ k, es !! k = Some e ∧ open_at s' k p e ∧
           PSMoveID (objects s' p) = Z.of_nat k ∧
           filter (λ ev, is_moved_from i ev = true) evs =
           if decide (i = k) then [] else [LogInfo_moved i k].
Proof.
  intros Hok HN Hids Hsess Huniq Hre.
  assert (reorder_hyps N s es) as Hhyps by done.
  pose proof Hok as (Hlen & _ & _). destruct Hre as [Hnd Hset].
  destruct (pool_ok_pointers _ _ Hok) as (Heq & Hplen & Hndp).
  destruct (connect_all_reorder N s es open_ok es [] [] (pass_start N s) [] Hhyps)
    as (st1 & ev1 & moved1 & Hrun1 & Hinv1 & Hstep1); [done|by apply pass_inv_start| |].
  { unfold reorder_step1, pass_start. simpl.
    split; [done|]. split; [done|]. split; [done|]. split; [done|].
    split; [by intros i p e [? _] _|]. split; [intros j q Hq; by rewrite lookup_nil in Hq|].
    split; [|by apply Forall_nil].
    intros i p e j _ _. by destruct (decide (j < 0)%nat); [lia|]. }
  simpl in Hstep1.
  destruct (retire_all_reorder N s es moved1 st1 ev1 Hhyps Hinv1 Hstep1)
    as (st2 & extra & Hrun2 & Hinv2 & Hkeep).
  pose proof Hstep1 as (Hlen1 & Hsame & Hrest & Horig & Htodo & Hplaced & Hevs & Hmoves).
  eexists _, _. split.
  { unfold update_connected_controllers. fold (pass_start N s).
    rewrite Hrun1. simpl. rewrite Hrun2. simpl. done. }
  rewrite app_nil_r. split; [done|].
  intros i p e Hat.
  assert (e ∈ es) as Hin by (apply Hset; eauto).
  apply list_elem_of_lookup_1 in Hin as [k Hk].
  pose proof (lookup_lt_Some _ _ _ Hk) as Hklt.
  destruct (lookup_lt_is_Some_2 moved1 k) as [q Hq]; [by rewrite Hlen1|].
  pose proof (reorder_origin _ _ _ _ _ _ _ _ _ _ _ _ Hhyps Hstep1 Hat Hk Hq) as ->.
  assert (p ∈ moved1) as Hpin by (by eapply list_elem_of_lookup_2).
  exists k. split; [done|]. simpl. rewrite (Hkeep p Hpin). split; [|split].
  - split.
    + destruct Hinv2 as (_ & -> & _). simpl. rewrite lookup_app_l.
      * by rewrite list_lookup_fmap, lookup_app_l, Hq by lia.
      * rewrite length_fmap, length_app. lia.
    + destruct Hat as [_ [Ho Hb]]. destruct (Hsame p) as [Ho' Hb'].
      simpl. rewrite (Hkeep p Hpin). split; congruence.
  - destruct (Hplaced k p Hq) as (_ & _ & _ & _ & Hid). done.
  - rewrite (Hevs i p e k Hat Hk). by rewrite decide_True by lia.
Qed.

(** ** The poll pass *)

Lemma frames_of_app evs1 evs2 : frames_of (evs1 ++ evs2) = frames_of evs1 ++ frames_of evs2.
Proof. apply omap_app. Qed.

Lemma counting_app n a b :
  counting n (a + b) = counting n a ++ counting (n + Z.of_nat a) b.
Proof.
  unfold counting. rewrite seq_app, fmap_app. f_equal.
  replace (0 + a)%nat with (a + 0)%nat by lia.
  rewrite <- (fmap_add_seq a 0), <- list_fmap_compose.
  apply list_fmap_ext. intros _ k _. simpl. f_equal. lia.
Qed.

Lemma counts_nil n s : m_sequence_number s = int_wrap n → counts n [] s.
Proof. intros H. split; [done|]. simpl. rewrite H. f_equal. lia. Qed.

Lemma counts_app n evs ev s1 s2 :
  counts n evs s1 →
  counts (n + Z.of_nat (length (frames_of evs))) ev s2 →
  counts n (evs ++ ev) s2.
Proof.
  intros [Hs1 _] [Hs2 Hn]. unfold counts, stamps in *.
  rewrite frames_of_app, fmap_app, length_app, counting_app, Hs1, Hs2.
  split; [done|]. rewrite Hn. f_equal. lia.
Qed.

Lemma same_table_refl s : same_table s s.
Proof. done. Qed.

Lemma same_table_trans s1 s2 s3 : same_table s1 s2 → same_table s2 s3 → same_table s1 s3.
Proof. intros (?&?&?&?) (?&?&?&?). unfold same_table. repeat split; congruence. Qed.

(** One slot of the poll pass: it never fails on a slot that is not null,
    it touches no object but the one of that slot, and it numbers the frame
    it publishes, if any, with the counter. *)
Lemma poll_controller_spec bits reads i s p :
  m_controllers s !! i = Some (Some p) →
  ∃ s' ev,
    poll_controller bits reads i s = Some (s', ev) ∧
    same_table s s' ∧
    (∀ q, q ≠ p → objects s' q = objects s q) ∧
    (∀ n, m_sequence_number s = int_wrap n → counts n ev s').
Proof.
  intros Hi. unfold poll_controller, array_read. rewrite Hi. simpl.
  destruct (getIsOpen (objects s p)).
  - destruct (reads i) as [|pose st|]; simpl.
    + eexists _, _. split; [done|]. split; [done|]. split.
      * intros q Hne. simpl. by rewrite fn_lookup_insert_ne.
      * intros n Hn. by apply counts_nil.
    + eexists _, _. split; [done|]. split; [done|]. split.
      * intros q Hne. simpl. by rewrite fn_lookup_insert_ne.
      * intros n Hn. unfold counts, stamps, counting. simpl. rewrite Hn.
        split; [by rewrite Z.add_0_r|]. apply int_wrap_succ.
    + eexists _, _. split; [done|]. split; [done|]. split.
      * intros q Hne. simpl. rewrite on_object_ne by done. by rewrite fn_lookup_insert_ne.
      * intros n Hn. by apply counts_nil.
  - eexists _, _. split; [done|]. split; [done|]. split; [done|].
    intros n Hn. by apply counts_nil.
Qed.

(** A run of the poll loop over the slots [a, a+n). *)
Lemma poll_range_spec N bits reads a n s :
  (∀ i, (i < N)%nat → ∃ p, m_controllers s !! i = Some (Some p)) →
  (a + n ≤ N)%nat →
  ∃ s' evs,
    for_each (poll_controller bits reads) (seq a n) s = Some (s', evs) ∧
    same_table s s' ∧
    (∀ q, (∀ j, (a ≤ j < a + n)%nat → m_controllers s !! j ≠ Some (Some q)) →
          objects s' q = objects s q) ∧
    (∀ k, m_sequence_number s = int_wrap k → counts k evs s').
Proof.
  intros Hfull Hle.
  destruct (for_each_seq_inv (poll_controller bits reads)
    (λ i s' evs, same_table s s' ∧
       (∀ q, (∀ j, (a ≤ j < i)%nat → m_controllers s !! j ≠ Some (Some q)) →
             objects s' q = objects s q) ∧
       (∀ k, m_sequence_number s = int_wrap k → counts k evs s')) n a s)
    as (s' & evs & Hrun & Hst & Hframe & Hcount).
  - split; [done|]. split; [done|]. intros k Hk. by apply counts_nil.
  - intros i s1 evs Hi (Hst & Hframe & Hcount).
    destruct (Hfull i) as [p Hp]; [lia|].
    destruct (poll_controller_spec bits reads i s1 p) as (s2 & ev & Hstep & Hst2 & Hframe2 & Hcount2).
    { destruct Hst as (-> & _). done. }
    exists s2, ev. split; [done|]. split; [by eapply same_table_trans|]. split.
    + intros q Hq. rewrite Hframe2.
      * apply Hframe. intros j Hj. apply Hq. lia.
      * intros ->. by apply (Hq i); [lia|].
    + intros k Hk. eapply counts_app; [by apply Hcount|].
      apply Hcount2. by destruct (Hcount k Hk) as [_ ->].
  - exists s', evs. done.
Qed.

Lemma poll_open_controllers_spec N bits reads s :
  (∀ i, (i < N)%nat → ∃ p, m_controllers s !! i = Some (Some p)) →
  ∃ s' evs,
    poll_open_controllers N bits reads s = Some (s', evs) ∧
    same_table s s' ∧
    (∀ k, m_sequence_number s = int_wrap k → counts k evs s').
Proof.
  intros Hfull.
  destruct (poll_range_spec N bits reads 0 N s Hfull) as (s' & evs & Hrun & Hst & _ & Hc);
    [lia|]. exists s', evs. done.
Qed.

(** ** The hot-plug pass publishes nothing *)

Lemma connect_enumerated_no_frames open_ok e st st' ev go_on :
  connect_enumerated open_ok e st = Some (st', ev, go_on) → frames_of ev = [].
Proof.
  unfold connect_enumerated. intros H.
  destruct (find_open_controller_index _ _ e) as [ci|].
  - destruct (array_read _ ci) as [c|]; simpl in H; [|done].
    destruct (decide (ps_new_index st ≠ ci)).
    + destruct c as [p|]; simpl in H; [|done].
      destruct (array_write (ps_temp st) _ _); simpl in H; [|done].
      destruct (array_write (ps_controllers st) _ _); simpl in H; [|done].
      by simplify_eq.
    + simpl in H.
      destruct (array_write (ps_temp st) _ _); simpl in H; [|done].
      destruct (array_write (ps_controllers st) _ _); simpl in H; [|done].
      by simplify_eq.
  - destruct (find_first_closed_controller_index _ _) as [ci|].
    + destruct (array_read _ ci) as [[p|]|]; simpl in H; [|done..].
      destruct (array_write (ps_temp st) _ _); simpl in H; [|done].
      destruct (array_write (ps_controllers st) _ _); simpl in H; [|done].
      rewrite open_eq in H. simplify_eq. by destruct (open_ok _).
    + by simplify_eq.
Qed.

Lemma connect_all_no_frames open_ok es st st' evs :
  connect_all open_ok es st = Some (st', evs) → frames_of evs = [].
Proof.
  revert st evs. induction es as [|e es IH]; intros st evs H; simpl in H.
  - by simplify_eq.
  - destruct (connect_enumerated open_ok e st) as [[[st1 ev1] go_on]|] eqn:Hstep;
      simpl in H; [|done].
    pose proof (connect_enumerated_no_frames _ _ _ _ _ _ Hstep) as Hev1.
    destruct go_on; [|by simplify_eq].
    destruct (connect_all open_ok es st1) as [[st2 ev2]|] eqn:Hrest; simpl in H; [|done].
    simplify_eq. rewrite frames_of_app, Hev1. simpl. by eapply IH.
Qed.

Lemma retire_existing_no_frames i st st' ev :
  retire_existing i st = Some (st', ev) → frames_of ev = [].
Proof.
  unfold retire_existing. intros H.
  destruct (array_read _ i) as [[p|]|]; simpl in H; [| |done].
  - destruct (getIsOpen (ps_objects st p));
      destruct (array_write (ps_temp st) _ _); simpl in H; try done;
      destruct (array_write (ps_controllers st) _ _); simpl in H; try done;
      by simplify_eq.
  - by simplify_eq.
Qed.

Lemma for_each_no_frames {St} (body : nat → St → option (St * list Event)) idxs s s' evs :
  (∀ i s s' ev, body i s = Some (s', ev) → frames_of ev = []) →
  for_each body idxs s = Some (s', evs) → frames_of evs = [].
Proof.
  intros Hbody. revert s evs. induction idxs as [|i idxs IH]; intros s evs H; simpl in H.
  - by simplify_eq.
  - destruct (body i s) as [[s1 ev1]|] eqn:Hstep; simpl in H; [|done].
    destruct (for_each body idxs s1) as [[s2 ev2]|] eqn:Hrest; simpl in H; [|done].
    simplify_eq. rewrite frames_of_app, (Hbody _ _ _ _ Hstep). simpl. by eapply IH.
Qed.

Lemma pass_no_frames N es open_ok s s' evs :
  update_connected_controllers N es open_ok s = Some (s', evs) → frames_of evs = [].
Proof.
  unfold update_connected_controllers. intros H.
  destruct (connect_all _ _ _) as [[st1 ev1]|] eqn:H1; simpl in H; [|done].
  destruct (for_each _ _ st1) as [[st2 ev2]|] eqn:H2; simpl in H; [|done].
  simplify_eq. rewrite frames_of_app, (connect_all_no_frames _ _ _ _ _ H1).
  simpl. eapply for_each_no_frames; [|exact H2]. apply retire_existing_no_frames.
Qed.

(** ** The scheduler *)

Lemma pool_ok_same_controllers N s s' :
  m_controllers s' = m_controllers s → pool_ok N s → pool_ok N s'.
Proof. intros Heq. unfold pool_ok. by rewrite Heq. Qed.

Lemma pool_ok_full N s :
  pool_ok N s → ∀ i, (i < N)%nat → ∃ p, m_controllers s !! i = Some (Some p).
Proof. by intros (_ & ? & _). Qed.



(** One call of [update], taken apart. *)
Lemma update_cases N bits inp s cfg :
  pool_ok N s → m_config s = Some cfg →
  ∃ s1 ev1 s2 ev2,
    update N bits inp s = Some (s2, ev1 ++ ev2) ∧
    (poll_due cfg (tick_now inp) s →
       ∃ s1', poll_open_controllers N bits (tick_reads inp) s = Some (s1', ev1) ∧
              s1 = set_last_poll_time (tick_now inp) s1') ∧
    (¬ poll_due cfg (tick_now inp) s → s1 = s ∧ ev1 = []) ∧
    (reconnect_due cfg (tick_now inp) s →
       ∃ s2', update_connected_controllers N (tick_enumerator inp) (tick_open_ok inp) s1
                = Some (s2', ev2) ∧
              s2 = set_last_reconnect_time (tick_now inp) s2') ∧
    (¬ reconnect_due cfg (tick_now inp) s → s2 = s1 ∧ ev2 = []) ∧
    m_last_poll_time s2
      = (if decide (poll_due cfg (tick_now inp) s) then tick_now inp
         else m_last_poll_time s) ∧
    m_last_reconnect_time s2
      = (if decide (reconnect_due cfg (tick_now inp) s) then tick_now inp
         else m_last_reconnect_time s) ∧
    pool_ok N s2 ∧ m_config s2 = Some cfg ∧
    (∀ k, m_sequence_number s = int_wrap k → counts k (ev1 ++ ev2) s2).
Proof.
  intros Hok Hcfg. unfold update. rewrite Hcfg. simpl.
  (* the poll pass, if it is due *)
  assert (∃ s1 ev1,
    (if decide (poll_due cfg (tick_now inp) s)
     then poll_open_controllers N bits (tick_reads inp) s
          ≫= (λ '(s', ev), Some (set_last_poll_time (tick_now inp) s', ev))
     else Some (s, [])) = Some (s1, ev1) ∧
    (poll_due cfg (tick_now inp) s →
       ∃ s1', poll_open_controllers N bits (tick_reads inp) s = Some (s1', ev1) ∧
              s1 = set_last_poll_time (tick_now inp) s1') ∧
    (¬ poll_due cfg (tick_now inp) s → s1 = s ∧ ev1 = []) ∧
    m_controllers s1 = m_controllers s ∧ m_config s1 = m_config s ∧
    m_last_reconnect_time s1 = m_last_reconnect_time s ∧
    m_last_poll_time s1
      = (if decide (poll_due cfg (tick_now inp) s) then tick_now inp
         else m_last_poll_time s) ∧
    (∀ k, m_sequence_number s = int_wrap k → counts k ev1 s1))
    as (s1 & ev1 & -> & Hp1 & Hp2 & Hc1 & Hcfg1 & Hr1 & Ht1 & Hcount1).
  { destruct (decide (poll_due cfg (tick_now inp) s)) as [Hdue|Hdue].
    - destruct (poll_open_controllers_spec N bits (tick_reads inp) s (pool_ok_full _ _ Hok))
        as (s1' & ev1 & Hpoll & (Hc & Hcf & Hr & Ht) & Hcount).
      rewrite Hpoll. simpl. eexists _, _. split; [done|].
      split; [by eauto|]. split; [done|]. simpl.
      split; [done|]. split; [done|]. split; [done|]. split; [done|].
      intros k Hk. destruct (Hcount k Hk) as [? ?]. by split.
    - exists s, []. split; [done|]. split; [done|]. split; [done|].
      split; [done|]. split; [done|]. split; [done|]. split; [done|].
      intros k Hk. by apply counts_nil. }
  simpl.
  assert (reconnect_due cfg (tick_now inp) s1 ↔ reconnect_due cfg (tick_now inp) s) as Hiff.
  { unfold reconnect_due. by rewrite Hr1. }
  assert (pool_ok N s1) as Hok1 by (by eapply pool_ok_same_controllers).
  destruct (decide (reconnect_due cfg (tick_now inp) s1)) as [Hdue|Hdue].
  - destruct (pass_permutes N (tick_enumerator inp) (tick_open_ok inp) s1 Hok1)
      as (s2' & ev2 & Hpass & _ & Hok2 & _ & Hcfg2 & Hseq2 & _ & Ht2).
    rewrite Hpass. simpl.
    exists s1, ev1, (set_last_reconnect_time (tick_now inp) s2'), ev2.
    split; [done|]. split; [done|]. split; [done|].
    split; [by eauto|]. split; [by intros Hn; exfalso; apply Hn, Hiff|].
    simpl. split; [congruence|].
    split; [by rewrite decide_True by (by apply Hiff)|].
    split; [by eapply pool_ok_same_controllers|].
    split; [congruence|].
    intros k Hk. eapply counts_app; [by apply Hcount1|].
    unfold counts, stamps. rewrite (pass_no_frames _ _ _ _ _ _ Hpass). simpl.
    split; [done|]. rewrite Hseq2. destruct (Hcount1 k Hk) as [_ ->]. f_equal. lia.
  - exists s1, ev1, s1, []. simpl.
    split; [done|]. split; [done|]. split; [done|].
    split; [by intros Hy; exfalso; apply Hdue, Hiff|]. split; [done|].
    split; [done|]. split; [by rewrite Hr1, decide_False by (by rewrite <- Hiff)|].
    split; [done|]. split; [congruence|].
    intros k Hk. rewrite app_nil_r. by apply Hcount1.
Qed.


(** ** The life of the process *)

Lemma run_spec N bits cfg inps s :
  pool_ok N s → m_config s = Some cfg →
  ∃ s' evs,
    run N bits inps s = Some (s', evs) ∧
    pool_ok N s' ∧ m_config s' = Some cfg ∧
    (∀ k, m_sequence_number s = int_wrap k → counts k evs s').
Proof.
  revert s. induction inps as [|inp inps IH]; intros s Hok Hcfg; simpl.
  - exists s, []. split; [done|]. split; [done|]. split; [done|].
    intros k Hk. by apply counts_nil.
  - destruct (update_cases N bits inp s cfg Hok Hcfg)
      as (_ & ev1 & s2 & ev2 & -> & _ & _ & _ & _ & _ & _ & Hok2 & Hcfg2 & Hcount).
    simpl. destruct (IH s2 Hok2 Hcfg2) as (s' & evs & -> & Hok' & Hcfg' & Hcount').
    simpl. eexists _, _. split; [done|]. split; [done|]. split; [done|].
    intros k Hk. eapply counts_app; [by apply Hcount|].
    apply Hcount'. by destruct (Hcount k Hk) as [_ ->].
Qed.

Lemma counting_lookup n len k : (k < len)%nat → counting n len !! k = Some (int_wrap (n + Z.of_nat k)).
Proof.
  intros Hk. unfold counting. rewrite list_lookup_fmap, lookup_seq_lt by done. done.
Qed.

(** The frames of a started manager are numbered by an [int] that counts
    up from zero. *)
Lemma run_stamps N bits hid_init_ok cfg inps :
  ∃ s evs,
    run N bits inps (startup hid_init_ok cfg (ControllerManagerImpl_new N)).1.1
      = Some (s, evs) ∧
    ∀ k f, frames_of evs !! k = Some f → sequence_num f = int_wrap (Z.of_nat k).
Proof.
  destruct (run_spec N bits cfg inps
              (startup hid_init_ok cfg (ControllerManagerImpl_new N)).1.1)
    as (s & evs & Hrun & _ & _ & Hcount).
  { eapply pool_ok_same_controllers; [|apply pool_ok_new]. by destruct hid_init_ok. }
  { by destruct hid_init_ok. }
  exists s, evs. split; [done|]. intros k f Hf.
  destruct (Hcount 0) as [Hst _]; [by destruct hid_init_ok|].
  pose proof (lookup_lt_Some _ _ _ Hf) as Hlt.
  assert (stamps evs !! k = Some (sequence_num f)) as Hs.
  { unfold stamps. by rewrite list_lookup_fmap, Hf. }
  rewrite Hst, counting_lookup in Hs by done. simplify_eq. done.
Qed.

(** C2, as the code has it. Whatever calls of [update] make up the life of
    the process, they run without fault and the frames they publish carry,
    in publish order, the values of a 32-bit signed counter that starts at
    zero and is incremented once per frame, whatever slot a frame is for:
    frame number [k] (from zero) carries [k] as long as [k] is below 2^31,
    and [k] wrapped into the range of [int] in general. *)
Theorem sequence_numbers_count_up N bits hid_init_ok cfg inps :
  ∃ s evs,
    run N bits inps (startup hid_init_ok cfg (ControllerManagerImpl_new N)).1.1
      = Some (s, evs) ∧
    ∀ k f, frames_of evs !! k = Some f →
      sequence_num f = int_wrap (Z.of_nat k) ∧
      (Z.of_nat k < 2 ^ 31 → sequence_num f = Z.of_nat k).
Proof.
  destruct (run_stamps N bits hid_init_ok cfg inps) as (s & evs & Hrun & Hst).
  exists s, evs. split; [done|]. intros k f Hf. rewrite (Hst k f Hf).
  split; [done|]. intros Hk. apply int_wrap_small. lia.
Qed.

(** ** The two stubs *)

(** C10. [setControllerRumble] and [resetPose] answer false and leave the
    manager as it is, whatever their arguments. *)
Theorem rumble_and_reset_do_nothing psmove_id rumble_amount s :
  setControllerRumble psmove_id rumble_amount s = (s, false) ∧
  resetPose psmove_id s = (s, false).
Proof. done. Qed.

(** ** A failed read *)

Lemma seq_split_at i N :
  (i < N)%nat → seq 0 N = seq 0 i ++ [i] ++ seq (S i) (N - S i).
Proof.
  intros Hi. replace N with (i + S (N - S i))%nat at 1 by lia.
  rewrite seq_app. simpl. done.
Qed.

(** C8. In a poll pass over a full table, when the read of the open
    session in slot [i] fails, the iteration for that slot closes that
    session, writes one log line and publishes no frame, and changes no
    other object, nor the table, nor the counter; the iterations before and
    after it do not touch that session, so it is closed when the pass
    ends, and the table is as it was. *)
Theorem read_failure_closes_only_that_session N bits reads s i p :
  pool_ok N s → (i < N)%nat →
  m_controllers s !! i = Some (Some p) →
  IsOpen (objects s p) = true →
  reads i = InFailure →
  ∃ sa before sb after s',
    for_each (poll_controller bits reads) (seq 0 i) s = Some (sa, before) ∧
    poll_controller bits reads i sa = Some (sb, [LogInfo_failed_read i]) ∧
    for_each (poll_controller bits reads) (seq (S i) (N - S i)) sb = Some (s', after) ∧
    poll_open_controllers N bits reads s
      = Some (s', before ++ [LogInfo_failed_read i] ++ after) ∧
    IsOpen (objects sb p) = false ∧ bound_identity (objects sb p) = None ∧
    (∀ q, q ≠ p → objects sb q = objects sa q) ∧
    m_controllers sb = m_controllers sa ∧
    m_sequence_number sb = m_sequence_number sa ∧
    IsOpen (objects s' p) = false ∧
    m_controllers s' = m_controllers s.
Proof.
  intros Hok Hi Hp Hopen Hfail. pose proof Hok as (Hlen & Hfull & Hnd).
  assert (∀ j, j ≠ i → m_controllers s !! j ≠ Some (Some p)) as Hother.
  { intros j Hne Hj. apply Hne. by eapply (NoDup_lookup (m_controllers s)). }
  destruct (poll_range_spec N bits reads 0 i s Hfull) as (sa & before & Hrun1 & Hst1 & Hfr1 & _);
    [lia|].
  assert (objects sa p = objects s p) as Hpa.
  { apply Hfr1. intros j Hj. apply Hother. lia. }
  pose proof Hst1 as (Hca & _).
  assert (∃ sb, poll_controller bits reads i sa = Some (sb, [LogInfo_failed_read i]) ∧
                m_controllers sb = m_controllers sa ∧
                m_sequence_number sb = m_sequence_number sa ∧
                objects sb p = close (objects sa p) ∧
                ∀ q, q ≠ p → objects sb q = objects sa q)
    as (sb & Hstep & Hcb & Hsb & Hpb & Hfrb).
  { unfold poll_controller, array_read. rewrite Hca, Hp. simpl.
    unfold getIsOpen. rewrite Hpa, Hopen, Hfail. simpl.
    eexists. split; [done|]. simpl. split; [done|]. split; [done|]. split.
    - by rewrite on_object_eq, fn_lookup_insert.
    - intros q Hne. rewrite on_object_ne by done. by rewrite fn_lookup_insert_ne. }
  destruct (poll_range_spec N bits reads (S i) (N - S i) sb) as (s' & after & Hrun2 & Hst2 & Hfr2 & _).
  { intros j Hj. rewrite Hcb, Hca. by apply Hfull. }
  { lia. }
  assert (objects s' p = objects sb p) as Hps.
  { apply Hfr2. intros j Hj. rewrite Hcb, Hca. apply Hother. lia. }
  exists sa, before, sb, after, s'.
  split; [done|]. split; [done|]. split; [done|]. split.
  { unfold poll_open_controllers.
    rewrite (seq_split_at i N Hi), for_each_app, Hrun1. simpl.
    rewrite Hstep. simpl. rewrite Hrun2. simpl. done. }
  rewrite Hps, Hpb. simpl.
  split; [done|]. split; [done|]. split; [done|].
  split; [done|]. split; [done|]. split; [done|].
  destruct Hst2 as (-> & _). congruence.
Qed.

(** ** The published button bitmask *)

(** Whatever the buttons, the frame goes out with the bitmask zero. *)
Lemma publish_controller_data_frame_bitmask bits controller s :
  ∃ s' f, publish_controller_data_frame bits controller s = (s', [Publish f]) ∧
          button_down_bitmask f = 0 ∧
          sequence_num f = m_sequence_number s ∧
          psmove_id f = PSMoveID (objects s controller) ∧
          trigger_value f = Trigger (State (objects s controller)).
Proof. unfold publish_controller_data_frame. eexists _, _. split; [done|]. done. Qed.

(** C1, at an input where the code departs from it. One controller is
    opened on A and then read with the triangle button down: the frame that
    is published has the bitmask zero, so the triangle bit is not set,
    although the local bitmask the publisher computed has it set. *)
Theorem published_bitmask_is_zero :
  ∃ s1 ev1 s2 f,
    update_connected_controllers 1 ["A"] (always true) (ControllerManagerImpl_new 1)
      = Some (s1, ev1) ∧
    poll_open_controllers 1 example_bits (λ _, InNewData some_pose triangle_down) s1
      = Some (s2, [Publish f]) ∧
    Triangle (State (objects s2 0%nat)) = Button_DOWN ∧
    button_down_bitmask f = 0 ∧
    Z.testbit (button_down_bitmask f) (example_bits TRIANGLE) = false ∧
    Z.testbit (button_bitmask_of example_bits triangle_down) (example_bits TRIANGLE) = true.
Proof.
  eexists _, _, _, _. split; [reflexivity|]. split; [reflexivity|]. done.
Qed.

(** ** Concrete passes *)

Lemma pool_ok_two_open : pool_ok 2 two_open.
Proof.
  apply (pool_ok_of_pointers 2 _ [0; 1]%nat); [done|done|].
  apply NoDup_cons. split; [by intros ?%list_elem_of_singleton|apply NoDup_singleton].
Qed.

(** C3, where it fails. One controller, open on A; the snapshot is [B].
    The first pass cannot take the session, which is still open, for B: it
    writes the capacity error and then closes the session. No open was
    attempted, so none failed. The second pass with the same snapshot opens
    the session on B and writes a line. *)
Lemma second_pass_after_capacity_error :
  ∃ s0 ev0 s1 ev1 s2 ev2,
    update_connected_controllers 1 ["A"] (always true) (ControllerManagerImpl_new 1)
      = Some (s0, ev0) ∧
    update_connected_controllers 1 ["B"] (always true) s0 = Some (s1, ev1) ∧
    update_connected_controllers 1 ["B"] (always true) s1 = Some (s2, ev2) ∧
    ev1 = [LogError_too_many; LogWarning_closing 0] ∧
    ev2 = [LogInfo_connected 0] ∧
    IsOpen (objects s1 0%nat) = false ∧
    IsOpen (objects s2 0%nat) = true.
Proof.
  eexists _, _, _, _, _, _.
  split; [reflexivity|]. split; [reflexivity|]. split; [reflexivity|]. done.
Qed.

Lemma update_connected_controllers_idempotent_witness :
  pool_ok 2 two_open ∧ (∀ j, always true j = true) ∧
  ∃ s1 ev1,
    update_connected_controllers 2 ["B"; "A"] (always true) two_open = Some (s1, ev1) ∧
    (LogError_too_many ∉ ev1 →
     ∃ s2, update_connected_controllers 2 ["B"; "A"] (always false) s1 = Some (s2, []) ∧
           state_eq s2 s1).
Proof.
  split; [apply pool_ok_two_open|]. split; [done|].
  apply (update_connected_controllers_idempotent 2 ["B"; "A"] (always true) (always false)
           two_open); [apply pool_ok_two_open|done].
Defined.


Lemma update_connected_controllers_permutes_witness :
  pool_ok 2 two_open ∧
  ∃ s' evs,
    update_connected_controllers 2 ["B"; "A"] (always true) two_open = Some (s', evs) ∧
    m_controllers s' ≡ₚ m_controllers two_open ∧
    pool_ok 2 s' ∧
    same_readings (objects two_open) (objects s') ∧
    m_config s' = m_config two_open ∧
    m_sequence_number s' = m_sequence_number two_open ∧
    m_last_reconnect_time s' = m_last_reconnect_time two_open ∧
    m_last_poll_time s' = m_last_poll_time two_open.
Proof.
  split; [apply pool_ok_two_open|].
  apply (update_connected_controllers_permutes 2 ["B"; "A"] (always true) two_open).
  apply pool_ok_two_open.
Defined.

Lemma two_open_slots i p :
  m_controllers two_open !! i = Some (Some p) → (i = 0 ∧ p = 0)%nat ∨ (i = 1 ∧ p = 1)%nat.
Proof.
  destruct i as [|[|i]]; simpl; intros H; simplify_eq; auto.
Qed.

Lemma two_open_open_at i p e :
  open_at two_open i p e ↔ (i = 0%nat ∧ p = 0%nat ∧ e = "A") ∨ (i = 1%nat ∧ p = 1%nat ∧ e = "B").
Proof.
  split.
  - intros [Hl [_ Hb]]. destruct (two_open_slots _ _ Hl) as [[-> ->]|[-> ->]];
      simpl in Hb; simplify_eq; auto.
  - intros [(-> & -> & ->)|(-> & -> & ->)]; done.
Qed.

Lemma reordering_keeps_sessions_witness :
  pool_ok 2 two_open ∧ ids_ok two_open ∧ sessions_ok two_open ∧
  identities_unique two_open ∧ reordering two_open ["B"; "A"] ∧
  ∃ s' evs,
    update_connected_controllers 2 ["B"; "A"] (always true) two_open = Some (s', evs) ∧
    Forall (λ ev, ∃ i k, ev = LogInfo_moved i k) evs ∧
    ∀ i p e, open_at two_open i p e →
      ∃ k, ["B"; "A"] !! k = Some e ∧ open_at s' k p e ∧
           PSMoveID (objects s' p) = Z.of_nat k ∧
           filter (λ ev, is_moved_from i ev = true) evs =
           if decide (i = k) then [] else [LogInfo_moved i k].
Proof.
  assert (ids_ok two_open) as Hids.
  { intros i p Hl. by destruct (two_open_slots _ _ Hl) as [[-> ->]|[-> ->]]. }
  assert (sessions_ok two_open) as Hsess.
  { intros i p Hl _. by destruct (two_open_slots _ _ Hl) as [[-> ->]|[-> ->]]. }
  assert (identities_unique two_open) as Huniq.
  { intros i i' p p' e H1 H2. apply two_open_open_at in H1, H2.
    destruct H1 as [(-> & -> & ->)|(-> & -> & ->)], H2 as [(-> & -> & ?)|(-> & -> & ?)];
      done. }
  assert (reordering two_open ["B"; "A"]) as Hre.
  { split.
    - apply NoDup_cons. split; [by intros ?%list_elem_of_singleton|apply NoDup_singleton].
    - intros e. split.
      + intros [->|[->|[]%elem_of_nil]%elem_of_cons]%elem_of_cons.
        * exists 1%nat, 1%nat. by apply two_open_open_at; right.
        * exists 0%nat, 0%nat. by apply two_open_open_at; left.
      + intros (i & p & [(-> & -> & ->)|(-> & -> & ->)]%two_open_open_at).
        * apply elem_of_cons. right. apply elem_of_cons. by left.
        * apply elem_of_cons. by left. }
  split; [apply pool_ok_two_open|]. split; [done|]. split; [done|]. split; [done|].
  split; [done|].
  apply (reordering_keeps_sessions 2 ["B"; "A"] (always true) two_open);
    [apply pool_ok_two_open|by vm_compute|done..].
Defined.

(** C7, where it fails. One closed controller, the device A attached, and
    the open fails: the pass ends with the session closed in slot 0 and
    has written no line at all, so none about the failure. *)
Lemma failed_open_writes_no_line :
  ∃ s',
    update_connected_controllers 1 ["A"] (always false) (ControllerManagerImpl_new 1)
      = Some (s', []) ∧
    m_controllers s' = [Some 0%nat] ∧
    IsOpen (objects s' 0%nat) = false.
Proof. eexists. split; [reflexivity|]. done. Qed.

Lemma failed_open_consumes_position_witness :
  length (m_controllers (ControllerManagerImpl_new 2)) = 2%nat ∧
  connect_all only_first ["A"] (pass_start 2 (ControllerManagerImpl_new 2))
    = Some (after_A, [LogInfo_connected 0]) ∧
  ∃ p st',
    ps_controllers after_A !! 1%nat = Some (Some p) ∧
    IsOpen (ps_objects after_A p) = false ∧
    connect_enumerated only_first "B" after_A = Some (st', [], true) ∧
    ps_temp st' !! 1%nat = Some (Some p) ∧
    ps_new_index st' = 2%nat ∧
    IsOpen (ps_objects st' p) = false ∧
    bound_identity (ps_objects st' p) = bound_identity (ps_objects after_A p) ∧
    PSMoveID (ps_objects st' p) = static_cast_int 1 ∧
    ∀ rest, connect_all only_first (["A"] ++ "B" :: rest)
              (pass_start 2 (ControllerManagerImpl_new 2)) =
            '(st2, ev2) ← connect_all only_first rest st';
            Some (st2, [LogInfo_connected 0] ++ ev2).
Proof.
  split; [reflexivity|]. split; [reflexivity|].
  apply (failed_open_consumes_position 2 (ControllerManagerImpl_new 2) only_first
           ["A"] "B" after_A [LogInfo_connected 0] 1);
    [reflexivity|reflexivity|by intros ?%list_elem_of_singleton
    |reflexivity|reflexivity|reflexivity].
Defined.

Lemma read_failure_closes_only_that_session_witness :
  pool_ok 2 two_open ∧
  ∃ sa before sb after s',
    for_each (poll_controller example_bits (λ _, InFailure)) (seq 0 1) two_open
      = Some (sa, before) ∧
    poll_controller example_bits (λ _, InFailure) 1 sa = Some (sb, [LogInfo_failed_read 1]) ∧
    for_each (poll_controller example_bits (λ _, InFailure)) (seq 2 (2 - 2)) sb
      = Some (s', after) ∧
    poll_open_controllers 2 example_bits (λ _, InFailure) two_open
      = Some (s', before ++ [LogInfo_failed_read 1] ++ after) ∧
    IsOpen (objects sb 1%nat) = false ∧ bound_identity (objects sb 1%nat) = None ∧
    (∀ q, q ≠ 1%nat → objects sb q = objects sa q) ∧
    m_controllers sb = m_controllers sa ∧
    m_sequence_number sb = m_sequence_number sa ∧
    IsOpen (objects s' 1%nat) = false ∧
    m_controllers s' = m_controllers two_open.
Proof.
  split; [apply pool_ok_two_open|].
  apply (read_failure_closes_only_that_session 2 example_bits (λ _, InFailure) two_open
           1%nat 1%nat);
    [apply pool_ok_two_open|lia|reflexivity|reflexivity|reflexivity].
Defined.



(** ** A counter of 32 bits *)

Lemma pool_ok_polling t s : polling t s → pool_ok 1 s.
Proof.
  intros (_ & Hc & _). apply (pool_ok_of_pointers 1 s [0%nat]); [done|done|].
  apply NoDup_singleton.
Qed.

(** A polling manager publishes one frame at each poll tick and goes on
    polling. *)
Lemma poll_tick_publishes t s :
  polling t s →
  ∃ s' evs,
    update 1 example_bits (poll_tick (t + 2000)) s = Some (s', evs) ∧
    polling (t + 2000) s' ∧ length (frames_of evs) = 1%nat.
Proof.
  intros Hpoll. pose proof (pool_ok_polling _ _ Hpoll) as Hok.
  destruct Hpoll as (Hcfg & Hc & Ht & Ho & Hb).
  destruct (update_cases 1 example_bits (poll_tick (t + 2000)) s default_config Hok Hcfg)
    as (s1 & ev1 & s2 & ev2 & Hupd & Hp & _ & Hr & Hnr & _ & _ & _ & Hcfg2 & _).
  simpl in Hp, Hr, Hnr.
  assert (poll_due default_config (t + 2000) s) as Hdue.
  { unfold poll_due, total_milliseconds. rewrite Ht.
    replace (t + 2000 - t) with 2000 by lia. by vm_compute. }
  destruct (Hp Hdue) as (s1' & Hpass & ->).
  assert (∃ f, ev1 = [Publish f] ∧ m_config s1' = Some default_config ∧
               m_controllers s1' = [Some 0%nat] ∧ bound_to (objects s1' 0%nat) "A")
    as (f & -> & Hcfg1 & Hc1 & Hb1).
  { unfold poll_open_controllers in Hpass. simpl in Hpass.
    unfold poll_controller, array_read in Hpass. rewrite Hc in Hpass. simpl in Hpass.
    unfold getIsOpen in Hpass. rewrite Ho in Hpass. simpl in Hpass.
    injection Hpass as <- <-. eexists. split; [done|]. simpl.
    split; [done|]. split; [done|]. rewrite fn_lookup_insert. by split. }
  exists s2, ([Publish f] ++ ev2). split; [done|].
  destruct (decide (reconnect_due default_config (t + 2000) s)) as [Hrd|Hrd].
  - destruct (Hr Hrd) as (s2' & Hrec & ->).
    destruct (settled_pass_noop 1 ["A"] (always true) (set_last_poll_time (t + 2000) s1'))
      as (s2'' & Hnoop & Hcf & Hcc & _ & _ & Hlp & Hobj).
    { split; [simpl; by rewrite Hc1|]. split; [simpl; lia|].
      intros j Hj. assert (j = 0%nat) as -> by lia. exists 0%nat. simpl.
      rewrite Hc1. done. }
    rewrite Hnoop in Hrec. injection Hrec as <- <-.
    split; [|done]. unfold polling. simpl. rewrite Hcf, Hcc, Hlp, Hobj. done.
  - destruct (Hnr Hrd) as [-> ->]. split; [|done]. by unfold polling.
Qed.

Lemma poll_ticks_frames n t s :
  polling t s →
  ∃ s' evs, run 1 example_bits (poll_ticks t n) s = Some (s', evs) ∧
            length (frames_of evs) = n.
Proof.
  revert t s. induction n as [|n IH]; intros t s Hpoll; simpl.
  - by exists s, [].
  - destruct (poll_tick_publishes t s Hpoll) as (s1 & ev1 & -> & Hpoll1 & Hlen1). simpl.
    destruct (IH _ _ Hpoll1) as (s2 & ev2 & -> & Hlen2). simpl.
    eexists _, _. split; [done|]. rewrite frames_of_app, length_app. lia.
Qed.

(** After the first tick and [n+1] poll ticks, frame number [n] has been
    published and carries [n] wrapped into the range of [int]. *)
Lemma wrap_run_frames n :
  ∃ s evs f,
    run 1 example_bits (first_tick :: poll_ticks 1000000 (S n)) (started 1) = Some (s, evs) ∧
    frames_of evs !! n = Some f ∧
    sequence_num f = int_wrap (Z.of_nat n).
Proof.
  destruct (run_stamps 1 example_bits true default_config
              (first_tick :: poll_ticks 1000000 (S n)))
    as (s & evs & Hrun & Hst).
  fold (started 1) in Hrun.
  assert (length (frames_of evs) = S n) as Hlen.
  { assert (∃ s1, update 1 example_bits first_tick (started 1)
                    = Some (s1, [LogInfo_connected 0]) ∧ polling 1000000 s1)
      as (s1 & Hfirst & Hpoll).
    { eexists. split; [reflexivity|]. unfold polling. repeat split; reflexivity. }
    destruct (poll_ticks_frames (S n) _ _ Hpoll) as (s2 & ev2 & Hrest & Hlen).
    change (run 1 example_bits (first_tick :: poll_ticks 1000000 (S n)) (started 1))
      with ('(s1, ev1) ← update 1 example_bits first_tick (started 1);
            '(s2, ev2) ← run 1 example_bits (poll_ticks 1000000 (S n)) s1;
            Some (s2, ev1 ++ ev2)) in Hrun.
    rewrite Hfirst in Hrun. simpl in Hrun. simpl in Hrest. rewrite Hrest in Hrun.
    simpl in Hrun. injection Hrun as <- <-. done. }
  destruct (lookup_lt_is_Some_2 (frames_of evs) n) as [f Hf]; [lia|].
  exists s, evs, f. split; [done|]. split; [done|]. by apply Hst.
Qed.

(** C2, where it fails. A manager of one controller is started with the
    default configuration; the device A is attached; after the first call
    of [update] the host calls it every two milliseconds and every read
    brings new data. Frame number 2^31 of this run does not carry 2^31: it
    carries -2^31. *)
Lemma sequence_number_wraps :
  ∃ s evs f,
    run 1 example_bits (first_tick :: poll_ticks 1000000 (S (Z.to_nat (2 ^ 31)))) (started 1)
      = Some (s, evs) ∧
    frames_of evs !! Z.to_nat (2 ^ 31) = Some f ∧
    sequence_num f = - 2 ^ 31.
Proof.
  destruct (wrap_run_frames (Z.to_nat (2 ^ 31))) as (s & evs & f & Hrun & Hf & Hseq).
  exists s, evs, f. split; [exact Hrun|]. split; [exact Hf|].
  rewrite Hseq. rewrite Z2Nat.id by lia. reflexivity.
Qed.

(** * Further properties of the code *)

(** ** The button bitmask the publisher computes *)

Lemma is_down_decide st :
  bool_decide (st = Button_DOWN ∨ st = Button_PRESSED) = is_down st.
Proof. destruct st; by vm_compute. Qed.

Lemma SET_BUTTON_BIT_testbit bits bitmask b st n :
  0 <= n < 32 → 0 <= bits b →
  Z.testbit (SET_BUTTON_BIT bits bitmask b st) n
  = Z.testbit bitmask n || (is_down st && (bits b =? n)).
Proof.
  intros Hn Hb. unfold SET_BUTTON_BIT, uint_wrap.
  rewrite Z.mod_pow2_bits_low by lia. rewrite Z.lor_spec, is_down_decide.
  destruct (is_down st); simpl.
  - by rewrite Z.shiftl_1_l, Z.pow2_bits_eqb by lia.
  - by rewrite Z.bits_0.
Qed.

Lemma button_bitmask_of_testbit bits st n :
  (∀ b, 0 <= bits b) → 0 <= n < 32 →
  Z.testbit (button_bitmask_of bits st) n
  = existsb (λ b, is_down (button_state st b) && (bits b =? n)) all_buttons.
Proof.
  intros Hb Hn. unfold button_bitmask_of.
  rewrite !SET_BUTTON_BIT_testbit by auto. rewrite Z.bits_0. simpl.
  rewrite orb_false_r. by rewrite <- !orb_assoc.
Qed.

(** X1. When the protocol gives the eight buttons eight different bits
    below 32, the local bitmask that [publish_controller_data_frame]
    computes has the bit of a button set exactly when that button is down
    or pressed, has no other bit set, and fits an unsigned int. *)
Theorem button_bitmask_of_spec bits st :
  (∀ b, 0 <= bits b < 32) →
  (∀ b b', bits b = bits b' → b = b') →
  (∀ b, Z.testbit (button_bitmask_of bits st) (bits b) = is_down (button_state st b)) ∧
  (∀ n, 0 <= n < 32 → (∀ b, bits b ≠ n) → Z.testbit (button_bitmask_of bits st) n = false) ∧
  0 <= button_bitmask_of bits st < 2 ^ 32.
Proof.
  intros Hrange Hinj. split; [|split].
  - intros b. rewrite button_bitmask_of_testbit; [|intros b'; apply Hrange|apply Hrange].
    unfold all_buttons. simpl.
    assert (∀ b', (bits b' =? bits b) = bool_decide (b' = b)) as Heq.
    { intros b'. destruct (Z.eqb_spec (bits b') (bits b)) as [H|H].
      - apply Hinj in H. by rewrite bool_decide_eq_true_2.
      - rewrite bool_decide_eq_false_2; [done|]. by intros ->. }
    rewrite !Heq. destruct b; simpl; rewrite ?andb_false_r, ?andb_true_r, ?orb_false_r; done.
  - intros n Hn Hnone. rewrite button_bitmask_of_testbit; [|intros b'; apply Hrange|done].
    unfold all_buttons. simpl.
    assert (∀ b', (bits b' =? n) = false) as Heq.
    { intros b'. apply Z.eqb_neq, Hnone. }
    by rewrite !Heq, !andb_false_r.
  - unfold button_bitmask_of, SET_BUTTON_BIT at 1, uint_wrap.
    apply Z.mod_pos_bound. lia.
Qed.

Lemma button_bitmask_of_spec_witness :
  (∀ b, 0 <= example_bits b < 32) ∧
  (∀ b b', example_bits b = example_bits b' → b = b') ∧
  (∀ b, Z.testbit (button_bitmask_of example_bits triangle_down) (example_bits b)
        = is_down (button_state triangle_down b)) ∧
  (∀ n, 0 <= n < 32 → (∀ b, example_bits b ≠ n) →
        Z.testbit (button_bitmask_of example_bits triangle_down) n = false) ∧
  0 <= button_bitmask_of example_bits triangle_down < 2 ^ 32.
Proof.
  assert (∀ b, 0 <= example_bits b < 32) as H1 by (intros []; simpl; lia).
  assert (∀ b b', example_bits b = example_bits b' → b = b') as H2
    by (intros [] []; simpl; intros H; try done; lia).
  split; [exact H1|]. split; [exact H2|].
  exact (button_bitmask_of_spec example_bits triangle_down H1 H2).
Defined.

(** ** The configuration and its property tree *)

Lemma ptree_find_put_eq key z pt : ptree_find key (ptree_put key z pt) = Some (LeafInt z).
Proof.
  induction pt as [|[k v] pt IH]; simpl.
  - by rewrite decide_True.
  - destruct (decide (k = key)) as [->|Hne]; simpl.
    + by rewrite decide_True.
    + by rewrite decide_False.
Qed.

Lemma ptree_find_put_ne key key' z pt :
  key ≠ key' → ptree_find key' (ptree_put key z pt) = ptree_find key' pt.
Proof.
  intros Hne. induction pt as [|[k v] pt IH]; simpl.
  - by rewrite decide_False.
  - destruct (decide (k = key)) as [->|Hk]; simpl.
    + by rewrite !decide_False.
    + destruct (decide (k = key')); [done|]. apply IH.
Qed.

(** Reading a key as an int gives back the int that was last put under
    it, whatever else the tree holds; putting under one key does not change
    what is read under another; a key that is missing, or whose leaf is
    not the text of an int, or holds a number outside the range of int,
    reads as the default. *)
Lemma ptree_get_int_put key key' z d pt :
  (- 2 ^ 31 <= z < 2 ^ 31 → ptree_get_int key d (ptree_put key z pt) = z) ∧
  (key ≠ key' → ptree_get_int key' d (ptree_put key z pt) = ptree_get_int key' d pt) ∧
  (ptree_find key pt = None → ptree_get_int key d pt = d) ∧
  (∀ t, ptree_find key pt = Some (LeafText t) → ptree_get_int key d pt = d) ∧
  (∀ z', ptree_find key pt = Some (LeafInt z') → ¬ (- 2 ^ 31 <= z' < 2 ^ 31) →
         ptree_get_int key d pt = d).
Proof.
  unfold ptree_get_int. split; [|split; [|split; [|split]]].
  - intros Hz. rewrite ptree_find_put_eq. by rewrite decide_True.
  - intros Hne. by rewrite ptree_find_put_ne.
  - by intros ->.
  - by intros t ->.
  - intros z' -> Hz. by rewrite decide_False.
Qed.

(** X2. A configuration whose two intervals are ints comes back
    unchanged from its property tree, and the tree has exactly the two keys;
    an empty tree gives the configuration of the constructor, 2 ms and
    1000 ms. *)
Theorem ptree2config_config2ptree c :
  - 2 ^ 31 <= controller_poll_interval c < 2 ^ 31 →
  - 2 ^ 31 <= controller_reconnect_interval c < 2 ^ 31 →
  ptree2config (config2ptree c) = c ∧
  config2ptree c = [("controller_poll_interval", LeafInt (controller_poll_interval c));
                    ("controller_reconnect_interval",
                     LeafInt (controller_reconnect_interval c))] ∧
  ptree2config [] = ControllerManagerConfig_new ∧
  ControllerManagerConfig_new = mkConfig 2 1000.
Proof.
  intros Hp Hr. split; [|done].
  destruct c as [p r]. simpl in *. unfold ptree2config, config2ptree, ptree_get_int. simpl.
  by rewrite !decide_True.
Qed.

Lemma ptree2config_config2ptree_witness :
  - 2 ^ 31 <= controller_poll_interval (mkConfig 5 250) < 2 ^ 31 ∧
  - 2 ^ 31 <= controller_reconnect_interval (mkConfig 5 250) < 2 ^ 31 ∧
  ptree2config (config2ptree (mkConfig 5 250)) = mkConfig 5 250 ∧
  config2ptree (mkConfig 5 250)
    = [("controller_poll_interval", LeafInt (controller_poll_interval (mkConfig 5 250)));
       ("controller_reconnect_interval",
        LeafInt (controller_reconnect_interval (mkConfig 5 250)))] ∧
  ptree2config [] = ControllerManagerConfig_new ∧
  ControllerManagerConfig_new = mkConfig 2 1000.
Proof.
  assert (- 2 ^ 31 <= controller_poll_interval (mkConfig 5 250) < 2 ^ 31) as H1
    by (simpl; lia).
  assert (- 2 ^ 31 <= controller_reconnect_interval (mkConfig 5 250) < 2 ^ 31) as H2
    by (simpl; lia).
  split; [exact H1|]. split; [exact H2|].
  exact (ptree2config_config2ptree (mkConfig 5 250) H1 H2).
Defined.

(** ** The service that owns the manager *)


(** ** Whole milliseconds *)

Lemma total_milliseconds_cases d interval :
  total_milliseconds d >= interval ↔
  (if decide (0 < interval) then d >= 1000 * interval else d > 1000 * interval - 1000).
Proof.
  unfold total_milliseconds.
  destruct (Z.le_gt_cases 0 d) as [Hd|Hd].
  - rewrite Z.quot_div_nonneg by lia.
    pose proof (Z.div_mod d 1000). pose proof (Z.mod_pos_bound d 1000).
    destruct (decide (0 < interval)); lia.
  - assert (d ÷ 1000 = - ((- d) / 1000)) as ->.
    { rewrite <- Z.quot_div_nonneg by lia. rewrite Z.quot_opp_l by lia. lia. }
    pose proof (Z.div_mod (- d) 1000). pose proof (Z.mod_pos_bound (- d) 1000).
    destruct (decide (0 < interval)); lia.
Qed.

(** X4. [update] compares whole milliseconds, rounded towards zero, with
    the configured interval. With an interval of at least one millisecond
    the poll pass (the hot-plug pass) is due exactly when the time since
    the last one is at least the interval; with an interval of zero or less
    it is also due when the clock has gone back by less than a millisecond
    more than the interval allows. *)
Theorem due_in_microseconds cfg now s :
  (poll_due cfg now s ↔
   if decide (0 < controller_poll_interval cfg)
   then now - m_last_poll_time s >= 1000 * controller_poll_interval cfg
   else now - m_last_poll_time s > 1000 * controller_poll_interval cfg - 1000) ∧
  (reconnect_due cfg now s ↔
   if decide (0 < controller_reconnect_interval cfg)
   then now - m_last_reconnect_time s >= 1000 * controller_reconnect_interval cfg
   else now - m_last_reconnect_time s > 1000 * controller_reconnect_interval cfg - 1000).
Proof. split; apply total_milliseconds_cases. Qed.

(** ** The two searches *)

(** X5. [find_open_controller_index] returns the lowest slot that holds
    an open session bound to the enumerated identity, and -1 exactly when
    no slot does; null slots are skipped. *)
Theorem find_open_controller_index_spec h l e :
  match find_open_controller_index h l e with
  | Some ci =>
      (ci < length l)%nat ∧
      ∃ p, l !! ci = Some (Some p) ∧ bound_to (h p) e ∧
           ∀ j q, (j < ci)%nat → l !! j = Some (Some q) → ¬ bound_to (h q) e
  | None => ∀ j q, l !! j = Some (Some q) → ¬ bound_to (h q) e
  end.
Proof.
  destruct (find_open_controller_index h l e) as [ci|] eqn:H.
  - apply find_open_controller_index_Some in H as (p & Hl & Hrest).
    split; [by eapply lookup_lt_Some|]. eauto.
  - by apply find_open_controller_index_None.
Qed.

(** X6. [find_first_closed_controller_index] returns the lowest slot
    that holds a closed session, and -1 exactly when every slot that is not
    null holds an open one. *)
Theorem find_first_closed_controller_index_spec h l :
  match find_first_closed_controller_index h l with
  | Some ci =>
      (ci < length l)%nat ∧
      ∃ p, l !! ci = Some (Some p) ∧ IsOpen (h p) = false ∧
           ∀ j q, (j < ci)%nat → l !! j = Some (Some q) → IsOpen (h q) = true
  | None => ∀ j q, l !! j = Some (Some q) → IsOpen (h q) = true
  end.
Proof.
  destruct (find_first_closed_controller_index h l) as [ci|] eqn:H.
  - apply find_first_closed_controller_index_Some in H as (p & Hl & Hrest).
    split; [by eapply lookup_lt_Some|]. eauto.
  - by apply find_first_closed_controller_index_None.
Qed.

(** ** More devices than sessions *)

Lemma for_each_Forall {St} (P : Event → Prop)
  (body : nat → St → option (St * list Event)) idxs s s' evs :
  (∀ i s s' ev, body i s = Some (s', ev) → Forall P ev) →
  for_each body idxs s = Some (s', evs) → Forall P evs.
Proof.
  intros Hbody. revert s evs. induction idxs as [|i idxs IH]; intros s evs H; simpl in H.
  - simplify_eq. apply Forall_nil. done.
  - destruct (body i s) as [[s1 ev1]|] eqn:Hstep; simpl in H; [|done].
    destruct (for_each body idxs s1) as [[s2 ev2]|] eqn:Hrest; simpl in H; [|done].
    simplify_eq. apply Forall_app. split; [by eapply Hbody|by eapply IH].
Qed.

Lemma retire_existing_no_error i st st' ev :
  retire_existing i st = Some (st', ev) → Forall (λ e, e ≠ LogError_too_many) ev.
Proof.
  unfold retire_existing. intros H.
  destruct (array_read _ i) as [[p|]|]; simpl in H; [| |done].
  - destruct (getIsOpen (ps_objects st p));
      destruct (array_write (ps_temp st) _ _); simpl in H; try done;
      destruct (array_write (ps_controllers st) _ _); simpl in H; try done;
      simplify_eq; [by apply Forall_singleton|by apply Forall_nil].
  - simplify_eq. by apply Forall_nil.
Qed.

(** Step 1 writes the capacity error at most once, as its last line. *)
Lemma connect_all_error_last open_ok es st st' evs :
  connect_all open_ok es st = Some (st', evs) →
  LogError_too_many ∉ evs ∨
  ∃ ev, evs = ev ++ [LogError_too_many] ∧ LogError_too_many ∉ ev.
Proof.
  revert st evs. induction es as [|e es IH]; intros st evs H; simpl in H.
  - simplify_eq. left. apply not_elem_of_nil.
  - destruct (connect_enumerated open_ok e st) as [[[st1 ev1] go_on]|] eqn:Hstep;
      simpl in H; [|done].
    destruct (connect_enumerated_flag _ _ _ _ _ _ Hstep) as [(-> & -> & _)|(-> & Hno1 & _)].
    + simplify_eq. right. exists []. split; [done|apply not_elem_of_nil].
    + destruct (connect_all open_ok es st1) as [[st2 ev2]|] eqn:Hrest; simpl in H; [|done].
      simplify_eq. destruct (IH _ _ Hrest) as [Hno2|(ev & -> & Hno2)].
      * left. rewrite elem_of_app. tauto.
      * right. exists (ev1 ++ ev). rewrite (assoc (++)). split; [done|].
        rewrite elem_of_app. tauto.
Qed.

(** X7. A hot-plug pass on a table of N slots writes the capacity error
    at most once, and it does write it when the snapshot lists more than N
    identities: a pass without the error has given a position to every
    identity of the snapshot, and there are only N. *)
Theorem capacity_error_once N es open_ok s :
  length (m_controllers s) = N →
  ∃ s' evs,
    update_connected_controllers N es open_ok s = Some (s', evs) ∧
    (((LogError_too_many ∉ evs) ∧ (length es ≤ N)%nat) ∨
     (∃ ev1 ev2, evs = ev1 ++ [LogError_too_many] ++ ev2 ∧
                 (LogError_too_many ∉ ev1) ∧ (LogError_too_many ∉ ev2))).
Proof.
  intros Hlen.
  destruct (pass_structure N es open_ok s Hlen)
    as (st1 & ev1 & st2 & ev2 & moved1 & moved2 & Hrun1 & Hrun2 & Hpass & Hinv1 & _).
  exists (set_objects (ps_objects st2) (set_controllers (ps_temp st2) s)), (ev1 ++ ev2).
  split; [done|].
  assert (LogError_too_many ∉ ev2) as Hno2.
  { pose proof (for_each_Forall _ _ _ _ _ _ retire_existing_no_error Hrun2) as HF.
    rewrite Forall_forall in HF. intros Hin. by apply (HF _ Hin). }
  destruct (connect_all_error_last _ _ _ _ _ Hrun1) as [Hno1|(ev & -> & Hno1)].
  - left. split; [rewrite elem_of_app; tauto|].
    pose proof (connect_all_new_index _ _ _ _ _ Hrun1 Hno1) as Hidx. simpl in Hidx.
    pose proof (pass_inv_moved_le _ _ _ _ Hinv1) as Hle.
    destruct Hinv1 as (_ & _ & Hn & _). lia.
  - right. exists ev, ev2. rewrite <- (assoc (++)). done.
Qed.

Lemma capacity_error_once_witness :
  length (m_controllers (ControllerManagerImpl_new 1)) = 1%nat ∧
  ∃ s' evs,
    update_connected_controllers 1 ["A"; "B"] (always true) (ControllerManagerImpl_new 1)
      = Some (s', evs) ∧
    (((LogError_too_many ∉ evs) ∧ (length ["A"; "B"] ≤ 1)%nat) ∨
     (∃ ev1 ev2, evs = ev1 ++ [LogError_too_many] ++ ev2 ∧
                 (LogError_too_many ∉ ev1) ∧ (LogError_too_many ∉ ev2))).
Proof.
  split; [reflexivity|].
  apply (capacity_error_once 1 ["A"; "B"] (always true) (ControllerManagerImpl_new 1)).
  reflexivity.
Defined.

(** X8. A hot-plug pass publishes no frame and leaves the sequence
    counter, the configuration and both timestamps as they are. *)
Theorem update_connected_controllers_publishes_nothing N es open_ok s :
  length (m_controllers s) = N →
  ∃ s' evs,
    update_connected_controllers N es open_ok s = Some (s', evs) ∧
    frames_of evs = [] ∧
    m_sequence_number s' = m_sequence_number s ∧
    m_config s' = m_config s ∧
    m_last_poll_time s' = m_last_poll_time s ∧
    m_last_reconnect_time s' = m_last_reconnect_time s.
Proof.
  intros Hlen.
  destruct (pass_structure N es open_ok s Hlen)
    as (st1 & ev1 & st2 & ev2 & moved1 & moved2 & _ & _ & Hpass & _).
  eexists _, _. split; [exact Hpass|]. split; [by eapply pass_no_frames|]. done.
Qed.

Lemma update_connected_controllers_publishes_nothing_witness :
  length (m_controllers two_open) = 2%nat ∧
  ∃ s' evs,
    update_connected_controllers 2 ["C"] (always true) two_open = Some (s', evs) ∧
    frames_of evs = [] ∧
    m_sequence_number s' = m_sequence_number two_open ∧
    m_config s' = m_config two_open ∧
    m_last_poll_time s' = m_last_poll_time two_open ∧
    m_last_reconnect_time s' = m_last_reconnect_time two_open.
Proof.
  split; [reflexivity|].
  apply (update_connected_controllers_publishes_nothing 2 ["C"] (always true) two_open).
  reflexivity.
Defined.

(** ** What the poll pass does, slot by slot *)

Lemma poll_controller_step bits reads i s p :
  m_controllers s !! i = Some (Some p) →
  ∃ s' ev,
    poll_controller bits reads i s = Some (s', ev) ∧
    same_table s s' ∧
    objects s' p = polled (reads i) (objects s p) ∧
    (∀ q, q ≠ p → objects s' q = objects s q) ∧
    frame_payload <$> frames_of ev = omap (slot_payload s reads) [i].
Proof.
  intros Hi.
  assert (omap (slot_payload s reads) [i]
          = if IsOpen (objects s p) then
              match reads i with
              | InNewData pose st =>
                  [(PSMoveID (objects s p), true, false, true,
                    (qw pose, qx pose, qy pose, qz pose), (px pose, py pose, pz pose),
                    0, Trigger st)]
              | _ => []
              end
            else []) as ->.
  { simpl. unfold slot_payload. rewrite Hi.
    destruct (IsOpen (objects s p)); [|done]. by destruct (reads i). }
  unfold poll_controller, array_read, polled. rewrite Hi. simpl.
  unfold getIsOpen. destruct (IsOpen (objects s p)) eqn:Ho.
  - destruct (reads i) as [|pose st|]; simpl.
    + eexists _, _. split; [reflexivity|]. split; [done|]. simpl. rewrite fn_lookup_insert.
      split; [done|]. split; [|done]. intros q Hne. by rewrite fn_lookup_insert_ne.
    + eexists _, _. split; [reflexivity|]. split; [done|]. simpl. rewrite fn_lookup_insert.
      split; [by rewrite Ho|]. split; [|done]. intros q Hne. by rewrite fn_lookup_insert_ne.
    + eexists _, _. split; [reflexivity|]. split; [done|]. simpl.
      rewrite on_object_eq, fn_lookup_insert.
      split; [done|]. split; [|done].
      intros q Hne. rewrite on_object_ne by done. by rewrite fn_lookup_insert_ne.
  - eexists _, _. split; [reflexivity|]. split; [done|]. done.
Qed.

Lemma slot_payload_same s s' reads i :
  m_controllers s' = m_controllers s →
  (∀ p, m_controllers s !! i = Some (Some p) → objects s' p = objects s p) →
  slot_payload s' reads i = slot_payload s reads i.
Proof.
  intros Hc Ho. unfold slot_payload. rewrite Hc.
  destruct (m_controllers s !! i) as [[p|]|] eqn:Hi; [|done..].
  by rewrite (Ho p).
Qed.

Lemma omap_seq_S {A} (f : nat → option A) n :
  omap f (seq 0 (S n)) = omap f (seq 0 n) ++ omap f [n].
Proof. by rewrite seq_S, omap_app. Qed.

(** The whole poll pass on a full table without duplicates. *)
Lemma poll_pass_spec N bits reads s :
  pool_ok N s →
  ∃ s' evs,
    poll_open_controllers N bits reads s = Some (s', evs) ∧
    same_table s s' ∧
    (∀ i p, m_controllers s !! i = Some (Some p) →
            objects s' p = polled (reads i) (objects s p)) ∧
    (∀ q, Some q ∉ m_controllers s → objects s' q = objects s q) ∧
    frame_payload <$> frames_of evs = omap (slot_payload s reads) (seq 0 N).
Proof.
  intros (Hlen & Hfull & Hnd).
  destruct (for_each_seq_inv (poll_controller bits reads)
    (λ i s' evs, same_table s s' ∧
       (∀ j p, (j < i)%nat → m_controllers s !! j = Some (Some p) →
               objects s' p = polled (reads j) (objects s p)) ∧
       (∀ q, (∀ j, (j < i)%nat → m_controllers s !! j ≠ Some (Some q)) →
             objects s' q = objects s q) ∧
       frame_payload <$> frames_of evs = omap (slot_payload s reads) (seq 0 i)) N 0 s)
    as (s' & evs & Hrun & Hst & Hdone & Hrest & Hfr).
  - split; [done|]. split; [intros; lia|]. done.
  - intros i s1 evs Hi (Hst & Hdone & Hrest & Hfr).
    destruct (Hfull i) as [p Hp]; [lia|].
    assert (objects s1 p = objects s p) as Hsame.
    { apply Hrest. intros j Hj Hjp.
      pose proof (NoDup_lookup _ _ _ _ Hnd Hjp Hp). lia. }
    pose proof Hst as (Hc1 & _).
    destruct (poll_controller_step bits reads i s1 p) as (s2 & ev & Hstep & Hst2 & Hp2 & Hfr2 & Hpay);
      [by rewrite Hc1|].
    exists s2, ev. split; [done|]. split; [by eapply same_table_trans|]. split; [|split].
    + intros j q Hj Hq. destruct (decide (j = i)) as [->|Hne].
      * rewrite Hp in Hq. injection Hq as <-. by rewrite Hp2, Hsame.
      * rewrite Hfr2; [apply Hdone; [lia|done]|].
        intros ->. apply Hne. by eapply (NoDup_lookup (m_controllers s)).
    + intros q Hq. rewrite Hfr2; [apply Hrest; intros j Hj; apply Hq; lia|].
      intros ->. by apply (Hq i); [lia|].
    + rewrite frames_of_app, fmap_app, Hfr, Hpay, omap_seq_S. f_equal. simpl.
      rewrite (slot_payload_same s s1 reads i Hc1); [done|].
      intros p' Hp'. rewrite Hp in Hp'. by injection Hp' as <-.
  - exists s', evs. split; [done|]. split; [done|]. split; [|split; [|done]].
    + intros i p Hp. apply (Hdone i p); [|done]. rewrite <- Hlen. by eapply lookup_lt_Some.
    + intros q Hq. apply Hrest. intros j _ Hj. apply Hq. by eapply list_elem_of_lookup_2.
Qed.

(** X9. A poll pass over a full table leaves the table alone and does
    to each session what its own read says and nothing else: a closed
    session is not read and stays as it is; an open one keeps id and
    binding and takes the new pose and state when there is new data, stays
    as it is when there is none, and is closed when the read fails. Objects
    outside the table are not touched. *)
Theorem poll_open_controllers_sessions N bits reads s :
  pool_ok N s →
  ∃ s' evs,
    poll_open_controllers N bits reads s = Some (s', evs) ∧
    m_controllers s' = m_controllers s ∧
    (∀ i p, m_controllers s !! i = Some (Some p) →
            objects s' p = polled (reads i) (objects s p)) ∧
    (∀ q, Some q ∉ m_controllers s → objects s' q = objects s q).
Proof.
  intros Hok.
  destruct (poll_pass_spec N bits reads s Hok) as (s' & evs & Hrun & (Hc & _) & Ho & Hq & _).
  exists s', evs. done.
Qed.

Lemma poll_open_controllers_sessions_witness :
  pool_ok 2 two_open ∧
  ∃ s' evs,
    poll_open_controllers 2 example_bits
      (λ i, if bool_decide (i = 0%nat) then InNewData some_pose triangle_down else InFailure)
      two_open = Some (s', evs) ∧
    m_controllers s' = m_controllers two_open ∧
    (∀ i p, m_controllers two_open !! i = Some (Some p) →
            objects s' p
            = polled (if bool_decide (i = 0%nat) then InNewData some_pose triangle_down
                      else InFailure) (objects two_open p)) ∧
    (∀ q, Some q ∉ m_controllers two_open → objects s' q = objects two_open q).
Proof.
  split; [apply pool_ok_two_open|].
  apply (poll_open_controllers_sessions 2 example_bits
           (λ i, if bool_decide (i = 0%nat) then InNewData some_pose triangle_down
                 else InFailure) two_open).
  apply pool_ok_two_open.
Defined.

(** X10. A poll pass publishes one frame for each open session whose
    read brings new data, in slot order and for no other slot; the frame
    carries the session's id, the pose and the trigger just read, the flags
    connected, not tracking, tracking enabled, and the bitmask zero; the
    frames are numbered by the counter, which ends that many steps
    further. *)
Theorem poll_open_controllers_frames N bits reads s :
  pool_ok N s →
  - 2 ^ 31 <= m_sequence_number s < 2 ^ 31 →
  ∃ s' evs,
    poll_open_controllers N bits reads s = Some (s', evs) ∧
    frame_payload <$> frames_of evs = omap (slot_payload s reads) (seq 0 N) ∧
    stamps evs = counting (m_sequence_number s) (length (frames_of evs)) ∧
    m_sequence_number s'
      = int_wrap (m_sequence_number s + Z.of_nat (length (frames_of evs))).
Proof.
  intros Hok Hseq.
  destruct (poll_pass_spec N bits reads s Hok) as (s' & evs & Hrun & _ & _ & _ & Hpay).
  destruct (poll_open_controllers_spec N bits reads s (pool_ok_full _ _ Hok))
    as (s'' & evs' & Hrun' & _ & Hcount).
  rewrite Hrun in Hrun'. injection Hrun' as <- <-.
  destruct (Hcount (m_sequence_number s)) as [Hst Hend].
  { by rewrite int_wrap_small. }
  exists s', evs. done.
Qed.

Lemma poll_open_controllers_frames_witness :
  pool_ok 2 two_open ∧
  - 2 ^ 31 <= m_sequence_number two_open < 2 ^ 31 ∧
  ∃ s' evs,
    poll_open_controllers 2 example_bits (λ _, InNewData some_pose triangle_down) two_open
      = Some (s', evs) ∧
    frame_payload <$> frames_of evs
      = omap (slot_payload two_open (λ _, InNewData some_pose triangle_down)) (seq 0 2) ∧
    stamps evs = counting (m_sequence_number two_open) (length (frames_of evs)) ∧
    m_sequence_number s'
      = int_wrap (m_sequence_number two_open + Z.of_nat (length (frames_of evs))).
Proof.
  assert (- 2 ^ 31 <= m_sequence_number two_open < 2 ^ 31) as H by (simpl; lia).
  split; [apply pool_ok_two_open|]. split; [exact H|].
  apply (poll_open_controllers_frames 2 example_bits
           (λ _, InNewData some_pose triangle_down) two_open);
    [apply pool_ok_two_open|exact H].
Defined.

(** ** Shutdown *)

Lemma close_if_open_step i s p :
  m_controllers s !! i = Some (Some p) →
  ∃ s',
    close_if_open i s = Some (s', []) ∧
    same_table s s' ∧ m_sequence_number s' = m_sequence_number s ∧
    objects s' p = (if IsOpen (objects s p) then close (objects s p) else objects s p) ∧
    (∀ q, q ≠ p → objects s' q = objects s q).
Proof.
  intros Hi. unfold close_if_open, array_read. rewrite Hi. simpl. unfold getIsOpen.
  destruct (IsOpen (objects s p)).
  - eexists. split; [reflexivity|]. split; [done|]. split; [done|]. simpl.
    rewrite on_object_eq. split; [done|]. intros q Hne. by rewrite on_object_ne.
  - eexists. split; [reflexivity|]. done.
Qed.

(** The loop of [shutdown] on a started manager with a full table. *)
Lemma shutdown_spec N s cfg :
  pool_ok N s → m_config s = Some cfg →
  ∃ s',
    shutdown N s = Some s' ∧
    m_controllers s' = m_controllers s ∧
    m_sequence_number s' = m_sequence_number s ∧
    m_config s' = m_config s ∧
    (∀ i p, m_controllers s !! i = Some (Some p) →
            IsOpen (objects s' p) = false ∧
            objects s' p
            = (if IsOpen (objects s p) then close (objects s p) else objects s p)) ∧
    (∀ q, Some q ∉ m_controllers s → objects s' q = objects s q).
Proof.
  intros (Hlen & Hfull & Hnd) Hcfg.
  unfold shutdown. rewrite Hcfg. simpl.
  destruct (for_each_seq_inv close_if_open
    (λ i s' evs, same_table s s' ∧ m_sequence_number s' = m_sequence_number s ∧
       (∀ j p, (j < i)%nat → m_controllers s !! j = Some (Some p) →
               objects s' p
               = (if IsOpen (objects s p) then close (objects s p) else objects s p)) ∧
       (∀ q, (∀ j, (j < i)%nat → m_controllers s !! j ≠ Some (Some q)) →
             objects s' q = objects s q)) N 0 s)
    as (s' & evs & Hrun & Hst & Hseq & Hdone & Hrest).
  - split; [done|]. split; [done|]. split; [intros; lia|done].
  - intros i s1 evs Hi (Hst & Hseq & Hdone & Hrest).
    destruct (Hfull i) as [p Hp]; [lia|].
    assert (objects s1 p = objects s p) as Hsame.
    { apply Hrest. intros j Hj Hjp.
      pose proof (NoDup_lookup _ _ _ _ Hnd Hjp Hp). lia. }
    pose proof Hst as (Hc1 & _).
    destruct (close_if_open_step i s1 p) as (s2 & Hstep & Hst2 & Hseq2 & Hp2 & Hfr2);
      [by rewrite Hc1|].
    exists s2, []. split; [done|]. split; [by eapply same_table_trans|].
    split; [congruence|]. split.
    + intros j q Hj Hq. destruct (decide (j = i)) as [->|Hne].
      * rewrite Hp in Hq. injection Hq as <-. by rewrite Hp2, Hsame.
      * rewrite Hfr2; [apply (Hdone j); [lia|done]|].
        intros ->. apply Hne. by eapply (NoDup_lookup (m_controllers s)).
    + intros q Hq. rewrite Hfr2; [apply Hrest; intros j Hj; apply Hq; lia|].
      intros ->. by apply (Hq i); [lia|].
  - rewrite Hrun. simpl. eexists. split; [done|].
    destruct Hst as (Hc & Hcf & _). split; [done|]. split; [done|].
    split; [congruence|]. split.
    + intros i p Hp.
      assert (objects s' p
              = (if IsOpen (objects s p) then close (objects s p) else objects s p)) as Heq.
      { apply (Hdone i p); [|done]. rewrite <- Hlen. by eapply lookup_lt_Some. }
      split; [|done]. rewrite Heq. by destruct (IsOpen (objects s p)) eqn:Ho.
    + intros q Hq. apply Hrest. intros j _ Hj. apply Hq. by eapply list_elem_of_lookup_2.
Qed.

(** X11. [shutdown] of a started manager with a full table closes every
    session of the table that is open, and changes nothing else: the table,
    the counter, the ids, poses and states are as before, a closed session
    is exactly as before, and objects outside the table are not touched.
    Before [startup] there is no configuration to save and [shutdown]
    dereferences a null pointer. *)
Theorem shutdown_closes_all N s cfg :
  pool_ok N s → m_config s = Some cfg →
  (∃ s',
     shutdown N s = Some s' ∧
     m_controllers s' = m_controllers s ∧
     m_sequence_number s' = m_sequence_number s ∧
     m_config s' = m_config s ∧
     (∀ i p, m_controllers s !! i = Some (Some p) →
             IsOpen (objects s' p) = false ∧
             objects s' p
             = (if IsOpen (objects s p) then close (objects s p) else objects s p)) ∧
     (∀ q, Some q ∉ m_controllers s → objects s' q = objects s q)) ∧
  shutdown N (ControllerManagerImpl_new N) = None.
Proof.
  intros Hok Hcfg. split; [by apply shutdown_spec with cfg|done].
Qed.

Lemma shutdown_closes_all_witness :
  pool_ok 2 two_open ∧ m_config two_open = Some default_config ∧
  (∃ s',
     shutdown 2 two_open = Some s' ∧
     m_controllers s' = m_controllers two_open ∧
     m_sequence_number s' = m_sequence_number two_open ∧
     m_config s' = m_config two_open ∧
     (∀ i p, m_controllers two_open !! i = Some (Some p) →
             IsOpen (objects s' p) = false ∧
             objects s' p
             = (if IsOpen (objects two_open p) then close (objects two_open p)
                else objects two_open p)) ∧
     (∀ q, Some q ∉ m_controllers two_open → objects s' q = objects two_open q)) ∧
  shutdown 2 (ControllerManagerImpl_new 2) = None.
Proof.
  split; [apply pool_ok_two_open|]. split; [reflexivity|].
  apply (shutdown_closes_all 2 two_open default_config);
    [apply pool_ok_two_open|reflexivity].
Defined.

(** ** Where a pass leaves the sessions *)

Lemma placed_move es s moved st ci p h' N :
  pass_inv N (pointers (m_controllers s)) moved st →
  NoDup (pointers (m_controllers s)) →
  placed es s moved st →
  ps_controllers st !! ci = Some (Some p) →
  (∀ q, q ≠ p → h' q = ps_objects st q) →
  in_place es (length moved) (h' p) →
  placed es s (moved ++ [p])
    (mkPass (<[ci := None]> (ps_controllers st))
            (<[ps_new_index st := Some p]> (ps_temp st))
            (S (ps_new_index st)) h').
Proof.
  intros Hinv Hnd (Hin & Hrest & Horig) Hci Hframe Hnew.
  pose proof (pass_inv_fresh _ _ _ _ _ _ Hinv Hnd Hci) as Hfresh.
  split; [|split]; simpl.
  - by apply (slots_extend (λ j _ c, in_place es j c)) with (h := ps_objects st).
  - intros q Hq. rewrite elem_of_app, list_elem_of_singleton in Hq.
    rewrite Hframe by (intros ->; tauto). apply Hrest. tauto.
  - intros j q Hq. destruct (decide (j = ci)) as [->|Hne].
    + rewrite list_lookup_insert_eq in Hq by (by eapply lookup_lt_Some). done.
    + rewrite list_lookup_insert_ne in Hq by done. by apply Horig.
Qed.

Lemma connect_all_places N s es open_ok post pre moved st st' evs :
  NoDup (pointers (m_controllers s)) →
  ids_cast_ok s →
  es = pre ++ post →
  pass_inv N (pointers (m_controllers s)) moved st →
  length moved = length pre →
  placed es s moved st →
  connect_all open_ok post st = Some (st', evs) →
  ∃ moved', pass_inv N (pointers (m_controllers s)) moved' st' ∧ placed es s moved' st'.
Proof.
  intros Hnd Hids. revert pre moved st evs.
  induction post as [|e post IH]; intros pre moved st evs Hsplit Hinv Hlen Hpl Hrun.
  { simpl in Hrun. injection Hrun as <- <-. eauto. }
  assert (es !! length moved = Some e) as Hek.
  { rewrite Hsplit, Hlen. by rewrite list_lookup_middle. }
  assert (ps_new_index st = length moved) as Hidx by (by destruct Hinv as (_ & _ & -> & _)).
  pose proof Hpl as (Hin & Hrest & Horig).
  simpl in Hrun.
  destruct (find_open_controller_index (ps_objects st) (ps_controllers st) e)
    as [ci|] eqn:Hopen.
  - destruct (connect_enumerated_existing _ _ _ _ open_ok _ _ Hinv Hopen)
      as (p & Hci & [Ho Hb] & Hstep).
    rewrite Hstep in Hrun. simpl in Hrun.
    match type of Hstep with _ = Some (?st1, _, _) => set (st1' := st1) in * end.
    destruct (connect_all open_ok post st1') as [[st2 ev2]|] eqn:Hrest'; simpl in Hrun; [|done].
    injection Hrun as <- <-.
    pose proof (pass_inv_fresh _ _ _ _ _ _ Hinv Hnd Hci) as Hfresh.
    apply (IH (pre ++ [e]) (moved ++ [p]) st1' ev2); try done.
    + by rewrite <- (assoc (++)).
    + by apply pass_inv_move.
    + rewrite !length_app. simpl. lia.
    + subst st1'. apply (placed_move es s moved st ci p _ N); try done.
      * intros q Hne. destruct (decide _); [|done]. by rewrite on_object_ne.
      * rewrite Hidx. destruct (decide (length moved ≠ ci)) as [Hne|Heq].
        -- rewrite on_object_eq. split; [done|]. simpl. intros _. eauto.
        -- assert (length moved = ci) as <- by (destruct (decide (length moved = ci)); tauto).
           rewrite (Hrest p Hfresh). split; [by apply Hids, Horig|].
           intros _. exists e. split; [done|]. by rewrite <- (Hrest p Hfresh).
  - destruct (find_first_closed_controller_index (ps_objects st) (ps_controllers st))
      as [ci|] eqn:Hclosed.
    + destruct (connect_enumerated_new _ _ _ _ open_ok _ _ Hinv Hopen Hclosed)
        as (p & Hci & Hc & Hstep). simpl in Hstep.
      rewrite Hstep in Hrun. simpl in Hrun.
      match type of Hstep with _ = Some (?st1, _, _) => set (st1' := st1) in * end.
      destruct (connect_all open_ok post st1') as [[st2 ev2]|] eqn:Hrest'; simpl in Hrun; [|done].
      injection Hrun as <- <-.
      apply (IH (pre ++ [e]) (moved ++ [p]) st1' ev2); try done.
      * by rewrite <- (assoc (++)).
      * by apply pass_inv_move.
      * rewrite !length_app. simpl. lia.
      * subst st1'. apply (placed_move es s moved st ci p _ N); try done.
        -- intros q Hne. rewrite fn_lookup_insert_ne by done. by rewrite on_object_ne.
        -- rewrite fn_lookup_insert, open_eq, on_object_eq, Hidx.
           destruct (open_ok (length moved)); simpl.
           ++ split; [done|]. intros _. eauto.
           ++ split; [done|]. intros Ho. simpl in Ho. congruence.
    + rewrite (connect_enumerated_full _ _ _ Hopen Hclosed) in Hrun. simpl in Hrun.
      injection Hrun as <- <-. eauto.
Qed.

Lemma retire_all_places N s es moved st :
  NoDup (pointers (m_controllers s)) →
  pass_inv N (pointers (m_controllers s)) moved st →
  placed es s moved st →
  ∃ st' evs moved',
    for_each retire_existing (seq 0 N) st = Some (st', evs) ∧
    pass_inv N (pointers (m_controllers s)) moved' st' ∧ placed es s moved' st'.
Proof.
  intros Hnd Hinv Hpl.
  destruct (for_each_seq_inv retire_existing
    (λ _ st' _, ∃ moved', pass_inv N (pointers (m_controllers s)) moved' st' ∧
                          placed es s moved' st') N 0 st)
    as (st' & evs & Hrun & moved' & Hinv' & Hpl'); [by eauto| |by eauto 10].
  intros i st1 evs Hi (moved1 & Hinv1 & Hpl1).
  assert (i < length (ps_controllers st1))%nat as Hlt by (destruct Hinv1 as (-> & _); lia).
  assert (ps_new_index st1 = length moved1) as Hidx by (by destruct Hinv1 as (_ & _ & -> & _)).
  destruct (lookup_lt_is_Some_2 _ _ Hlt) as [[p|] Hci].
  - rewrite (retire_existing_Some _ _ _ _ _ _ Hinv1 Hci).
    eexists _, _. split; [done|]. exists (moved1 ++ [p]).
    split; [by apply pass_inv_move|].
    apply (placed_move es s moved1 st1 i p _ N); try done.
    + intros q Hne. rewrite on_object_ne by done.
      destruct (IsOpen _); [|done]. by rewrite on_object_ne.
    + rewrite on_object_eq, Hidx. split; [done|]. simpl.
      destruct (IsOpen (ps_objects st1 p)) eqn:Ho; [by rewrite on_object_eq|].
      by rewrite Ho.
  - rewrite (retire_existing_None _ _ Hci). eexists _, _. split; [done|]. eauto.
Qed.

(** After a pass on a full table whose sessions carry their positions as
    ids, every session is in place. *)
Lemma pass_places N es open_ok s :
  pool_ok N s → ids_cast_ok s →
  ∃ s' evs,
    update_connected_controllers N es open_ok s = Some (s', evs) ∧
    pool_ok N s' ∧
    ∀ j p, m_controllers s' !! j = Some (Some p) → in_place es j (objects s' p).
Proof.
  intros Hok Hids. pose proof Hok as (Hlen & _ & _).
  destruct (pool_ok_pointers _ _ Hok) as (Heq & Hplen & Hnd).
  destruct (pass_permutes N es open_ok s Hok) as (s' & evs & Hpass & _ & Hok' & _).
  exists s', evs. split; [done|]. split; [done|].
  destruct (pass_structure N es open_ok s Hlen)
    as (st1 & e1 & st2 & e2 & moved1 & moved2 & Hrun1 & Hrun2 & Hpass' & Hinv1 & Hinv2 & Hperm & _).
  rewrite Hpass in Hpass'. injection Hpass' as -> ->.
  destruct (connect_all_places N s es open_ok es [] [] (pass_start N s) st1 e1)
    as (moved & Hinvm & Hplm); try done.
  { by apply pass_inv_start. }
  destruct (retire_all_places N s es moved st1 Hnd Hinvm Hplm)
    as (st2' & evs' & moved' & Hrun2' & Hinv2' & (Hin & _)).
  rewrite Hrun2 in Hrun2'. injection Hrun2' as <- <-.
  pose proof (pass_inv_moved_unique _ _ _ _ _ Hinv2 Hinv2') as <-.
  assert (length (moved1 ++ moved2) = N) as Hml by (by rewrite (Permutation_length Hperm)).
  destruct Hinv2 as (_ & Htemp & _ & _ & _).
  rewrite Hml, Nat.sub_diag in Htemp. simpl in Htemp. rewrite app_nil_r in Htemp.
  simpl. intros j p Hj. rewrite Htemp, list_lookup_fmap in Hj.
  destruct ((moved1 ++ moved2) !! j) as [q|] eqn:Hq; simpl in Hj; [|done].
  injection Hj as ->. by apply Hin.
Qed.

(** X12. After a hot-plug pass on a full table whose sessions carry
    their slot positions as ids, every session again carries the position
    of its slot as id, whatever the snapshot and whatever the transport
    answered: the ids a client sees are always slot positions. *)
Theorem update_connected_controllers_keeps_ids N es open_ok s :
  pool_ok N s → ids_cast_ok s →
  ∃ s' evs,
    update_connected_controllers N es open_ok s = Some (s', evs) ∧
    pool_ok N s' ∧ ids_cast_ok s'.
Proof.
  intros Hok Hids.
  destruct (pass_places N es open_ok s Hok Hids) as (s' & evs & Hpass & Hok' & Hin).
  exists s', evs. split; [done|]. split; [done|].
  intros j p Hj. by destruct (Hin j p Hj).
Qed.

(** X13. After such a pass every session that is open sits in the slot
    whose position is the enumeration position of the device it is bound
    to; so no session is left open on a device that is not in the snapshot,
    and when the snapshot lists no device twice, no two sessions are open on
    the same device. *)
Theorem update_connected_controllers_open_in_place N es open_ok s :
  pool_ok N s → ids_cast_ok s →
  ∃ s' evs,
    update_connected_controllers N es open_ok s = Some (s', evs) ∧
    open_in_place es s' ∧
    (∀ j p e, open_at s' j p e → es !! j = Some e) ∧
    (NoDup es → identities_unique s').
Proof.
  intros Hok Hids.
  destruct (pass_places N es open_ok s Hok Hids) as (s' & evs & Hpass & Hok' & Hin).
  exists s', evs. split; [done|].
  assert (∀ j p e, open_at s' j p e → es !! j = Some e) as Hat.
  { intros j p e [Hj [Ho Hb]]. destruct (Hin j p Hj) as [_ Hopen].
    destruct (Hopen Ho) as (e' & He' & Hb'). congruence. }
  split; [|split; [done|]].
  - intros j p Hj Ho. by destruct (Hin j p Hj) as [_ Hopen]; apply Hopen.
  - intros Hnd i i' p p' e H1 H2.
    eapply (NoDup_lookup es); [done|by eapply Hat|by eapply Hat].
Qed.

Lemma ids_cast_ok_two_open : ids_cast_ok two_open.
Proof.
  intros i p Hi. by destruct (two_open_slots _ _ Hi) as [[-> ->]|[-> ->]].
Qed.

Lemma update_connected_controllers_keeps_ids_witness :
  pool_ok 2 two_open ∧ ids_cast_ok two_open ∧
  ∃ s' evs,
    update_connected_controllers 2 ["B"; "A"] (always true) two_open = Some (s', evs) ∧
    pool_ok 2 s' ∧ ids_cast_ok s'.
Proof.
  split; [apply pool_ok_two_open|]. split; [apply ids_cast_ok_two_open|].
  apply (update_connected_controllers_keeps_ids 2 ["B"; "A"] (always true) two_open);
    [apply pool_ok_two_open|apply ids_cast_ok_two_open].
Defined.

Lemma update_connected_controllers_open_in_place_witness :
  pool_ok 2 two_open ∧ ids_cast_ok two_open ∧
  ∃ s' evs,
    update_connected_controllers 2 ["B"; "C"] (always true) two_open = Some (s', evs) ∧
    open_in_place ["B"; "C"] s' ∧
    (∀ j p e, open_at s' j p e → ["B"; "C"] !! j = Some e) ∧
    (NoDup ["B"; "C"] → identities_unique s').
Proof.
  split; [apply pool_ok_two_open|]. split; [apply ids_cast_ok_two_open|].
  apply (update_connected_controllers_open_in_place 2 ["B"; "C"] (always true) two_open);
    [apply pool_ok_two_open|apply ids_cast_ok_two_open].
Defined.

(** ** The table over the life of the manager *)

Lemma polled_PSMoveID inp c : PSMoveID (polled inp c) = PSMoveID c.
Proof. unfold polled. by destruct (IsOpen c), inp. Qed.

Lemma update_keeps_ids N bits inp s cfg :
  pool_ok N s → ids_cast_ok s → m_config s = Some cfg →
  ∃ s' evs,
    update N bits inp s = Some (s', evs) ∧
    pool_ok N s' ∧ ids_cast_ok s' ∧ m_config s' = Some cfg.
Proof.
  intros Hok Hids Hcfg.
  destruct (update_cases N bits inp s cfg Hok Hcfg)
    as (s1 & ev1 & s2 & ev2 & Hup & Hp & Hnp & Hr & Hnr & _ & _ & Hok2 & Hcfg2 & _).
  exists s2, (ev1 ++ ev2). split; [done|]. split; [done|]. split; [|done].
  assert (pool_ok N s1 ∧ ids_cast_ok s1) as [Hok1 Hids1].
  { destruct (decide (poll_due cfg (tick_now inp) s)) as [Hd|Hd].
    - destruct (Hp Hd) as (s1' & Hpoll & ->).
      destruct (poll_pass_spec N bits (tick_reads inp) s Hok)
        as (s'' & evs'' & Hpoll' & (Hm & _) & Hobj & _).
      rewrite Hpoll in Hpoll'. injection Hpoll' as <- <-.
      split.
      + by apply pool_ok_same_controllers with s.
      + intros i p Hi. simpl in Hi |- *. rewrite Hm in Hi.
        rewrite (Hobj i p Hi), polled_PSMoveID. by apply Hids.
    - by destruct (Hnp Hd) as [-> _]. }
  destruct (decide (reconnect_due cfg (tick_now inp) s)) as [Hd|Hd].
  - destruct (Hr Hd) as (s2' & Hpass & ->).
    destruct (pass_places N (tick_enumerator inp) (tick_open_ok inp) s1 Hok1 Hids1)
      as (s'' & evs'' & Hpass' & _ & Hin).
    rewrite Hpass in Hpass'. injection Hpass' as <- <-.
    intros i p Hi. simpl in Hi |- *. by destruct (Hin i p Hi).
  - by destruct (Hnr Hd) as [-> _].
Qed.

Lemma run_keeps_ids N bits cfg inps s :
  pool_ok N s → ids_cast_ok s → m_config s = Some cfg →
  ∃ s' evs,
    run N bits inps s = Some (s', evs) ∧
    pool_ok N s' ∧ ids_cast_ok s' ∧ m_config s' = Some cfg.
Proof.
  revert s. induction inps as [|inp inps IH]; intros s Hok Hids Hcfg; simpl.
  - by exists s, [].
  - destruct (update_keeps_ids N bits inp s cfg Hok Hids Hcfg)
      as (s1 & ev1 & -> & Hok1 & Hids1 & Hcfg1). simpl.
    destruct (IH s1 Hok1 Hids1 Hcfg1) as (s2 & ev2 & -> & Hok2 & Hids2 & Hcfg2). simpl.
    by exists s2, (ev1 ++ ev2).
Qed.

Lemma ids_cast_ok_new N : ids_cast_ok (ControllerManagerImpl_new N).
Proof.
  intros i p Hi. simpl in Hi. rewrite list_lookup_fmap in Hi.
  destruct (seq 0 N !! i) as [q|] eqn:Hq; simpl in Hi; [|done].
  injection Hi as ->. apply lookup_seq in Hq as [-> _]. done.
Qed.

(** X14. A call of [update] on a manager that was constructed but not
    started dereferences the null configuration. After [startup], any
    sequence of calls of [update], whatever the clock, the reads, the
    snapshots and the answers of the transport are, runs without an access
    out of bounds or through a null pointer, and leaves a table that is
    full, holds no object twice and in which every session carries the
    position of its slot as id; the configuration stays the one [startup]
    loaded. *)
Theorem update_keeps_table_and_ids N bits hid_init_ok cfg inps :
  (∀ inp, update N bits inp (ControllerManagerImpl_new N) = None) ∧
  ∃ s' evs,
    run N bits inps (startup hid_init_ok cfg (ControllerManagerImpl_new N)).1.1
      = Some (s', evs) ∧
    pool_ok N s' ∧ ids_cast_ok s' ∧ m_config s' = Some cfg.
Proof.
  split; [done|].
  apply run_keeps_ids; destruct hid_init_ok;
    solve [apply pool_ok_new|apply ids_cast_ok_new|done].
Qed.

(** ** A pass that finds no device *)

(** Step 2 on a full table that Step 1 did not touch: the sessions go to
    the temporary array in slot order. *)
Lemma retire_all_in_order N s :
  pool_ok N s →
  ∃ st evs,
    for_each retire_existing (seq 0 N) (pass_start N s) = Some (st, evs) ∧
    ps_temp st = m_controllers s ∧
    evs = omap (closing_line s) (seq 0 N) ∧
    (∀ i p, m_controllers s !! i = Some (Some p) →
       ps_objects st p
       = setPSMoveID (static_cast_int i)
           (if IsOpen (objects s p) then close (objects s p) else objects s p)) ∧
    (∀ q, Some q ∉ m_controllers s → ps_objects st q = objects s q).
Proof.
  intros Hok. pose proof Hok as (Hlen & Hfull & _).
  destruct (pool_ok_pointers _ _ Hok) as (Heq & Hplen & Hnd).
  pose proof (pass_inv_start N s Hlen) as Hinv0.
  assert (∀ q, Some q ∉ m_controllers s → q ∉ pointers (m_controllers s)) as Hnotin.
  { intros q Hq Hin. by apply Hq, elem_of_pointers. }
  remember (pointers (m_controllers s)) as ps eqn:Hps. clear Hps.
  assert (∀ i p, m_controllers s !! i = Some (Some p) → ps !! i = Some p) as Hlk.
  { intros i p Hp. rewrite Heq, list_lookup_fmap in Hp.
    destruct (ps !! i); simpl in Hp; congruence. }
  destruct (for_each_seq_inv retire_existing
    (λ i st evs,
       pass_inv N ps (take i ps) st ∧
       ps_controllers st = replicate i None ++ drop i (m_controllers s) ∧
       evs = omap (closing_line s) (seq 0 i) ∧
       (∀ j p, (j < i)%nat → ps !! j = Some p →
          ps_objects st p
          = setPSMoveID (static_cast_int j)
              (if IsOpen (objects s p) then close (objects s p) else objects s p)) ∧
       (∀ q, q ∉ take i ps → ps_objects st q = objects s q))
    N 0%nat (pass_start N s)) as (st & evs & Hrun & Hinv & Hctl & Hevs & Hobj & Hout).
  - split; [done|]. split; [done|]. split; [done|]. split; [intros; lia|done].
  - intros i st evs [_ Hi] (Hinv & Hctl & Hevs & Hobj & Hout). simpl in Hi.
    destruct (Hfull i Hi) as [p Hp]. pose proof (Hlk i p Hp) as Hpi.
    assert (ps_controllers st !! i = Some (Some p)) as Hci.
    { rewrite Hctl, lookup_app_r by (rewrite length_replicate; lia).
      by rewrite length_replicate, Nat.sub_diag, lookup_drop, Nat.add_0_r. }
    assert (ps_new_index st = i) as Hidx.
    { destruct Hinv as (_ & _ & -> & _). apply length_take_le. lia. }
    assert (p ∉ take i ps) as Hfresh.
    { rewrite elem_of_take. intros (j & Hj & Hlt).
      pose proof (NoDup_lookup _ _ _ _ Hnd Hj Hpi). lia. }
    rewrite (retire_existing_Some _ _ _ _ _ _ Hinv Hci).
    eexists _, _. split; [done|]. rewrite (Hout p Hfresh).
    split; [|split; [|split; [|split]]].
    + rewrite (take_S_r _ _ _ Hpi). by apply pass_inv_move.
    + cbn [ps_controllers].
      rewrite Hctl, replicate_S_end, <- (assoc (++)),
        insert_app_r_alt by (rewrite length_replicate; lia).
      by rewrite length_replicate, Nat.sub_diag, (drop_S _ _ _ Hp).
    + rewrite Hevs, omap_seq_S. f_equal. simpl. unfold closing_line. rewrite Hp.
      by destruct (IsOpen (objects s p)).
    + cbn [ps_objects]. intros j q Hj Hq. destruct (decide (j = i)) as [->|Hne].
      * rewrite Hpi in Hq. injection Hq as <-. rewrite on_object_eq, Hidx.
        destruct (IsOpen (objects s p)) eqn:Ho;
          [by rewrite on_object_eq, (Hout p Hfresh)|by rewrite (Hout p Hfresh)].
      * assert (p ≠ q) as Hpq.
        { intros ->. apply Hne. by eapply NoDup_lookup. }
        rewrite on_object_ne by done.
        destruct (IsOpen (objects s p)); [rewrite on_object_ne by done|];
          (apply Hobj; [lia|done]).
    + cbn [ps_objects]. intros q Hq.
      rewrite (take_S_r _ _ _ Hpi), elem_of_app, list_elem_of_singleton in Hq.
      assert (p ≠ q) as Hpq by (intros ->; tauto).
      rewrite on_object_ne by done.
      destruct (IsOpen (objects s p)); [rewrite on_object_ne by done|];
        (apply Hout; tauto).
  - simpl in *. exists st, evs. split; [done|].
    rewrite take_ge in Hinv, Hout by lia.
    split; [|split; [done|split]].
    + destruct Hinv as (_ & -> & _). rewrite Hplen, Nat.sub_diag. simpl.
      by rewrite app_nil_r.
    + intros i p Hp. apply Hobj; [|by apply Hlk].
      rewrite <- Hlen. by eapply lookup_lt_Some.
    + intros q Hq. by apply Hout, Hnotin.
Qed.

(** X15. When the enumerator lists no device, the hot-plug pass on a
    full table leaves every session in its slot, closes the sessions that
    are open, gives every session the position of its slot as id, and
    writes one closing line for each session that was open, in slot order,
    and nothing else; objects outside the table are not touched. *)
Theorem update_connected_controllers_nothing_attached N open_ok s :
  pool_ok N s →
  ∃ s',
    update_connected_controllers N [] open_ok s
      = Some (s', omap (closing_line s) (seq 0 N)) ∧
    m_controllers s' = m_controllers s ∧
    (∀ i p, m_controllers s !! i = Some (Some p) →
       IsOpen (objects s' p) = false ∧
       objects s' p
       = setPSMoveID (static_cast_int i)
           (if IsOpen (objects s p) then close (objects s p) else objects s p)) ∧
    (∀ q, Some q ∉ m_controllers s → objects s' q = objects s q).
Proof.
  intros Hok. pose proof Hok as (Hlen & _).
  destruct (pass_structure N [] open_ok s Hlen)
    as (st1 & e1 & st2 & e2 & m1 & m2 & Hrun1 & Hrun2 & Hpass & _).
  simpl in Hrun1. injection Hrun1 as <- <-.
  destruct (retire_all_in_order N s Hok) as (st & evs & Hrun & Htemp & Hevs & Hobj & Hout).
  rewrite Hrun2 in Hrun. injection Hrun as -> ->.
  eexists. split; [by rewrite Hpass, Hevs|]. simpl.
  split; [done|]. split; [|done].
  intros i p Hp. rewrite (Hobj i p Hp). split; [|done].
  by destruct (IsOpen (objects s p)) eqn:Ho.
Qed.

Lemma update_connected_controllers_nothing_attached_witness :
  pool_ok 2 two_open ∧
  ∃ s',
    update_connected_controllers 2 [] (always true) two_open
      = Some (s', omap (closing_line two_open) (seq 0 2)) ∧
    m_controllers s' = m_controllers two_open ∧
    (∀ i p, m_controllers two_open !! i = Some (Some p) →
       IsOpen (objects s' p) = false ∧
       objects s' p
       = setPSMoveID (static_cast_int i)
           (if IsOpen (objects two_open p) then close (objects two_open p)
            else objects two_open p)) ∧
    (∀ q, Some q ∉ m_controllers two_open → objects s' q = objects two_open q).
Proof.
  split; [apply pool_ok_two_open|].
  apply (update_connected_controllers_nothing_attached 2 (always true) two_open).
  apply pool_ok_two_open.
Defined.

(** ** A pass on a table of closed sessions *)

Lemma in_order_start N s F :
  length (m_controllers s) = N →
  in_order N s (pointers (m_controllers s)) F 0 (pass_start N s).
Proof.
  intros Hlen. split; [by apply pass_inv_start|]. split; [done|].
  split; [intros; lia|done].
Qed.

Lemma in_order_here N s ps F i st p :
  NoDup ps → length ps = N → (i < N)%nat →
  in_order N s ps F i st →
  m_controllers s !! i = Some (Some p) → ps !! i = Some p →
  ps_controllers st !! i = Some (Some p) ∧ ps_new_index st = i ∧
  (p ∉ take i ps) ∧ ps_objects st p = objects s p.
Proof.
  intros Hnd Hplen Hi (Hinv & Hctl & Hobj & Hout) Hp Hpi.
  assert (p ∉ take i ps) as Hfresh.
  { rewrite elem_of_take. intros (j & Hj & Hlt).
    pose proof (NoDup_lookup _ _ _ _ Hnd Hj Hpi). lia. }
  split; [|split; [|split; [done|by apply Hout]]].
  - rewrite Hctl, lookup_app_r by (rewrite length_replicate; lia).
    by rewrite length_replicate, Nat.sub_diag, lookup_drop, Nat.add_0_r.
  - destruct Hinv as (_ & _ & -> & _). apply length_take_le. lia.
Qed.

Lemma in_order_step N s ps F i st p h' :
  NoDup ps → length ps = N → (i < N)%nat →
  in_order N s ps F i st →
  m_controllers s !! i = Some (Some p) → ps !! i = Some p →
  h' p = F i (objects s p) →
  (∀ q, p ≠ q → h' q = ps_objects st q) →
  in_order N s ps F (S i)
    (mkPass (<[i := None]> (ps_controllers st))
            (<[ps_new_index st := Some p]> (ps_temp st))
            (S (ps_new_index st)) h').
Proof.
  intros Hnd Hplen Hi Hord Hp Hpi Hnew Hframe.
  destruct (in_order_here N s ps F i st p Hnd Hplen Hi Hord Hp Hpi)
    as (Hci & Hidx & Hfresh & Hsame).
  destruct Hord as (Hinv & Hctl & Hobj & Hout).
  split; [|split; [|split]].
  - rewrite (take_S_r _ _ _ Hpi). by apply pass_inv_move.
  - cbn [ps_controllers].
    rewrite Hctl, replicate_S_end, <- (assoc (++)),
      insert_app_r_alt by (rewrite length_replicate; lia).
    by rewrite length_replicate, Nat.sub_diag, (drop_S _ _ _ Hp).
  - cbn [ps_objects]. intros j q Hj Hq. destruct (decide (j = i)) as [->|Hne].
    + rewrite Hpi in Hq. by injection Hq as <-.
    + assert (p ≠ q) as Hpq.
      { intros ->. apply Hne. by eapply NoDup_lookup. }
      rewrite Hframe by done. apply Hobj; [lia|done].
  - cbn [ps_objects]. intros q Hq.
    rewrite (take_S_r _ _ _ Hpi), elem_of_app, list_elem_of_singleton in Hq.
    assert (p ≠ q) as Hpq by (intros ->; tauto).
    rewrite Hframe by done. apply Hout. tauto.
Qed.

Lemma in_order_rest N s ps F i st j q :
  m_controllers s = Some <$> ps → NoDup ps →
  in_order N s ps F i st →
  ps_controllers st !! j = Some (Some q) →
  m_controllers s !! j = Some (Some q) ∧ ps_objects st q = objects s q.
Proof.
  intros Heq Hnd (Hinv & Hctl & Hobj & Hout) Hq. rewrite Hctl in Hq.
  destruct (decide (j < i)%nat) as [Hlt|Hge].
  - rewrite lookup_app_l in Hq by (by rewrite length_replicate).
    apply lookup_replicate in Hq as [? _]. done.
  - rewrite lookup_app_r in Hq by (rewrite length_replicate; lia).
    rewrite length_replicate, lookup_drop in Hq.
    replace (i + (j - i))%nat with j in Hq by lia.
    split; [done|]. apply Hout. rewrite elem_of_take. intros (j' & Hj' & Hlt).
    rewrite Heq, list_lookup_fmap in Hq.
    destruct (ps !! j) as [q'|] eqn:Hj; simpl in Hq; [|done]. injection Hq as ->.
    pose proof (NoDup_lookup _ _ _ _ Hnd Hj Hj'). lia.
Qed.

Lemma in_order_done N s ps F st :
  m_controllers s = Some <$> ps → length ps = N →
  in_order N s ps F N st →
  ps_temp st = m_controllers s ∧
  (∀ i p, m_controllers s !! i = Some (Some p) → ps_objects st p = F i (objects s p)) ∧
  (∀ q, Some q ∉ m_controllers s → ps_objects st q = objects s q).
Proof.
  intros Heq Hplen (Hinv & Hctl & Hobj & Hout).
  rewrite take_ge in Hinv, Hout by lia.
  split; [|split].
  - destruct Hinv as (_ & -> & _). rewrite Hplen, Nat.sub_diag. simpl.
    by rewrite app_nil_r.
  - intros i p Hp. pose proof (lookup_lt_Some _ _ _ Hp) as Hlt.
    rewrite Heq, length_fmap in Hlt.
    apply Hobj; [lia|]. rewrite Heq, list_lookup_fmap in Hp.
    destruct (ps !! i); simpl in Hp; congruence.
  - intros q Hq. apply Hout. intros Hin. apply Hq. rewrite Heq.
    by apply list_elem_of_fmap_2.
Qed.

(** Step 1 on a table of closed sessions: each device takes the next
    slot, until the table is full. *)
Lemma connect_all_closed N s ps es open_ok post pre st :
  m_controllers s = Some <$> ps → NoDup ps → length ps = N → all_closed s →
  es = pre ++ post → (length pre ≤ N)%nat →
  in_order N s ps (first_session es open_ok) (length pre) st →
  ∃ st',
    connect_all open_ok post st
      = Some (st',
              omap (connected_line open_ok)
                (seq (length pre) (length es `min` N - length pre))
              ++ (if decide (N < length es)%nat then [LogError_too_many] else [])) ∧
    in_order N s ps (first_session es open_ok) (length es `min` N) st'.
Proof.
  intros Heq Hnd Hplen Hclosed. revert pre st.
  induction post as [|e post IH]; intros pre st Hsplit Hle Hord.
  { rewrite app_nil_r in Hsplit. subst pre.
    rewrite Nat.min_l, Nat.sub_diag by done. simpl.
    destruct (decide (N < length es)%nat); [lia|]. by exists st. }
  assert (length es = (length pre + S (length post))%nat) as Hes.
  { rewrite Hsplit, length_app. done. }
  assert (find_open_controller_index (ps_objects st) (ps_controllers st) e = None) as Hopen.
  { apply find_open_controller_index_None. intros j q Hq [Ho _].
    destruct (in_order_rest N s ps _ _ st j q Heq Hnd Hord Hq) as [Hm Hsame].
    rewrite Hsame, (Hclosed j q Hm) in Ho. done. }
  simpl. destruct (decide (length pre < N)%nat) as [Hlt|Hge].
  - destruct (lookup_lt_is_Some_2 ps (length pre)) as [p Hpi]; [lia|].
    assert (m_controllers s !! length pre = Some (Some p)) as Hp.
    { by rewrite Heq, list_lookup_fmap, Hpi. }
    destruct (in_order_here N s ps _ _ st p Hnd Hplen Hlt Hord Hp Hpi)
      as (Hci & Hidx & Hfresh & Hsame).
    assert (find_first_closed_controller_index (ps_objects st) (ps_controllers st)
            = Some (length pre)) as Hfind.
    { apply find_first_closed_controller_index_Some. exists p.
      split; [done|]. split; [by rewrite Hsame, (Hclosed _ _ Hp)|].
      intros j q Hj Hq. destruct Hord as (_ & Hctl & _).
      rewrite Hctl, lookup_app_l in Hq by (by rewrite length_replicate).
      apply lookup_replicate in Hq as [? _]. done. }
    pose proof Hord as (Hinv & _).
    destruct (connect_enumerated_new _ _ _ _ open_ok _ _ Hinv Hopen Hfind)
      as (p' & Hci' & _ & Hstep). simpl in Hstep.
    rewrite Hci in Hci'. injection Hci' as <-.
    rewrite Hstep. simpl.
    assert (length (pre ++ [e]) = S (length pre)) as Hl.
    { rewrite length_app. simpl. lia. }
    match type of Hstep with _ = Some (?st1, _, _) =>
      destruct (IH (pre ++ [e]) st1) as (st' & Hrun & Hord')
    end; [by rewrite <- (assoc (++))|lia| |].
    + rewrite Hl.
      apply (in_order_step N s ps _ (length pre) st p); try done.
      * rewrite fn_lookup_insert, on_object_eq, Hidx, Hsame. unfold first_session.
        assert (es !! length pre = Some e) as ->; [|done].
        rewrite Hsplit. by rewrite list_lookup_middle.
      * intros q Hne. rewrite fn_lookup_insert_ne by done. by rewrite on_object_ne.
    + rewrite Hrun. simpl. exists st'. split; [|done]. rewrite Hl, Hidx.
      replace (length es `min` N - length pre)%nat
        with (S (length es `min` N - S (length pre))) by lia.
      rewrite (assoc (++)). do 2 f_equal. cbn. unfold connected_line at 2.
      by destruct (open_ok (length pre)).
  - assert (length pre = N) as HN by lia.
    assert (find_first_closed_controller_index (ps_objects st) (ps_controllers st) = None)
      as Hfind.
    { apply find_first_closed_controller_index_None. intros j q Hq.
      destruct (in_order_rest N s ps _ _ st j q Heq Hnd Hord Hq) as [Hm _].
      pose proof (lookup_lt_Some _ _ _ Hm) as Hj. rewrite Heq, length_fmap in Hj.
      destruct Hord as (_ & Hctl & _). rewrite Hctl in Hq.
      rewrite lookup_app_l in Hq by (rewrite length_replicate; lia).
      apply lookup_replicate in Hq as [? _]. done. }
    rewrite (connect_enumerated_full _ _ _ Hopen Hfind). simpl.
    exists st. rewrite Nat.min_r by lia. rewrite HN, Nat.sub_diag. simpl.
    rewrite HN in Hord.
    by destruct (decide (N < length es)%nat); [|lia].
Qed.

(** Step 2 when what is left in the old list is closed: the sessions
    follow in slot order and no line is written. *)
Lemma retire_all_closed N s ps F k st :
  m_controllers s = Some <$> ps → NoDup ps → length ps = N → all_closed s →
  (k ≤ N)%nat →
  (∀ j c, (k ≤ j < N)%nat → F j c = setPSMoveID (static_cast_int j) c) →
  in_order N s ps F k st →
  ∃ st', for_each retire_existing (seq 0 N) st = Some (st', []) ∧
         in_order N s ps F N st'.
Proof.
  intros Heq Hnd Hplen Hclosed Hk HF Hord.
  destruct (for_each_seq_inv retire_existing
    (λ i st' evs, evs = [] ∧ in_order N s ps F (i `max` k) st') N 0%nat st)
    as (st' & evs & Hrun & -> & Hord').
  - split; [done|]. by rewrite Nat.max_r by lia.
  - intros i st1 evs [_ Hi] [-> Hord1]. simpl in Hi.
    destruct (decide (i < k)%nat) as [Hlt|Hge].
    + rewrite Nat.max_r in Hord1 by lia. rewrite (Nat.max_r (S i)) by lia.
      assert (ps_controllers st1 !! i = Some None) as Hci.
      { destruct Hord1 as (_ & -> & _).
        rewrite lookup_app_l by (by rewrite length_replicate).
        by apply lookup_replicate_2. }
      rewrite (retire_existing_None _ _ Hci). by exists st1, [].
    + rewrite Nat.max_l in Hord1 by lia. rewrite (Nat.max_l (S i)) by lia.
      destruct (lookup_lt_is_Some_2 ps i) as [p Hpi]; [lia|].
      assert (m_controllers s !! i = Some (Some p)) as Hp.
      { by rewrite Heq, list_lookup_fmap, Hpi. }
      destruct (in_order_here N s ps _ _ st1 p Hnd Hplen Hi Hord1 Hp Hpi)
        as (Hci & Hidx & Hfresh & Hsame).
      pose proof Hord1 as (Hinv & _).
      rewrite (retire_existing_Some _ _ _ _ _ _ Hinv Hci).
      rewrite Hsame, (Hclosed _ _ Hp).
      eexists _, _. split; [done|]. split; [done|].
      apply (in_order_step N s ps _ i st1 p); try done.
      * rewrite on_object_eq, Hidx, Hsame. symmetry. apply HF. lia.
      * intros q Hne. by rewrite on_object_ne.
  - exists st'. split; [done|]. simpl in Hord'. by rewrite Nat.max_l in Hord' by lia.
Qed.

Lemma all_closed_new N : all_closed (ControllerManagerImpl_new N).
Proof. by intros i p _. Qed.

(** X16. On a full table in which no session is open, as the
    constructor leaves it, a hot-plug pass gives slot [j] to the device at
    position [j] of the snapshot: the table is as it was, every session has
    the position of its slot as id, and the session of slot [j] is open on
    that device if the transport opened it and closed otherwise. One
    connected line is written for each device that was opened, in order,
    and the capacity error after them exactly when the snapshot lists more
    devices than there are slots. *)
Theorem update_connected_controllers_on_closed_table N es open_ok s :
  pool_ok N s → all_closed s →
  ∃ s',
    update_connected_controllers N es open_ok s
      = Some (s', omap (connected_line open_ok) (seq 0 (length es `min` N))
                  ++ (if decide (N < length es)%nat then [LogError_too_many] else [])) ∧
    m_controllers s' = m_controllers s ∧
    (∀ i p, m_controllers s !! i = Some (Some p) →
       objects s' p = first_session es open_ok i (objects s p)) ∧
    (∀ q, Some q ∉ m_controllers s → objects s' q = objects s q).
Proof.
  intros Hok Hclosed. pose proof Hok as (Hlen & _).
  destruct (pool_ok_pointers _ _ Hok) as (Heq & Hplen & Hnd).
  destruct (pass_structure N es open_ok s Hlen)
    as (st1 & e1 & st2 & e2 & m1 & m2 & Hrun1 & Hrun2 & Hpass & _).
  destruct (connect_all_closed N s _ es open_ok es [] (pass_start N s)
              Heq Hnd Hplen Hclosed)
    as (st1' & Hrun1' & Hord1); [done|simpl; lia|by apply in_order_start|].
  simpl in Hrun1'. rewrite Nat.sub_0_r in Hrun1'.
  rewrite Hrun1 in Hrun1'. injection Hrun1' as <- ->.
  destruct (retire_all_closed N s _ (first_session es open_ok) (length es `min` N) st1
              Heq Hnd Hplen Hclosed (Nat.le_min_r _ _))
    as (st2' & Hrun2' & Hord2); [|done|].
  { intros j c Hj. unfold first_session.
    rewrite (lookup_ge_None_2 es j) by lia. done. }
  rewrite Hrun2 in Hrun2'. injection Hrun2' as <- ->.
  destruct (in_order_done N s _ _ st2 Heq Hplen Hord2) as (Htemp & Hobj & Hout).
  eexists. split; [by rewrite Hpass, app_nil_r|]. done.
Qed.

Lemma update_connected_controllers_on_closed_table_witness :
  pool_ok 2 (ControllerManagerImpl_new 2) ∧ all_closed (ControllerManagerImpl_new 2) ∧
  ∃ s',
    update_connected_controllers 2 ["A"; "B"; "C"] only_first (ControllerManagerImpl_new 2)
      = Some (s', omap (connected_line only_first) (seq 0 (length ["A"; "B"; "C"] `min` 2))
                  ++ (if decide (2 < length ["A"; "B"; "C"])%nat
                      then [LogError_too_many] else [])) ∧
    m_controllers s' = m_controllers (ControllerManagerImpl_new 2) ∧
    (∀ i p, m_controllers (ControllerManagerImpl_new 2) !! i = Some (Some p) →
       objects s' p
       = first_session ["A"; "B"; "C"] only_first i
           (objects (ControllerManagerImpl_new 2) p)) ∧
    (∀ q, Some q ∉ m_controllers (ControllerManagerImpl_new 2) →
          objects s' q = objects (ControllerManagerImpl_new 2) q).
Proof.
  split; [apply pool_ok_new|]. split; [apply all_closed_new|].
  apply (update_connected_controllers_on_closed_table 2 ["A"; "B"; "C"] only_first
           (ControllerManagerImpl_new 2)); [apply pool_ok_new|apply all_closed_new].
Defined.

(** ** The service from start to shutdown *)

(** X17. A call of the service on a freshly constructed manager ends in a
    null dereference exactly when the network manager or the request
    handler fails to start: [shutdown] is called although the manager's
    [startup] never ran, and saves a configuration that is not there. When
    both start, the call comes to its end whatever the turns of the loop
    receive, with a full table in which every session is closed. *)
Theorem PSMoveService_call_spec N bits starts cfg inps :
  match PSMoveService_call N bits starts cfg inps (ControllerManagerImpl_new N) with
  | Some s' =>
      starts NetworkManager = true ∧ starts RequestHandler = true ∧
      pool_ok N s' ∧ all_closed s' ∧ m_config s' = Some cfg
  | None => starts NetworkManager = false ∨ starts RequestHandler = false
  end.
Proof.
  pose proof (pool_ok_new N) as Hok0. pose proof (ids_cast_ok_new N) as Hids0.
  assert (∀ s, pool_ok N s → m_config s = Some cfg →
            ∃ s', shutdown N s = Some s' ∧ pool_ok N s' ∧ all_closed s' ∧
                  m_config s' = Some cfg) as Hdown.
  { intros s Hok Hcfg.
    destruct (shutdown_spec N s cfg Hok Hcfg) as (s' & Hs & Hm & _ & Hc & Hobj & _).
    exists s'. split; [done|]. split; [by apply pool_ok_same_controllers with s|].
    split; [|congruence].
    intros i p Hp. rewrite Hm in Hp. by destruct (Hobj i p Hp). }
  unfold PSMoveService_call, PSMoveService_startup, startup_part.
  destruct (starts NetworkManager); [|by left].
  destruct (starts RequestHandler); [|by right].
  cbn [andb].
  set (s1 := (startup (starts ControllerManagerPart) cfg (ControllerManagerImpl_new N)).1.1).
  assert (pool_ok N s1 ∧ ids_cast_ok s1 ∧ m_config s1 = Some cfg) as (Hok1 & Hids1 & Hcfg1)
    by (subst s1; by destruct (starts ControllerManagerPart)).
  clearbody s1.
  destruct (starts ControllerManagerPart); cbn [fst].
  - destruct (run_keeps_ids N bits cfg inps s1 Hok1 Hids1 Hcfg1)
      as (s2 & evs & -> & Hok2 & _ & Hcfg2). cbn -[shutdown].
    by destruct (Hdown s2 Hok2 Hcfg2) as (s' & -> & ?).
  - cbn -[shutdown]. by destruct (Hdown s1 Hok1 Hcfg1) as (s' & -> & ?).
Qed.
